(** * NMEA receiver driver: field decoder, sentence parser, driver phases

    A shallow embedding of the NMEA GPS driver (the unit that defines
    [grab_fields], [gpsNewFrameNMEA], [gpsReceiveData], [gpsChangeBaud] and
    [gpsHandleNMEA]) together with the properties its specification states.

    Conventions of the embedding.
    - [char] is the 8-bit type [ascii]; the target is an ARM Cortex-M, so
      plain [char] is unsigned and [long] is 32 bits wide.
    - Fixed-width integers are [Z] with the wrap-around written out.
    - A C array is a [list]; an access outside it is undefined behaviour and
      shows up as the outcome [Fault].
    - Static locals and the shared records are fields of an explicit state
      that every function threads through. *)

From Stdlib Require Import ZArith Ascii String List Bool Lia.
From stdpp Require Import base tactics option list strings.

Open Scope Z_scope.

(** ** Outcomes *)

(** What a call can do: return a value, run into undefined behaviour, or
    exhaust the iteration budget of the model (the last never happens for a
    budget of 16, see [grab_loop_budget]). *)
Inductive outcome (A : Type) : Type :=
| Ret (a : A)
| Fault
| Timeout.
Arguments Ret {A} a.
Arguments Fault {A}.
Arguments Timeout {A}.

#[global] Instance outcome_ret : MRet outcome := fun A a => Ret a.
#[global] Instance outcome_bind : MBind outcome := fun A B f m =>
  match m with
  | Ret a => f a
  | Fault => Fault
  | Timeout => Timeout
  end.

(** The value part of an outcome that carries a pair. *)
Definition value_of {A B : Type} (o : outcome (A * B)) : outcome A :=
  match o with
  | Ret r => Ret r.1
  | Fault => Fault
  | Timeout => Timeout
  end.

(** ** Characters and machine integers *)

Definition code (c : ascii) : Z := Z.of_N (N_of_ascii c).

Definition NUL : ascii := "000"%char.
Definition CR : ascii := "013"%char.
Definition LF : ascii := "010"%char.

Definition wrap8 (z : Z) : Z := z mod 256.
Definition wrap16 (z : Z) : Z := z mod 65536.
Definition wrap32 (z : Z) : Z := z mod 4294967296.
(** Conversion to [int32_t] (two's complement). *)
Definition to_int32 (z : Z) : Z := (z + 2147483648) mod 4294967296 - 2147483648.

Definition is_digit (c : ascii) : bool := (48 <=? code c) && (code c <=? 57).

(** ** Arrays of [char] *)

Abbreviation buffer := (list ascii).

Definition rd (src : buffer) (i : nat) : outcome ascii :=
  match src !! i with
  | Some c => Ret c
  | None => Fault
  end.

Definition wr (src : buffer) (i : nat) (c : ascii) : outcome buffer :=
  if decide (i < length src)%nat then Ret (<[i := c]> src) else Fault.

(** The C string held by an array: the bytes before the first NUL. *)
Fixpoint cstr (src : buffer) : list ascii :=
  match src with
  | [] => []
  | c :: rest => if Ascii.eqb c NUL then [] else c :: cstr rest
  end.

(** ** The field decoder [grab_fields] *)

(** The part of the loop body after the decimal-point test: scale, add the
    digit at [i], give up at the bound, otherwise go on with [i + 1]. *)
Definition grab_tail (continue : buffer -> nat -> Z -> outcome (Z * buffer))
    (src : buffer) (i : nat) (tmp : Z) : outcome (Z * buffer) :=
  let tmp := wrap32 (tmp * 10) in
  d ← rd src i;
  let tmp := if is_digit d then wrap32 (tmp + (code d - 48)) else tmp in
  if (15 <=? i)%nat then Ret (0, src)
  else continue src (S i) tmp.

(** One pass of [for (i = 0; src[i] != 0; i++)] per unit of [fuel]. *)
Fixpoint grab_loop (fuel : nat) (mult : nat) (src : buffer) (i : nat) (tmp : Z)
    : outcome (Z * buffer) :=
  match fuel with
  | O => Timeout
  | S fuel' =>
      c ← rd src i;
      if Ascii.eqb c NUL then Ret (tmp, src)
      else if Ascii.eqb c "."%char then
        if (mult =? 0)%nat then Ret (tmp, src)
        else
          src' ← wr src (S i + mult) NUL;
          grab_tail (grab_loop fuel' mult) src' (S i) tmp
      else grab_tail (grab_loop fuel' mult) src i tmp
  end.

(** [grab_fields src mult]: the decoded value and the array as the call
    leaves it. *)
Definition grab_fields (src : buffer) (mult : nat) : outcome (Z * buffer) :=
  grab_loop 16 mult src 0%nat 0.

(** The array with every byte that is neither a digit, nor a decimal point,
    nor NUL replaced by ['0']. *)
Definition zero_other (c : ascii) : ascii :=
  if is_digit c || Ascii.eqb c "."%char || Ascii.eqb c NUL then c else "0"%char.
Definition zero_others (src : buffer) : buffer := zero_other <$> src.

Definition chars (s : string) : list ascii := list_ascii_of_string s.
(** A string literal as a C array: its characters and the terminator. *)
Definition lit (s : string) : buffer := chars s ++ [NUL].

(** ** Data of the sentence parser *)

(** [gpsDataNmea_t]: the pending record the parser fills field by field. *)
Record gpsDataNmea_t := mkMsg {
  fix_ : bool;         (* bool fix *)
  latitude : Z;        (* int32_t *)
  longitude : Z;       (* int32_t *)
  numSat : Z;          (* uint8_t *)
  altitude : Z;        (* uint16_t *)
  speed : Z;           (* uint16_t *)
  ground_course : Z;   (* uint16_t *)
  hdop : Z             (* uint16_t *)
}.

Definition set_fix v m := mkMsg v (latitude m) (longitude m) (numSat m) (altitude m) (speed m) (ground_course m) (hdop m).
Definition set_latitude v m := mkMsg (fix_ m) v (longitude m) (numSat m) (altitude m) (speed m) (ground_course m) (hdop m).
Definition set_longitude v m := mkMsg (fix_ m) (latitude m) v (numSat m) (altitude m) (speed m) (ground_course m) (hdop m).
Definition set_numSat v m := mkMsg (fix_ m) (latitude m) (longitude m) v (altitude m) (speed m) (ground_course m) (hdop m).
Definition set_altitude v m := mkMsg (fix_ m) (latitude m) (longitude m) (numSat m) v (speed m) (ground_course m) (hdop m).
Definition set_speed v m := mkMsg (fix_ m) (latitude m) (longitude m) (numSat m) (altitude m) v (ground_course m) (hdop m).
Definition set_ground_course v m := mkMsg (fix_ m) (latitude m) (longitude m) (numSat m) (altitude m) (speed m) v (hdop m).
Definition set_hdop v m := mkMsg (fix_ m) (latitude m) (longitude m) (numSat m) (altitude m) (speed m) (ground_course m) v.

(** [NO_FRAME], [FRAME_GGA], [FRAME_RMC]: the only values [gps_frame] takes. *)
Inductive frame_t := NO_FRAME | FRAME_GGA | FRAME_RMC.

Inductive gpsFixType_e := GPS_NO_FIX | GPS_FIX_2D | GPS_FIX_3D.

(** The part of [gpsSol] this unit touches.  The record is declared in
    io/gps.h, outside this unit; a field holds the value assigned to it. *)
Record gpsSolutionData_t := mkSol {
  fixType : gpsFixType_e;
  sol_numSat : Z;
  llh_lat : Z;
  llh_lon : Z;
  llh_alt : Z;
  sol_hdop : Z;
  eph : Z;
  epv : Z;
  groundSpeed : Z;
  groundCourse : Z;
  flags_validEPE : bool;
  flags_validVelNE : bool;
  flags_validVelD : bool;
  flags_gpsHeartbeat : bool
}.

(** [gpsStats]: the counters, which the data model describes as
    monotonically non-decreasing; they are counted in [N]. *)
Record gpsStatistics_t := mkStats {
  packetCount : N;
  errors : N
}.

(** The static locals of [gpsNewFrameNMEA] and the two shared records. *)
Record world := mkWorld {
  gps_Msg : gpsDataNmea_t;
  param : Z;                 (* uint8_t *)
  offset : nat;              (* uint8_t, at most 15 *)
  parity : Z;                (* uint8_t *)
  str : buffer;              (* char string[NMEA_BUFFER_SIZE] *)
  checksum_param : bool;     (* uint8_t, only ever 0 or 1 *)
  gps_frame : frame_t;
  gpsSol : gpsSolutionData_t;
  gpsStats : gpsStatistics_t
}.

Definition NMEA_BUFFER_SIZE : nat := 16.

(** The value the line-end case gives one captured checksum character. *)
Definition hexval (c : ascii) : Z :=
  if 65 <=? code c then code c - 65 + 10 else code c - 48.

(** The frame identification: the four [strcmp] tests on field 0. *)
Definition identify (s : list ascii) : frame_t :=
  if decide (s = chars "GPGGA" \/ s = chars "GNGGA") then FRAME_GGA
  else if decide (s = chars "GPRMC" \/ s = chars "GNRMC") then FRAME_RMC
  else NO_FRAME.

Section Parser.

(** Collaborators defined outside this unit (common/gps_conversion.h and
    io/gps.h).  [GPS_coord_to_degrees] receives the C string held by the
    parser's array. *)
Variable GPS_coord_to_degrees : list ascii -> Z.
Variable gpsConstrainHDOP : Z -> Z.
Variable gpsConstrainEPE : Z -> Z.
Variable GPS_HDOP_TO_EPH_MULTIPLIER : Z.

(** The two inner [switch (param)] blocks.  Negation of an [int32_t] is taken
    in two's complement. *)
Definition parse_field (frame : frame_t) (p : Z) (s : buffer) (m : gpsDataNmea_t)
    : outcome (gpsDataNmea_t * buffer) :=
  match frame with
  | FRAME_GGA =>
      match p with
      | 2 => Ret (set_latitude (to_int32 (GPS_coord_to_degrees (cstr s))) m, s)
      | 3 => c ← rd s 0%nat;
             Ret (if Ascii.eqb c "S"%char
                  then set_latitude (to_int32 (latitude m * -1)) m else m, s)
      | 4 => Ret (set_longitude (to_int32 (GPS_coord_to_degrees (cstr s))) m, s)
      | 5 => c ← rd s 0%nat;
             Ret (if Ascii.eqb c "W"%char
                  then set_longitude (to_int32 (longitude m * -1)) m else m, s)
      | 6 => c ← rd s 0%nat;
             Ret (set_fix (48 <? code c) m, s)
      | 7 => r ← grab_fields s 0%nat;
             Ret (set_numSat (wrap8 r.1) m, r.2)
      | 8 => r ← grab_fields s 1%nat;
             Ret (set_hdop (wrap16 (wrap32 (r.1 * 10))) m, r.2)
      | 9 => r ← grab_fields s 1%nat;
             Ret (set_altitude (wrap16 (wrap32 (r.1 * 10))) m, r.2)
      | _ => Ret (m, s)
      end
  | FRAME_RMC =>
      match p with
      | 7 => r ← grab_fields s 1%nat;
             Ret (set_speed (wrap16 (wrap32 (r.1 * 5144) / 1000)) m, r.2)
      | 8 => r ← grab_fields s 1%nat;
             Ret (set_ground_course (wrap16 r.1) m, r.2)
      | _ => Ret (m, s)
      end
  | NO_FRAME => Ret (m, s)
  end.

(** [case FRAME_GGA] of the commit. *)
Definition commit_GGA (m : gpsDataNmea_t) (g : gpsSolutionData_t) : gpsSolutionData_t :=
  if fix_ m then
    mkSol GPS_FIX_3D (numSat m) (latitude m) (longitude m) (altitude m)
          (gpsConstrainHDOP (hdop m))
          (gpsConstrainEPE (hdop m * GPS_HDOP_TO_EPH_MULTIPLIER))
          (gpsConstrainEPE (hdop m * GPS_HDOP_TO_EPH_MULTIPLIER))
          (groundSpeed g) (groundCourse g)
          false false false (flags_gpsHeartbeat g)
  else
    mkSol GPS_NO_FIX (numSat m) (llh_lat g) (llh_lon g) (llh_alt g)
          (sol_hdop g) (eph g) (epv g) (groundSpeed g) (groundCourse g)
          (flags_validEPE g) false false (flags_gpsHeartbeat g).

(** [case FRAME_RMC] of the commit. *)
Definition commit_RMC (m : gpsDataNmea_t) (g : gpsSolutionData_t) : gpsSolutionData_t :=
  mkSol (fixType g) (sol_numSat g) (llh_lat g) (llh_lon g) (llh_alt g)
        (sol_hdop g) (eph g) (epv g) (speed m) (ground_course m)
        (flags_validEPE g) (flags_validVelNE g) (flags_validVelD g)
        (flags_gpsHeartbeat g).

(** [case ','] and [case '*']. *)
Definition on_separator (c : ascii) (w : world) : outcome (bool * world) :=
  s ← wr (str w) (offset w) NUL;
  let frame := if param w =? 0 then identify (cstr s) else gps_frame w in
  r ← parse_field frame (param w) s (gps_Msg w);
  Ret (false,
       mkWorld r.1 (wrap8 (param w + 1)) 0%nat
               (if Ascii.eqb c "*"%char then parity w else Z.lxor (parity w) (code c))
               r.2
               (if Ascii.eqb c "*"%char then true else checksum_param w)
               frame (gpsSol w) (gpsStats w)).

(** [case '\r'] and [case '\n']. *)
Definition on_line_end (w : world) : outcome (bool * world) :=
  if checksum_param w then
    c0 ← rd (str w) 0%nat;
    c1 ← rd (str w) 1%nat;
    let checksum := wrap8 (16 * hexval c0 + hexval c1) in
    if checksum =? parity w then
      let stats := mkStats (packetCount (gpsStats w) + 1) (errors (gpsStats w)) in
      match gps_frame w with
      | FRAME_GGA =>
          Ret (true, mkWorld (gps_Msg w) (param w) (offset w) (parity w) (str w)
                             false (gps_frame w)
                             (commit_GGA (gps_Msg w) (gpsSol w)) stats)
      | FRAME_RMC =>
          Ret (false, mkWorld (gps_Msg w) (param w) (offset w) (parity w) (str w)
                              false (gps_frame w)
                              (commit_RMC (gps_Msg w) (gpsSol w)) stats)
      | NO_FRAME =>
          Ret (false, mkWorld (gps_Msg w) (param w) (offset w) (parity w) (str w)
                              false (gps_frame w) (gpsSol w) stats)
      end
    else
      Ret (false, mkWorld (gps_Msg w) (param w) (offset w) (parity w) (str w)
                          false (gps_frame w) (gpsSol w)
                          (mkStats (packetCount (gpsStats w)) (errors (gpsStats w) + 1)))
  else
    Ret (false, mkWorld (gps_Msg w) (param w) (offset w) (parity w) (str w)
                        false (gps_frame w) (gpsSol w) (gpsStats w)).

(** [default]. *)
Definition on_other (c : ascii) (w : world) : outcome (bool * world) :=
  if (offset w <? NMEA_BUFFER_SIZE - 1)%nat then
    s ← wr (str w) (offset w) c;
    Ret (false, mkWorld (gps_Msg w) (param w) (S (offset w))
                        (if checksum_param w then parity w else Z.lxor (parity w) (code c))
                        s (checksum_param w) (gps_frame w) (gpsSol w) (gpsStats w))
  else Ret (false, w).

(** [gpsNewFrameNMEA c]: the value returned ([frameOK]) and the state left. *)
Definition gpsNewFrameNMEA (c : ascii) (w : world) : outcome (bool * world) :=
  if Ascii.eqb c "$"%char then
    Ret (false, mkWorld (gps_Msg w) 0 0%nat 0 (str w) (checksum_param w)
                        (gps_frame w) (gpsSol w) (gpsStats w))
  else if Ascii.eqb c ","%char || Ascii.eqb c "*"%char then on_separator c w
  else if Ascii.eqb c CR || Ascii.eqb c LF then on_line_end w
  else on_other c w.

(** Feeding a byte sequence, one call per byte; the results of the calls are
    collected in order. *)
Fixpoint feed (bytes : list ascii) (w : world) : outcome (list bool * world) :=
  match bytes with
  | [] => Ret ([], w)
  | c :: rest =>
      r ← gpsNewFrameNMEA c w;
      r' ← feed rest r.2;
      Ret (r.1 :: r'.1, r'.2)
  end.

End Parser.

(** The state at power-on: statics are zero-initialised. *)
Definition msg0 : gpsDataNmea_t := mkMsg false 0 0 0 0 0 0 0.
Definition sol0 : gpsSolutionData_t :=
  mkSol GPS_NO_FIX 0 0 0 0 0 0 0 0 0 false false false false.
Definition world0 : world :=
  mkWorld msg0 0 0%nat 0 (repeat NUL NMEA_BUFFER_SIZE) false NO_FRAME sol0 (mkStats 0 0).

(** ** The driver: receive loop, baud negotiation, configuration, phases *)

Inductive gpsState_e :=
| GPS_UNKNOWN | GPS_INITIALIZING | GPS_CHANGE_BAUD | GPS_CHECK_VERSION
| GPS_CONFIGURE | GPS_RECEIVING_DATA | GPS_LOST_COMMUNICATION.

Inductive gpsProvider_e := GPS_NMEA | GPS_NMEA_PSRF.
Inductive gpsAutoBaud_e := GPS_AUTOBAUD_OFF | GPS_AUTOBAUD_ON.
Inductive gpsAutoConfig_e := GPS_AUTOCONFIG_OFF | GPS_AUTOCONFIG_ON.

#[global] Instance gpsProvider_eq_dec : EqDecision gpsProvider_e.
Proof. solve_decision. Defined.
#[global] Instance gpsAutoBaud_eq_dec : EqDecision gpsAutoBaud_e.
Proof. solve_decision. Defined.
#[global] Instance gpsAutoConfig_eq_dec : EqDecision gpsAutoConfig_e.
Proof. solve_decision. Defined.

Record gpsConfig_t := mkConfig {
  provider : gpsProvider_e;
  autoBaud : gpsAutoBaud_e;
  autoConfig : gpsAutoConfig_e
}.

(** [gpsState].  The record is declared in io/gps_private.h, outside this
    unit; the cursors are counted in [nat]. *)
Record gpsReceiverData_t := mkGpsState {
  gpsConfig : gpsConfig_t;
  gpsPort : bool;                (* the port pointer is not NULL *)
  state : gpsState_e;
  baudrateIndex : nat;
  autoBaudrateIndex : nat;
  autoConfigStep : nat;
  autoConfigPosition : nat;
  lastStateSwitchMs : Z          (* uint32_t *)
}.

(** [GPS_BAUDRATE_COUNT] comes from io/gps.h; the two tables of this unit
    that it sizes have six entries each. *)
Definition GPS_BAUDRATE_COUNT : nat := 6.
Definition GPS_NMEA_CONFIG_DELAY : Z := 300.

Definition crlf (s : string) : list ascii := chars s ++ [CR; LF].

Definition mtkInit_BaudData : list (list ascii) :=
  map crlf
    [ "$PMTK251,115200*1F" ; "$PMTK251,57600*2C" ; "$PMTK251,38400*27" ;
      "$PMTK251,19200*22" ; "$PMTK251,9600*17" ; "$PMTK251,4800*14" ]%string.
Definition srfInit_BaudData : list (list ascii) :=
  map crlf
    [ "$PSRF100,1,115200,8,1,0*05" ; "$PSRF100,1,57600,8,1,0*36" ;
      "$PSRF100,1,38400,8,1,0*3D" ; "$PSRF100,1,19200,8,1,0*38" ;
      "$PSRF100,1,9600,8,1,0*0D" ; "$PSRF100,1,4800,8,1,0*0E" ]%string.

(** The command arrays; [sizeof] counts the terminator of the literal. *)
Definition mtkInit_REPORTRATE_5Hz : buffer := crlf "$PMTK220,200*2C" ++ [NUL].
Definition mtkInitStr_REPORTRATE_5Hz : list ascii := crlf "$PMTK220,200*2C".
Definition mtkInit_UPDATERATE_5Hz : buffer := crlf "$PMTK300,200,0,0,0,0*2F" ++ [NUL].
Definition mtkInitStr_UPDATERATE_5Hz : list ascii := crlf "$PMTK300,200,0,0,0,0*2F".
Definition srfInit_UPDATERATE_5Hz : buffer := crlf "$PSRF103,00,6,00,0*23" ++ [NUL].

(** Calls this unit makes to its collaborators, in program order. *)
Inductive call :=
| CallSerialWrite (c : ascii)
| CallSerialPrint (s : list ascii)
| CallSerialSetBaudRate (baud : Z)
| CallSetState (s : gpsState_e)
| CallFinalizeChangeBaud
| CallDebug (index : nat) (value : Z).

Section Driver.

Variable GPS_coord_to_degrees : list ascii -> Z.
Variable gpsConstrainHDOP : Z -> Z.
Variable gpsConstrainEPE : Z -> Z.
Variable GPS_HDOP_TO_EPH_MULTIPLIER : Z.

(** The transmit side of the serial port (drivers/serial.h) and the two
    routines of io/gps.c that this unit calls. *)
Variable dev_t : Type.
Variable serialTxBytesFree : dev_t -> Z.
Variable isSerialTransmitBufferEmpty : dev_t -> bool.
Variable serialWrite : ascii -> dev_t -> dev_t.
Variable serialPrint : list ascii -> dev_t -> dev_t.
Variable serialSetBaudRate : Z -> dev_t -> dev_t.
(** [baudRates[gpsToSerialBaudRate[i]]] *)
Variable baudRate_of : nat -> Z.
(** [gpsSetState s], called when [millis()] reads [now]. *)
Variable gpsSetState : gpsState_e -> Z -> gpsReceiverData_t -> gpsReceiverData_t.
Variable gpsFinalizeChangeBaud :
  Z -> gpsReceiverData_t * dev_t -> gpsReceiverData_t * dev_t.

Record dworld := mkD {
  nmea : world;                  (* parser statics, gpsSol, gpsStats *)
  gpsState : gpsReceiverData_t;
  rxq : list ascii;              (* bytes the port has waiting, oldest first *)
  dev : dev_t;
  calls : list call              (* calls made so far *)
}.

Definition do_gpsSetState (s : gpsState_e) (now : Z) (d : dworld) : dworld :=
  mkD (nmea d) (gpsSetState s now (gpsState d)) (rxq d) (dev d)
      (calls d ++ [CallSetState s]).

Definition do_serialWrite (c : ascii) (d : dworld) : dworld :=
  mkD (nmea d) (gpsState d) (rxq d) (serialWrite c (dev d))
      (calls d ++ [CallSerialWrite c]).

Definition do_serialPrint (s : list ascii) (d : dworld) : dworld :=
  mkD (nmea d) (gpsState d) (rxq d) (serialPrint s (dev d))
      (calls d ++ [CallSerialPrint s]).

Definition do_serialSetBaudRate (b : Z) (d : dworld) : dworld :=
  mkD (nmea d) (gpsState d) (rxq d) (serialSetBaudRate b (dev d))
      (calls d ++ [CallSerialSetBaudRate b]).

Definition do_gpsFinalizeChangeBaud (now : Z) (d : dworld) : dworld :=
  let r := gpsFinalizeChangeBaud now (gpsState d, dev d) in
  mkD (nmea d) r.1 (rxq d) r.2 (calls d ++ [CallFinalizeChangeBaud]).

Definition with_gpsState (g : gpsReceiverData_t) (d : dworld) : dworld :=
  mkD (nmea d) g (rxq d) (dev d) (calls d).

Definition step_autoConfig (g : gpsReceiverData_t) : gpsReceiverData_t :=
  mkGpsState (gpsConfig g) (gpsPort g) (state g) (baudrateIndex g)
             (autoBaudrateIndex g) (S (autoConfigStep g)) (autoConfigPosition g)
             (lastStateSwitchMs g).

Definition set_autoConfigPosition (n : nat) (g : gpsReceiverData_t) : gpsReceiverData_t :=
  mkGpsState (gpsConfig g) (gpsPort g) (state g) (baudrateIndex g)
             (autoBaudrateIndex g) (autoConfigStep g) n (lastStateSwitchMs g).

Definition step_autoBaudrateIndex (g : gpsReceiverData_t) : gpsReceiverData_t :=
  mkGpsState (gpsConfig g) (gpsPort g) (state g) (baudrateIndex g)
             (S (autoBaudrateIndex g)) (autoConfigStep g) (autoConfigPosition g)
             (lastStateSwitchMs g).

(** [nmeaTransmitAutoConfigCommands]: one pass of the [while] per unit of
    [fuel]. *)
Fixpoint nmeaTransmit_loop (fuel : nat) (nmeaCmdBuf : buffer) (nmeaCmdSize : nat)
    (now : Z) (d : dworld) : outcome (bool * dworld) :=
  match fuel with
  | O => Timeout
  | S fuel' =>
      if 0 <? serialTxBytesFree (dev d) then
        if (autoConfigPosition (gpsState d) <? nmeaCmdSize)%nat then
          c ← rd nmeaCmdBuf (autoConfigPosition (gpsState d));
          let d := do_serialWrite c d in
          let d := with_gpsState
                     (set_autoConfigPosition (S (autoConfigPosition (gpsState d)))
                                             (gpsState d)) d in
          nmeaTransmit_loop fuel' nmeaCmdBuf nmeaCmdSize now d
        else if isSerialTransmitBufferEmpty (dev d) then
          let d := with_gpsState
                     (set_autoConfigPosition 0 (step_autoConfig (gpsState d))) d in
          Ret (true, do_gpsSetState GPS_CONFIGURE now d)
        else Ret (false, d)
      else Ret (false, d)
  end.

Definition nmeaTransmitAutoConfigCommands (nmeaCmdBuf : buffer) (now : Z) (d : dworld)
    : outcome (bool * dworld) :=
  let size := length nmeaCmdBuf in
  nmeaTransmit_loop (S (size - autoConfigPosition (gpsState d))) nmeaCmdBuf size now d.

(** A "check" step of [gpsConfigure]: print once the transmitter is idle. *)
Definition config_check (s : list ascii) (now : Z) (d : dworld) : dworld :=
  if isSerialTransmitBufferEmpty (dev d) then
    let d := do_serialPrint s d in
    let d := with_gpsState (step_autoConfig (gpsState d)) d in
    do_gpsSetState GPS_CONFIGURE now d
  else d.

Definition gpsConfigure (now : Z) (d : dworld) : outcome (bool * dworld) :=
  if wrap32 (now - lastStateSwitchMs (gpsState d)) <? GPS_NMEA_CONFIG_DELAY
  then Ret (false, d)
  else
    match autoConfigStep (gpsState d) with
    | 0%nat => r ← nmeaTransmitAutoConfigCommands mtkInit_REPORTRATE_5Hz now d;
               Ret (false, r.2)
    | 1%nat => Ret (false, config_check mtkInitStr_REPORTRATE_5Hz now d)
    | 2%nat => r ← nmeaTransmitAutoConfigCommands mtkInit_UPDATERATE_5Hz now d;
               Ret (false, r.2)
    | 3%nat => Ret (false, config_check mtkInitStr_UPDATERATE_5Hz now d)
    | _ => Ret (false, do_gpsSetState GPS_RECEIVING_DATA now d)
    end.

Definition gpsConfigure_PSRF (now : Z) (d : dworld) : outcome (bool * dworld) :=
  if wrap32 (now - lastStateSwitchMs (gpsState d)) <? GPS_NMEA_CONFIG_DELAY
  then Ret (false, d)
  else
    match autoConfigStep (gpsState d) with
    | 0%nat => r ← nmeaTransmitAutoConfigCommands srfInit_UPDATERATE_5Hz now d;
               Ret (false, r.2)
    | _ => Ret (false, do_gpsSetState GPS_RECEIVING_DATA now d)
    end.

(** What [gpsReceiveData] does to [gpsSol] when a frame is ready. *)
Definition frame_seen (g : gpsSolutionData_t) : gpsSolutionData_t :=
  mkSol (fixType g) (sol_numSat g) (llh_lat g) (llh_lon g) (llh_alt g)
        (sol_hdop g) (eph g) (epv g) (groundSpeed g) (groundCourse g)
        (flags_validEPE g) false false (negb (flags_gpsHeartbeat g)).

Definition with_gpsSol (g : gpsSolutionData_t) (w : world) : world :=
  mkWorld (gps_Msg w) (param w) (offset w) (parity w) (str w)
          (checksum_param w) (gps_frame w) g (gpsStats w).

(** The [while (serialRxBytesWaiting(...))] loop over the waiting bytes. *)
Fixpoint receive_loop (bytes : list ascii) (hasNewData : bool) (w : world)
    : outcome (bool * world) :=
  match bytes with
  | [] => Ret (hasNewData, w)
  | newChar :: rest =>
      '(frameOK, w) ← gpsNewFrameNMEA GPS_coord_to_degrees gpsConstrainHDOP
                         gpsConstrainEPE GPS_HDOP_TO_EPH_MULTIPLIER newChar w;
      if (frameOK : bool)
      then receive_loop rest true (with_gpsSol (frame_seen (gpsSol w)) w)
      else receive_loop rest hasNewData w
  end.

Definition gpsReceiveData (d : dworld) : outcome (bool * dworld) :=
  if gpsPort (gpsState d) then
    r ← receive_loop (rxq d) false (nmea d);
    Ret (r.1, mkD r.2 (gpsState d) [] (dev d) (calls d))
  else Ret (false, d).

Definition gpsInitialize (now : Z) (d : dworld) : bool * dworld :=
  (false, do_gpsSetState GPS_CHANGE_BAUD now d).

Definition GPS_BAUD_CHANGE_DELAY : Z := 200.

Definition gpsChangeBaud (now : Z) (d : dworld) : outcome (bool * dworld) :=
  let g := gpsState d in
  if negb (bool_decide (autoBaud (gpsConfig g) = GPS_AUTOBAUD_OFF))
     && (autoBaudrateIndex g <? GPS_BAUDRATE_COUNT)%nat then
    if (GPS_BAUD_CHANGE_DELAY <=? wrap32 (now - lastStateSwitchMs g))
       && isSerialTransmitBufferEmpty (dev d) then
      let d := do_serialSetBaudRate (baudRate_of (autoBaudrateIndex g)) d in
      let table := if bool_decide (provider (gpsConfig g) = GPS_NMEA_PSRF)
                   then srfInit_BaudData else mtkInit_BaudData in
      match table !! baudrateIndex g with
      | None => Fault
      | Some s =>
          let d := do_serialPrint s d in
          let d := mkD (nmea d) (gpsState d) (rxq d) (dev d)
                       (calls d ++ [CallDebug 1 (Z.of_nat (baudrateIndex g))]) in
          let d := with_gpsState (step_autoBaudrateIndex (gpsState d)) d in
          Ret (false, do_gpsSetState GPS_CHANGE_BAUD now d)
      end
    else Ret (false, d)
  else Ret (false, do_gpsFinalizeChangeBaud now d).

(** [gpsHandleNMEA]: one scheduling tick, entered when [millis()] reads
    [now]. *)
Definition gpsHandleNMEA (now : Z) (d : dworld) : outcome (bool * dworld) :=
  '(hasNewData, d) ← gpsReceiveData d;
  match state (gpsState d) with
  | GPS_INITIALIZING => Ret (gpsInitialize now d)
  | GPS_CHANGE_BAUD => gpsChangeBaud now d
  | GPS_CHECK_VERSION | GPS_CONFIGURE =>
      if bool_decide (autoConfig (gpsConfig (gpsState d)) = GPS_AUTOCONFIG_OFF) then
        Ret (false, do_gpsSetState GPS_RECEIVING_DATA now d)
      else if bool_decide (provider (gpsConfig (gpsState d)) = GPS_NMEA_PSRF) then
        gpsConfigure_PSRF now d
      else gpsConfigure now d
  | GPS_RECEIVING_DATA => Ret (hasNewData, d)
  | _ => Ret (false, d)
  end.

(** What happens between two ticks: bytes arrive, and the rest of the
    firmware and the hardware act on [gpsState] and on the transmitter. *)
Record tick := mkTick {
  tick_now : Z;
  tick_bytes : list ascii;
  tick_env : gpsReceiverData_t * dev_t -> gpsReceiverData_t * dev_t
}.

Definition arrive (t : tick) (d : dworld) : dworld :=
  let e := tick_env t (gpsState d, dev d) in
  mkD (nmea d) e.1 (rxq d ++ tick_bytes t) e.2 (calls d).

(** A sequence of scheduling ticks. *)
Fixpoint run_ticks (ts : list tick) (d : dworld) : outcome dworld :=
  match ts with
  | [] => Ret d
  | t :: rest =>
      '(_, d) ← gpsHandleNMEA (tick_now t) (arrive t d);
      run_ticks rest d
  end.

End Driver.

Arguments mkD {dev_t} _ _ _ _ _.
Arguments nmea {dev_t} _.
Arguments gpsState {dev_t} _.
Arguments rxq {dev_t} _.
Arguments dev {dev_t} _.
Arguments calls {dev_t} _.
Arguments mkTick {dev_t} _ _ _.
Arguments tick_now {dev_t} _.
Arguments tick_bytes {dev_t} _.
Arguments tick_env {dev_t} _.

(** The two velocity validity flags of [gpsSol]. *)
Definition vel_flags (g : gpsSolutionData_t) : bool * bool :=
  (flags_validVelNE g, flags_validVelD g).

(** Neither flag went from 0 to 1. *)
Definition never_set (g g' : gpsSolutionData_t) : Prop :=
  (flags_validVelNE g' = true -> flags_validVelNE g = true)
  /\ (flags_validVelD g' = true -> flags_validVelD g = true).

(** Both flags kept their values, or both read 0. *)
Definition kept_or_cleared (g g' : gpsSolutionData_t) : Prop :=
  vel_flags g' = vel_flags g \/ vel_flags g' = (false, false).

(** ** Sentences on the wire *)

(** The five bytes the parser's outer [switch] singles out. *)
Definition special (c : ascii) : bool :=
  Ascii.eqb c "$"%char || Ascii.eqb c ","%char || Ascii.eqb c "*"%char
  || Ascii.eqb c CR || Ascii.eqb c LF.

(** A field the parser's array can hold: no special byte, at most 15 bytes. *)
Definition field_ok (f : list ascii) : bool :=
  forallb (fun c => negb (special c)) f && (length f <=? 15)%nat.

Definition is_separator (c : ascii) : Prop := c = ","%char \/ c = "*"%char.

(** The bytes of a run of fields, each behind its comma. *)
Definition rest_bytes (args : list (list ascii)) : list ascii :=
  concat (map (cons ","%char) args).

(** The bytes between ['$'] and ['*']: the identifier and the
    comma-separated fields after it. *)
Definition body (ident : list ascii) (args : list (list ascii)) : list ascii :=
  ident ++ rest_bytes args.

Definition xor_bytes (l : list ascii) (acc : Z) : Z :=
  fold_left (fun a c => Z.lxor a (code c)) l acc.

(** The exclusive-or of all bytes between ['$'] and ['*']. *)
Definition nmea_checksum (ident : list ascii) (args : list (list ascii)) : Z :=
  xor_bytes (body ident args) 0.

(** The exclusive-or the parser accumulates over a run of fields: every
    comma is folded in, the bytes of a field only outside the
    checksum-capture mode [cp]. *)
Fixpoint fields_parity (cp : bool) (args : list (list ascii)) (par : Z) : Z :=
  match args with
  | [] => par
  | a :: rest =>
      fields_parity cp rest
        (if cp then Z.lxor par (code ","%char)
         else xor_bytes a (Z.lxor par (code ","%char)))
  end.

(** The value the parser compares the checksum digits with, for a sentence
    that it starts to read in mode [cp]. *)
Definition seen_checksum (cp : bool) (ident : list ascii)
    (args : list (list ascii)) : Z :=
  fields_parity cp args (if cp then 0 else xor_bytes ident 0).

Definition hex_digit (n : Z) : ascii :=
  nth (Z.to_nat n) (chars "0123456789ABCDEF") "0"%char.

(** [$ident,arg,...,arg*HH<CR><LF>] with [HH] the two upper-case hex digits
    of [cks]. *)
Definition sentence (ident : list ascii) (args : list (list ascii)) (cks : Z)
    : list ascii :=
  "$"%char :: body ident args
    ++ "*"%char :: hex_digit (cks / 16) :: hex_digit (cks mod 16) :: [CR; LF].

(** The same sentence cut off right after its two checksum digits. *)
Definition sentence_head (ident : list ascii) (args : list (list ascii)) (cks : Z)
    : list ascii :=
  "$"%char :: body ident args
    ++ "*"%char :: hex_digit (cks / 16) :: [hex_digit (cks mod 16)].

(** A field as it sits in the parser's array right after its separator:
    terminated, and here followed by NUL bytes only. *)
Definition in_array (f : list ascii) : buffer :=
  f ++ repeat NUL (NMEA_BUFFER_SIZE - length f).

(** The value [grab_fields] returns for a field. *)
Definition decode_field (f : list ascii) (mult : nat) : Z :=
  match grab_fields (in_array f) mult with
  | Ret r => r.1
  | _ => 0
  end.

(** Index of the first decimal point of the C string. *)
Fixpoint first_dot (f : list ascii) : option nat :=
  match f with
  | [] => None
  | c :: r =>
      if Ascii.eqb c NUL then None
      else if Ascii.eqb c "."%char then Some 0%nat
      else S <$> first_dot r
  end.

(** The byte that [grab_fields f 1] clears, two places after the decimal
    point, lies inside the 16-byte array. *)
Definition decimal_fits (f : list ascii) : bool :=
  match first_dot f with
  | Some p => (p + 2 <? NMEA_BUFFER_SIZE)%nat
  | None => true
  end.

(** The fields decoded with one fractional digit. *)
Definition decodes_fraction (frame : frame_t) (p : Z) : bool :=
  match frame, p with
  | FRAME_GGA, 8 | FRAME_GGA, 9 | FRAME_RMC, 7 | FRAME_RMC, 8 => true
  | _, _ => false
  end.

Definition frame_after (frame : frame_t) (p : Z) (f : list ascii) : frame_t :=
  if p =? 0 then identify (cstr f) else frame.

(** No field of the list makes [grab_fields] write outside the array, when
    the list starts at field number [p] with tag [frame]. *)
Fixpoint fields_safe (fs : list (list ascii)) (frame : frame_t) (p : Z) : bool :=
  match fs with
  | [] => true
  | f :: rest =>
      let frame' := frame_after frame p f in
      (if decodes_fraction frame' p then decimal_fits f else true)
      && fields_safe rest frame' (wrap8 (p + 1))
  end.

Section Pending.

Variable GPS_coord_to_degrees : list ascii -> Z.

(** What one terminated field does to the pending record. *)
Definition pend (frame : frame_t) (p : Z) (f : list ascii) (m : gpsDataNmea_t)
    : gpsDataNmea_t :=
  match parse_field GPS_coord_to_degrees frame p (in_array f) m with
  | Ret r => r.1
  | _ => m
  end.

(** Tag, field number and pending record after a run of terminated fields. *)
Fixpoint fields_effect (fs : list (list ascii)) (frame : frame_t) (p : Z)
    (m : gpsDataNmea_t) : frame_t * Z * gpsDataNmea_t :=
  match fs with
  | [] => (frame, p, m)
  | f :: rest =>
      let frame' := frame_after frame p f in
      fields_effect rest frame' (wrap8 (p + 1)) (pend frame' p f m)
  end.

End Pending.

(** ** What a sentence says *)

(** The values the parser derives from the fields of a fix-data sentence. *)
Definition gga_coordinate (GPS_coord_to_degrees : list ascii -> Z)
    (negative : ascii) (coord hemi : list ascii) : Z :=
  let v := to_int32 (GPS_coord_to_degrees (cstr coord)) in
  if Ascii.eqb (hd NUL hemi) negative then to_int32 (v * -1) else v.
Definition gga_fix (fixq : list ascii) : bool := 48 <? code (hd NUL fixq).
Definition gga_numSat (nsat : list ascii) : Z := wrap8 (decode_field nsat 0).
Definition gga_hdop (hdop : list ascii) : Z := wrap16 (wrap32 (decode_field hdop 1 * 10)).
Definition gga_altitude (alt : list ascii) : Z := wrap16 (wrap32 (decode_field alt 1 * 10)).

(** The values the parser derives from a recommended-minimum-data sentence. *)
Definition rmc_speed (spd : list ascii) : Z :=
  wrap16 (wrap32 (decode_field spd 1 * 5144) / 1000).
Definition rmc_course (crs : list ascii) : Z := wrap16 (decode_field crs 1).

(** The pending record a fix-data sentence leaves. *)
Definition gga_pending (GPS_coord_to_degrees : list ascii -> Z)
    (lat ns lon ew fixq nsat hdop alt : list ascii)
    (m : gpsDataNmea_t) : gpsDataNmea_t :=
  mkMsg (gga_fix fixq)
        (gga_coordinate GPS_coord_to_degrees "S"%char lat ns)
        (gga_coordinate GPS_coord_to_degrees "W"%char lon ew)
        (gga_numSat nsat) (gga_altitude alt) (speed m) (ground_course m)
        (gga_hdop hdop).

(** The pending record a recommended-minimum-data sentence leaves. *)
Definition rmc_pending (spd crs : list ascii) (m : gpsDataNmea_t) : gpsDataNmea_t :=
  set_ground_course (rmc_course crs) (set_speed (rmc_speed spd) m).

Definition is_GGA_ident (ident : list ascii) : Prop :=
  ident = chars "GPGGA" \/ ident = chars "GNGGA".
Definition is_RMC_ident (ident : list ascii) : Prop :=
  ident = chars "GPRMC" \/ ident = chars "GNRMC".

(** The [switch (gps_frame)] of the commit, as a function of the tag. *)
Definition commit (gpsConstrainHDOP gpsConstrainEPE : Z -> Z)
    (GPS_HDOP_TO_EPH_MULTIPLIER : Z) (frame : frame_t) (m : gpsDataNmea_t)
    (g : gpsSolutionData_t) : gpsSolutionData_t :=
  match frame with
  | FRAME_GGA => commit_GGA gpsConstrainHDOP gpsConstrainEPE GPS_HDOP_TO_EPH_MULTIPLIER m g
  | FRAME_RMC => commit_RMC m g
  | NO_FRAME => g
  end.

Definition is_GGA (frame : frame_t) : bool :=
  match frame with FRAME_GGA => true | _ => false end.

Definition count_packet (st : gpsStatistics_t) : gpsStatistics_t :=
  mkStats (packetCount st + 1) (errors st).
Definition count_error (st : gpsStatistics_t) : gpsStatistics_t :=
  mkStats (packetCount st) (errors st + 1).

(** ** Stand-ins for the collaborators, to run the model on examples *)

(** For the coordinate conversion: the digits of the field, four of them
    behind the decimal point. *)
Definition sample_coord (s : list ascii) : Z := decode_field s 4.
Definition sample_constrain (z : Z) : Z := Z.min z 9999.
Definition sample_multiplier : Z := 2.

Definition sample_feed : list ascii -> world -> outcome (list bool * world) :=
  feed sample_coord sample_constrain sample_constrain sample_multiplier.

(** A parser state in the middle of a flight: an earlier fix is on record. *)
Definition sol_flying : gpsSolutionData_t :=
  mkSol GPS_FIX_3D 7 481172690 115166670 30000 120 240 240 1152 844
        false true true true.
Definition world_flying : world :=
  mkWorld (mkMsg true 481172690 115166670 7 30000 1152 844 120)
          14 0%nat 0 (in_array (chars "46")) false FRAME_GGA sol_flying
          (mkStats 10 2).

(** The fix-data sentence of the specification's end-to-end scenario,
    [$GPGGA,123519,4807.038,N,01131.000,E,1,08,0.9,545.4,M,46.9,M,,*47], with
    the fix indicator and the last field left open. *)
Definition ex_gga_args (fixq last : string) : list (list ascii) :=
  map chars [ "123519"; "4807.038"; "N"; "01131.000"; "E"; fixq; "08"; "0.9";
              "545.4"; "M"; "46.9"; "M"; ""; last ]%string.

(** [$GPRMC,123519,A,4807.038,N,01131.000,E,<speed>,084.4,230394,003.1,W] *)
Definition ex_rmc_args (speed : string) : list (list ascii) :=
  map chars [ "123519"; "A"; "4807.038"; "N"; "01131.000"; "E"; speed; "084.4";
              "230394"; "003.1"; "W" ]%string.

(** A transmitter that only records what it is handed, and phase changes
    that record the phase and the time. *)
Definition sample_setState (s : gpsState_e) (now : Z) (g : gpsReceiverData_t)
    : gpsReceiverData_t :=
  mkGpsState (gpsConfig g) (gpsPort g) s (baudrateIndex g) (autoBaudrateIndex g)
             (autoConfigStep g) (autoConfigPosition g) now.
Definition sample_finalize (now : Z) (e : gpsReceiverData_t * list ascii)
    : gpsReceiverData_t * list ascii :=
  (sample_setState GPS_CHECK_VERSION now e.1, e.2).
Definition sample_baudRate (i : nat) : Z :=
  nth i [115200; 57600; 38400; 19200; 9600; 4800] 0.

Definition sample_ticks : list (tick (list ascii)) -> dworld (list ascii)
                          -> outcome (dworld (list ascii)) :=
  run_ticks sample_coord sample_constrain sample_constrain sample_multiplier
            (list ascii) (fun t => 64 - Z.of_nat (length t))
            (fun t => bool_decide (t = []))
            (fun c t => t ++ [c]) (fun s t => t ++ s) (fun _ t => t)
            sample_baudRate sample_setState sample_finalize.

(** A driver in the baud phase with auto-baud off, the flags still set. *)
Definition ex_driver : dworld (list ascii) :=
  mkD world_flying
      (mkGpsState (mkConfig GPS_NMEA GPS_AUTOBAUD_OFF GPS_AUTOCONFIG_OFF)
                  true GPS_CHANGE_BAUD 0 0 0 0 0)
      [] [] [].

(** Three ticks: nothing arrives, a fix-data sentence arrives, nothing
    arrives; the transmitter drains in between. *)
Definition ex_ticks : list (tick (list ascii)) :=
  [ mkTick 100 [] (fun e => (e.1, []));
    mkTick 200 (sentence (chars "GPGGA") (ex_gga_args "1" "") 71) (fun e => (e.1, []));
    mkTick 300 [] (fun e => (e.1, [])) ].

(** ** Decimal numbers, counts and runs used to state further properties *)

(** The number a string of digits denotes, continuing from [acc]. *)
Definition decimal (ds : list ascii) (acc : Z) : Z :=
  fold_left (fun a c => 10 * a + (code c - 48)) ds acc.

(** The same number as the decoder's 32-bit accumulator holds it. *)
Definition decimal32 (ds : list ascii) (acc : Z) : Z :=
  fold_left (fun a c => wrap32 (wrap32 (a * 10) + (code c - 48))) ds acc.

Definition all_digits (ds : list ascii) : bool := forallb is_digit ds.

(** How often a byte occurs in a stream, and how many calls of a run
    returned the frame-ready signal. *)
Definition occurrences (c : ascii) (bytes : list ascii) : nat :=
  count_occ ascii_dec bytes c.
Definition line_ends (bytes : list ascii) : nat :=
  (occurrences CR bytes + occurrences LF bytes)%nat.
Definition frames (signals : list bool) : nat := count_occ bool_dec signals true.

(** The checksum the parser has open: one when it is capturing. *)
Definition open_checksum (w : world) : N := if checksum_param w then 1%N else 0%N.

(** The sentences counted so far, accepted or not. *)
Definition counted (w : world) : N :=
  (packetCount (gpsStats w) + errors (gpsStats w))%N.

Section Transmitter.

Variable dev_t : Type.
Variable serialWrite : ascii -> dev_t -> dev_t.

(** The port after the bytes [bs] have been handed to [serialWrite] one by
    one. *)
Definition written (bs : list ascii) (t : dev_t) : dev_t :=
  fold_left (fun t c => serialWrite c t) bs t.

End Transmitter.

Arguments written {dev_t} _ _ _.

(** The calls a tick may make, by the phase it finds. *)
Definition allowed (s : gpsState_e) (c : call) : bool :=
  match s, c with
  | GPS_INITIALIZING, CallSetState GPS_CHANGE_BAUD => true
  | GPS_CHANGE_BAUD, CallSerialSetBaudRate _ => true
  | GPS_CHANGE_BAUD, CallSerialPrint _ => true
  | GPS_CHANGE_BAUD, CallDebug _ _ => true
  | GPS_CHANGE_BAUD, CallSetState GPS_CHANGE_BAUD => true
  | GPS_CHANGE_BAUD, CallFinalizeChangeBaud => true
  | GPS_CHECK_VERSION, CallSerialWrite _ => true
  | GPS_CHECK_VERSION, CallSerialPrint _ => true
  | GPS_CHECK_VERSION, CallSetState GPS_CONFIGURE => true
  | GPS_CHECK_VERSION, CallSetState GPS_RECEIVING_DATA => true
  | GPS_CONFIGURE, CallSerialWrite _ => true
  | GPS_CONFIGURE, CallSerialPrint _ => true
  | GPS_CONFIGURE, CallSetState GPS_CONFIGURE => true
  | GPS_CONFIGURE, CallSetState GPS_RECEIVING_DATA => true
  | _, _ => false
  end.

(** The calls that reach the port, in the order they were made. *)
Definition reaches_port (c : call) : bool :=
  match c with
  | CallSerialWrite _ | CallSerialPrint _ | CallSerialSetBaudRate _ => true
  | _ => false
  end.
Definition sent_to_port (cs : list call) : list call := List.filter reaches_port cs.

Section Polling.

Variable dev_t : Type.

(** A phase routine called again and again, at the given times, while the
    port moves on in between (its transmit buffer drains). *)
Fixpoint poll (f : Z -> dworld dev_t -> outcome (bool * dworld dev_t))
    (ts : list (Z * (dev_t -> dev_t))) (d : dworld dev_t) : outcome (dworld dev_t) :=
  match ts with
  | [] => Ret d
  | t :: rest =>
      '(_, d) ← f t.1 (mkD (nmea d) (gpsState d) (rxq d) (t.2 (dev d)) (calls d));
      poll f rest d
  end.

End Polling.

Arguments poll {dev_t} _ _ _.

(** The init string [gpsChangeBaud] prints: the entry for the configured
    baud rate in the table of the provider. *)
Definition baud_command (g : gpsReceiverData_t) : option (list ascii) :=
  (if bool_decide (provider (gpsConfig g) = GPS_NMEA_PSRF)
   then srfInit_BaudData else mtkInit_BaudData) !! baudrateIndex g.

(** What [gpsConfigure] hands to the port in a whole configuration, and
    how much of it has gone out when the cursor stands at step [step],
    position [pos]. *)
Definition mtk_script : list call :=
  (CallSerialWrite <$> mtkInit_REPORTRATE_5Hz)
  ++ [CallSerialPrint mtkInitStr_REPORTRATE_5Hz]
  ++ (CallSerialWrite <$> mtkInit_UPDATERATE_5Hz)
  ++ [CallSerialPrint mtkInitStr_UPDATERATE_5Hz].

Definition mtk_progress (step pos : nat) : list call :=
  match step with
  | 0%nat => CallSerialWrite <$> take pos mtkInit_REPORTRATE_5Hz
  | 1%nat => CallSerialWrite <$> mtkInit_REPORTRATE_5Hz
  | 2%nat => (CallSerialWrite <$> mtkInit_REPORTRATE_5Hz)
             ++ [CallSerialPrint mtkInitStr_REPORTRATE_5Hz]
             ++ (CallSerialWrite <$> take pos mtkInit_UPDATERATE_5Hz)
  | 3%nat => (CallSerialWrite <$> mtkInit_REPORTRATE_5Hz)
             ++ [CallSerialPrint mtkInitStr_REPORTRATE_5Hz]
             ++ (CallSerialWrite <$> mtkInit_UPDATERATE_5Hz)
  | _ => mtk_script
  end.

(** The cursor of the configuration is in order: between two commands it
    stands at position 0. *)
Definition cursor_ok (g : gpsReceiverData_t) : Prop :=
  (autoConfigStep g = 1%nat \/ autoConfigStep g = 3%nat) -> autoConfigPosition g = 0%nat.

(** A sentence with its two checksum characters given as they are sent,
    and the lower-case hex digits. *)
Definition sentence_with (ident : list ascii) (args : list (list ascii))
    (h1 h2 : ascii) : list ascii :=
  "$"%char :: body ident args ++ "*"%char :: h1 :: h2 :: [CR; LF].

Definition hex_digit_lower (n : Z) : ascii :=
  nth (Z.to_nat n) (chars "0123456789abcdef") "0"%char.

(** ** Further stand-ins, to run the driver on examples *)

(** A port that records what it is handed: room for 64 bytes, empty when
    nothing is recorded. *)
Definition sample_free (t : list ascii) : Z := 64 - Z.of_nat (length t).
Definition sample_empty (t : list ascii) : bool := bool_decide (t = []).
Definition sample_write (c : ascii) (t : list ascii) : list ascii := t ++ [c].
Definition sample_print (s t : list ascii) : list ascii := t ++ s.
Definition sample_setBaud (b : Z) (t : list ascii) : list ascii := t.

Definition sample_step : ascii -> world -> outcome (bool * world) :=
  gpsNewFrameNMEA sample_coord sample_constrain sample_constrain sample_multiplier.

Definition sample_receive : dworld (list ascii) -> outcome (bool * dworld (list ascii)) :=
  gpsReceiveData sample_coord sample_constrain sample_constrain sample_multiplier
                 (list ascii).

Definition sample_handle : Z -> dworld (list ascii) -> outcome (bool * dworld (list ascii)) :=
  gpsHandleNMEA sample_coord sample_constrain sample_constrain sample_multiplier
                (list ascii) sample_free sample_empty sample_write sample_print
                sample_setBaud sample_baudRate sample_setState sample_finalize.

Definition sample_transmit : list ascii -> Z -> dworld (list ascii)
                             -> outcome (bool * dworld (list ascii)) :=
  nmeaTransmitAutoConfigCommands (list ascii) sample_free sample_empty sample_write
                                 sample_setState.

Definition sample_configure : Z -> dworld (list ascii) -> outcome (bool * dworld (list ascii)) :=
  gpsConfigure (list ascii) sample_free sample_empty sample_write sample_print
               sample_setState.

Definition sample_configure_PSRF : Z -> dworld (list ascii)
                                   -> outcome (bool * dworld (list ascii)) :=
  gpsConfigure_PSRF (list ascii) sample_free sample_empty sample_write sample_setState.

Definition sample_probe : Z -> dworld (list ascii) -> outcome (bool * dworld (list ascii)) :=
  gpsChangeBaud (list ascii) sample_empty sample_print sample_setBaud sample_baudRate
                sample_setState sample_finalize.

(** The fix-data sentence of the end-to-end scenario, on the wire. *)
Definition ex_gga : list ascii :=
  sentence (chars "GPGGA") (ex_gga_args "1" "")
           (nmea_checksum (chars "GPGGA") (ex_gga_args "1" "")).

(** A driver in a given phase with the given bytes waiting: MTK provider,
    auto-baud and auto-configuration on, configured for the fifth baud
    rate, cursors at the beginning. *)
Definition ex_phase (s : gpsState_e) (waiting : list ascii) : dworld (list ascii) :=
  mkD world_flying
      (mkGpsState (mkConfig GPS_NMEA GPS_AUTOBAUD_ON GPS_AUTOCONFIG_ON)
                  true s 4 0 0 0 0)
      waiting [] [].

(** The same for the second provider. *)
Definition ex_phase_PSRF (s : gpsState_e) : dworld (list ascii) :=
  mkD world_flying
      (mkGpsState (mkConfig GPS_NMEA_PSRF GPS_AUTOBAUD_ON GPS_AUTOCONFIG_ON)
                  true s 4 0 0 0 0)
      [] [] [].

(** Calls every 500 ms, the port drained in between. *)
Definition ex_polls (n : nat) : list (Z * (list ascii -> list ascii)) :=
  map (fun k => (500 * Z.of_nat (S k), fun _ : list ascii => [])) (seq 0 n).

(** A parser in the middle of the altitude field of a fix-data sentence,
    the field having filled the array with its decimal point last. *)
Definition ex_world_full : world :=
  mkWorld (gps_Msg world_flying) 9 15%nat 0
          (chars "12345678901234." ++ [NUL]) false FRAME_GGA sol_flying (mkStats 10 2).

(** A parser that was cut off in the middle of another sentence. *)
Definition ex_world_cut : world :=
  mkWorld (gps_Msg world_flying) 3 5%nat 77
          (in_array (chars "4807.")) false FRAME_RMC sol_flying (mkStats 10 2).

(** A parser that has read a fix-data sentence up to its two checksum
    characters, [47], with the running exclusive-or at that value. *)
Definition ex_world_closing : world :=
  mkWorld (gps_Msg world_flying) 15 2%nat 71
          (in_array (chars "47")) true FRAME_GGA sol_flying (mkStats 10 2).

(** A driver whose last state switch came 96 ms before the millisecond
    clock wraps round. *)
Definition ex_before_rollover : dworld (list ascii) :=
  mkD world_flying
      (mkGpsState (mkConfig GPS_NMEA GPS_AUTOBAUD_ON GPS_AUTOCONFIG_ON)
                  true GPS_CONFIGURE 4 0 4 0 4294967200)
      [] [] [].

(** ** The hand-over that ends the baud phase *)

(** Modelled from the spec: [gpsFinalizeChangeBaud], the routine of io/gps.c
    that [gpsChangeBaud] hands over to and that is not part of this unit.
    With auto-baud disabled the negotiation is to "immediately finalize (hand
    off to whatever fixed-baud-rate follow-up the configuration owns) and
    exit", so that the sequencer "transition[s] past CHANGE_BAUD within one
    invocation, issuing no transport writes"; the phases that follow
    CHANGE_BAUD are CHECK_VERSION and CONFIGURE, and "transitioning phases
    resets the per-phase cursor fields to zero and records the transition
    timestamp".  [next] is the phase handed over to.  The cursors reset are
    those of the configuration sequence that the next phase runs, the step
    index and the transmit cursor; the configuration, the two baud indices
    and the port are left as they are. *)
Definition spec_gpsFinalizeChangeBaud {dev_t : Type} (next : gpsState_e) (now : Z)
    (e : gpsReceiverData_t * dev_t) : gpsReceiverData_t * dev_t :=
  (mkGpsState (gpsConfig e.1) (gpsPort e.1) next (baudrateIndex e.1)
              (autoBaudrateIndex e.1) 0 0 now,
   e.2).

(** A driver in the baud phase with auto-baud off: cursors left over from an
    earlier run, two bytes still in the transmitter. *)
Definition ex_driver_off : dworld (list ascii) :=
  mkD world_flying
      (mkGpsState (mkConfig GPS_NMEA_PSRF GPS_AUTOBAUD_OFF GPS_AUTOCONFIG_ON)
                  true GPS_CHANGE_BAUD 4 2 3 17 1000)
      [] [CR; LF] [CallSetState GPS_CHANGE_BAUD].

(** The fix-data sentence of the end-to-end scenario without a fix, its last
    field sixteen bytes long. *)
Definition ex_gga_long : list (list ascii) := ex_gga_args "0" "0123456789ABCDEF".

(** * Proofs *)

#[local] Arguments Nat.leb : simpl never.
#[local] Arguments Nat.ltb : simpl never.
#[local] Arguments Nat.eqb : simpl never.
#[local] Arguments Nat.sub : simpl never.
#[local] Arguments Z.mul : simpl never.
#[local] Arguments Z.add : simpl never.
#[local] Arguments Z.sub : simpl never.
#[local] Arguments Z.modulo : simpl never.
#[local] Arguments Z.div : simpl never.
#[local] Arguments Z.lxor : simpl never.
#[local] Arguments Z.leb : simpl never.
#[local] Arguments Z.ltb : simpl never.
#[local] Arguments Z.eqb : simpl never.
#[local] Arguments Ascii.eqb : simpl never.
#[local] Arguments code : simpl never.

(** Reduce a bind whose first computation is a known outcome. *)
Ltac obind := cbn [mbind outcome_bind mret outcome_ret].
(** ** Properties of the field decoder *)

Lemma bind_Ret {A B} (m : outcome A) (f : A -> outcome B) (b : B) :
  m ≫= f = Ret b -> exists a, m = Ret a /\ f a = Ret b.
Proof. destruct m; simpl; intros H; try discriminate; eauto. Qed.

Lemma rd_Ret src i c : rd src i = Ret c <-> src !! i = Some c.
Proof. unfold rd. destruct (src !! i); split; intros H; congruence. Qed.

Lemma rd_lookup src i c : src !! i = Some c -> rd src i = Ret c.
Proof. apply rd_Ret. Qed.

Lemma wr_Ret src i c src' :
  wr src i c = Ret src' <-> (i < length src)%nat /\ src' = <[i := c]> src.
Proof.
  unfold wr. destruct (decide (i < length src)%nat); split; intros H.
  - split; congruence.
  - destruct H; congruence.
  - discriminate.
  - destruct H; lia.
Qed.

Lemma wr_in_range src i c :
  (i < length src)%nat -> wr src i c = Ret (<[i := c]> src).
Proof. intros H. apply wr_Ret; auto. Qed.

(** The budget of 16 passes is never exhausted: a pass entered with
    [i >= 15] returns. *)
Lemma grab_loop_budget fuel mult : forall src i tmp,
  (i <= 15)%nat -> (16 <= fuel + i)%nat ->
  grab_loop fuel mult src i tmp <> Timeout.
Proof.
  induction fuel as [|fuel IH]; intros src i tmp Hi Hf; [lia|].
  simpl. unfold rd. destruct (src !! i) as [c|]; simpl; [|done].
  destruct (Ascii.eqb c NUL); [done|].
  destruct (Ascii.eqb c "."%char).
  - destruct (mult =? 0)%nat; [done|].
    unfold wr. destruct decide; simpl; [|done].
    unfold grab_tail, rd. destruct (_ !! S i) as [d|]; simpl; [|done].
    destruct (_ <=? _)%nat eqn:Hb; [done|].
    apply Nat.leb_gt in Hb. apply IH; lia.
  - unfold grab_tail, rd. destruct (src !! i) as [d|]; simpl; [|done].
    destruct (_ <=? _)%nat eqn:Hb; [done|].
    apply Nat.leb_gt in Hb. apply IH; lia.
Qed.

Lemma grab_fields_budget src mult : grab_fields src mult <> Timeout.
Proof. apply grab_loop_budget; lia. Qed.

Lemma first_dot_drop (src : list ascii) i c :
  src !! i = Some c ->
  first_dot (drop i src)
  = if Ascii.eqb c NUL then None
    else if Ascii.eqb c "."%char then Some 0%nat
    else S <$> first_dot (drop (S i) src).
Proof. intros H. by rewrite (drop_S _ _ _ H). Qed.

(** What a run of the loop does to the array, and that running it again on
    the array it leaves changes nothing. *)
Lemma grab_loop_frame fuel mult : forall src i tmp v src',
  grab_loop fuel mult src i tmp = Ret (v, src') ->
  length src' = length src
  /\ (forall j, (j <= S i)%nat -> src' !! j = src !! j)
  /\ (forall j, src' !! j = src !! j \/ src' !! j = Some NUL)
  /\ (mult = 0%nat -> src' = src)
  /\ (first_dot (drop i src) = None -> src' = src)
  /\ grab_loop fuel mult src' i tmp = Ret (v, src').
Proof.
  induction fuel as [|fuel IH]; intros src i tmp v src' H; [discriminate|].
  simpl in H. unfold rd in H.
  destruct (src !! i) as [c|] eqn:Hc; simpl in H; [|discriminate].
  rewrite (first_dot_drop _ _ _ Hc).
  destruct (Ascii.eqb c NUL) eqn:Hnul.
  { injection H as <- <-. repeat split; auto.
    simpl. unfold rd. rewrite Hc. simpl. now rewrite Hnul. }
  destruct (Ascii.eqb c "."%char) eqn:Hdot.
  - destruct (mult =? 0)%nat eqn:Hm.
    { injection H as <- <-. repeat split; auto.
      simpl. unfold rd. rewrite Hc. simpl. now rewrite Hnul, Hdot, Hm. }
    apply Nat.eqb_neq in Hm.
    unfold wr in H. destruct decide as [Hlen|]; simpl in H; [|discriminate].
    remember (<[S (i + mult) := NUL]> src) as src1 eqn:Hsrc1.
    assert (Hlen1 : length src1 = length src) by (subst src1; apply length_insert).
    assert (Hne : forall j, j <> S (i + mult) -> src1 !! j = src !! j).
    { intros j Hj. subst src1. apply list_lookup_insert_ne. lia. }
    assert (Hk : src1 !! S (i + mult) = Some NUL).
    { subst src1. apply list_lookup_insert_eq. lia. }
    unfold grab_tail, rd in H.
    destruct (src1 !! S i) as [d|] eqn:Hd; simpl in H; [|discriminate].
    destruct (15 <=? S i)%nat eqn:Hb.
    + injection H as <- <-. split; [done|]. split; [|split; [|split; [|split]]].
      * intros j Hj. apply Hne. lia.
      * intros j. destruct (decide (j = S (i + mult))) as [->|Hj]; [by right|].
        left. by apply Hne.
      * lia.
      * discriminate.
      * simpl. unfold rd. rewrite Hne, Hc by lia. simpl. rewrite Hnul, Hdot.
        apply Nat.eqb_neq in Hm. rewrite Hm.
        unfold wr. destruct decide as [|Hn]; [|lia]. obind.
        rewrite (list_insert_id src1 _ _ Hk).
        unfold grab_tail, rd. rewrite Hd. simpl. now rewrite Hb.
    + apply IH in H as (Hl & Hpre & Hor & _ & _ & Hre).
      split; [lia|]. split; [|split; [|split; [|split]]].
      * intros j Hj. rewrite Hpre by lia. apply Hne. lia.
      * intros j. destruct (Hor j) as [E|E]; [|by right].
        rewrite E. destruct (decide (j = S (i + mult))) as [->|Hj]; [by right|].
        left. by apply Hne.
      * lia.
      * discriminate.
      * simpl. unfold rd. rewrite Hpre, Hne, Hc by lia. simpl. rewrite Hnul, Hdot.
        apply Nat.eqb_neq in Hm. rewrite Hm.
        unfold wr. destruct decide as [|Hn]; [|lia]. obind.
        assert (Hk' : src' !! S (i + mult) = Some NUL).
        { destruct (Hor (S (i + mult))) as [E|E]; [|exact E]. now rewrite E. }
        rewrite (list_insert_id src' _ _ Hk').
        unfold grab_tail, rd. rewrite Hpre, Hd by lia. simpl. rewrite Hb.
        exact Hre.
  - unfold grab_tail, rd in H. rewrite Hc in H. simpl in H.
    destruct (15 <=? i)%nat eqn:Hb.
    + injection H as <- <-. repeat split; auto.
      simpl. unfold rd. rewrite Hc. simpl. rewrite Hnul, Hdot.
      unfold grab_tail, rd. rewrite Hc. simpl. now rewrite Hb.
    + apply IH in H as (Hl & Hpre & Hor & Hz & Hnd & Hre).
      split; [done|]. split; [|split; [|split; [|split]]]; auto.
      * intros Hf. apply Hnd. by destruct (first_dot (drop (S i) src)).
      * simpl. unfold rd. rewrite Hpre, Hc by lia. simpl. rewrite Hnul, Hdot.
        unfold grab_tail, rd. rewrite Hpre, Hc by lia. simpl. rewrite Hb.
        exact Hre.
Qed.

Lemma grab_loop_at_nul fuel mult src i tmp :
  src !! i = Some NUL ->
  grab_loop fuel mult src i tmp
  = match fuel with O => Timeout | S _ => Ret (tmp, src) end.
Proof.
  intros H. destruct fuel; [done|]. simpl. unfold rd. rewrite H. done.
Qed.

Lemma eqb_NUL_false (c : ascii) : c <> NUL -> Ascii.eqb c NUL = false.
Proof. apply Ascii.eqb_neq. Qed.

(** With at most one fractional digit the decoder reads nothing beyond the
    terminator of the C string, so two arrays that hold the same string give
    the same value. *)
Lemma grab_loop_agree fuel mult : (mult <= 1)%nat -> forall (b1 b2 : list ascii) i tmp L,
  length b1 = length b2 -> (i <= L)%nat -> b1 !! L = Some NUL ->
  (forall j, (j <= L)%nat -> b1 !! j = b2 !! j) ->
  value_of (grab_loop fuel mult b1 i tmp) = value_of (grab_loop fuel mult b2 i tmp).
Proof.
  intros Hmult. induction fuel as [|fuel IH]; intros b1 b2 i tmp L Hlen Hi HL Hag; [done|].
  simpl. unfold rd. rewrite <- (Hag i Hi).
  destruct (b1 !! i) as [c|] eqn:Hc; obind; [|done].
  destruct (Ascii.eqb c NUL) eqn:Hnul; [done|].
  assert (HiL : (i < L)%nat).
  { destruct (decide (i = L)) as [->|]; [|lia].
    rewrite HL in Hc. injection Hc as <-. discriminate. }
  destruct (Ascii.eqb c "."%char) eqn:Hdot.
  - destruct (mult =? 0)%nat eqn:Hm; [done|].
    apply Nat.eqb_neq in Hm. assert (mult = 1%nat) as -> by lia.
    unfold wr. rewrite <- Hlen.
    destruct decide as [Hin|]; obind; [|done].
    unfold grab_tail, rd.
    rewrite !list_lookup_insert_ne by lia. rewrite <- (Hag (S i)) by lia.
    destruct (b1 !! S i) as [d|]; obind; [|done].
    destruct (15 <=? S i)%nat; [done|].
    rewrite !grab_loop_at_nul; [by destruct fuel| |];
      (replace (S (S i)) with (S (i + 1)) by lia; apply list_lookup_insert_eq; lia).
  - unfold grab_tail, rd. rewrite <- (Hag i Hi), Hc. obind.
    destruct (15 <=? i)%nat; [done|].
    apply (IH _ _ _ _ L); auto. 
Qed.

Lemma first_dot_app_nul f tail : first_dot (f ++ NUL :: tail) = first_dot f.
Proof.
  induction f as [|c f IH]; simpl; [done|].
  destruct (Ascii.eqb c NUL); [done|]. destruct (Ascii.eqb c "."%char); [done|].
  by rewrite IH.
Qed.

(** The decoder stays inside the array when the string is terminated inside
    it and, for one fractional digit, the byte it clears is inside it. *)
Lemma grab_loop_defined fuel mult : (mult <= 1)%nat -> forall (b : list ascii) i tmp L,
  (i <= L)%nat -> b !! L = Some NUL ->
  (mult = 1%nat -> forall p, first_dot (drop i b) = Some p -> (i + p + 2 < length b)%nat) ->
  grab_loop fuel mult b i tmp <> Fault.
Proof.
  intros Hmult. induction fuel as [|fuel IH]; intros b i tmp L Hi HL Hdotfit; [done|].
  assert (HLlen : (L < length b)%nat) by (apply lookup_lt_is_Some; eauto).
  simpl. unfold rd.
  destruct (b !! i) as [c|] eqn:Hc; obind.
  2:{ apply lookup_ge_None in Hc. lia. }
  destruct (Ascii.eqb c NUL) eqn:Hnul; [done|].
  assert (HiL : (i < L)%nat).
  { destruct (decide (i = L)) as [->|]; [|lia].
    rewrite HL in Hc. injection Hc as <-. discriminate. }
  assert (Hdrop : drop i b = c :: drop (S i) b) by (by apply drop_S).
  destruct (Ascii.eqb c "."%char) eqn:Hdot.
  - destruct (mult =? 0)%nat eqn:Hm; [done|].
    apply Nat.eqb_neq in Hm. assert (mult = 1%nat) as -> by lia.
    assert (Hfit : (i + 0 + 2 < length b)%nat).
    { apply Hdotfit; [done|]. rewrite Hdrop. simpl. by rewrite Hnul, Hdot. }
    unfold wr. destruct decide as [Hin|]; obind; [|lia].
    unfold grab_tail, rd. rewrite list_lookup_insert_ne by lia.
    destruct (b !! S i) as [d|] eqn:Hd; obind.
    2:{ apply lookup_ge_None in Hd. lia. }
    destruct (15 <=? S i)%nat; [done|].
    rewrite grab_loop_at_nul; [by destruct fuel|].
    replace (S (S i)) with (S (i + 1)) by lia. apply list_lookup_insert_eq; lia.
  - unfold grab_tail, rd. rewrite Hc. obind.
    destruct (15 <=? i)%nat; [done|].
    apply (IH _ _ _ L); auto.
    intros Hm p Hp. specialize (Hdotfit Hm (S p)).
    rewrite Hdrop in Hdotfit. simpl in Hdotfit. rewrite Hnul, Hdot, Hp in Hdotfit.
    specialize (Hdotfit eq_refl). lia.
Qed.

Lemma in_array_eq f :
  (length f <= 15)%nat -> in_array f = f ++ NUL :: repeat NUL (15 - length f).
Proof.
  intros H. unfold in_array, NMEA_BUFFER_SIZE.
  replace (16 - length f)%nat with (S (15 - length f)) by lia. done.
Qed.

Lemma lookup_terminator (f tail : list ascii) : (f ++ NUL :: tail) !! length f = Some NUL.
Proof. by rewrite list_lookup_middle. Qed.

(** In the parser's array the decoder returns the value of the field, whatever
    older bytes lie behind the terminator. *)
Lemma grab_fields_in_array f tail mult :
  (mult <= 1)%nat -> length (f ++ NUL :: tail) = NMEA_BUFFER_SIZE ->
  (mult = 1%nat -> decimal_fits f = true) ->
  exists b', grab_fields (f ++ NUL :: tail) mult = Ret (decode_field f mult, b')
             /\ length b' = NMEA_BUFFER_SIZE.
Proof.
  intros Hmult Hlen Hfit.
  assert (Hf : (length f <= 15)%nat).
  { rewrite length_app in Hlen. simpl in Hlen. unfold NMEA_BUFFER_SIZE in Hlen. lia. }
  destruct (grab_fields (f ++ NUL :: tail) mult) as [[v b']| |] eqn:Hg.
  - exists b'. split.
    + f_equal. f_equal. unfold decode_field.
      assert (Hv : value_of (grab_fields (in_array f) mult) = Ret v).
      { transitivity (value_of (grab_fields (f ++ NUL :: tail) mult)); [|by rewrite Hg].
        symmetry. unfold grab_fields.
        apply (grab_loop_agree _ _ Hmult _ _ _ _ (length f)).
        - rewrite in_array_eq by done. rewrite !length_app. simpl.
          rewrite length_app in Hlen. simpl in Hlen. rewrite repeat_length.
          unfold NMEA_BUFFER_SIZE in Hlen. lia.
        - lia.
        - apply lookup_terminator.
        - intros j Hj. rewrite in_array_eq by done.
          destruct (decide (j = length f)) as [->|].
          + by rewrite !lookup_terminator.
          + rewrite !lookup_app_l by lia. done. }
      destruct (grab_fields (in_array f) mult) as [r| |]; simpl in Hv; try discriminate.
      by injection Hv.
    + apply grab_loop_frame in Hg as (Hl & _). by rewrite Hl.
  - exfalso. revert Hg. apply (grab_loop_defined _ _ Hmult _ _ _ (length f)).
    + lia.
    + apply lookup_terminator.
    + intros -> p Hp. rewrite drop_0, first_dot_app_nul in Hp.
      specialize (Hfit eq_refl). unfold decimal_fits in Hfit. rewrite Hp in Hfit.
      apply Nat.ltb_lt in Hfit. rewrite Hlen. lia.
  - exfalso. by apply grab_fields_budget in Hg.
Qed.

(** Claim C4, as amended.  [grab_fields] is a function of the array and the digit
    count, but it is not free of side effects: it stores NUL bytes in the
    caller's array (one behind each decimal point it passes, [mult] places
    after the byte that follows the point).  Every byte of the array is left
    as it was or cleared; the array is untouched when [mult] is zero or the
    string has no decimal point; and a second call on the array the first
    one left returns the same value and changes nothing more. *)
Theorem grab_fields_effect (src : list ascii) (mult : nat) :
  match grab_fields src mult with
  | Ret (v, src') =>
      length src' = length src
      /\ (forall j, src' !! j = src !! j \/ src' !! j = Some NUL)
      /\ (mult = 0%nat -> src' = src)
      /\ (first_dot src = None -> src' = src)
      /\ grab_fields src' mult = Ret (v, src')
  | Fault => True
  | Timeout => False
  end.
Proof.
  destruct (grab_fields src mult) as [[v src']| |] eqn:E; [|done|].
  - apply grab_loop_frame in E as (Hl & _ & Hor & Hz & Hnd & Hre).
    rewrite drop_0 in Hnd. done.
  - by apply grab_fields_budget in E.
Qed.

Lemma zero_other_digit_step (tmp : Z) (d : ascii) :
  (if is_digit (zero_other d)
   then wrap32 (wrap32 (tmp * 10) + (code (zero_other d) - 48))
   else wrap32 (tmp * 10))
  = (if is_digit d then wrap32 (wrap32 (tmp * 10) + (code d - 48))
     else wrap32 (tmp * 10)).
Proof.
  unfold zero_other. destruct (is_digit d) eqn:Hd; cbn [orb]; [by rewrite Hd|].
  destruct (Ascii.eqb d "."%char); cbn [orb]; [by rewrite Hd|].
  destruct (Ascii.eqb d NUL); [by rewrite Hd|].
  change (is_digit "0") with true. cbn iota. change (code "0" - 48) with 0.
  rewrite Z.add_0_r. unfold wrap32. apply Z.mod_mod. lia.
Qed.

Lemma zero_others_lookup src i : zero_others src !! i = zero_other <$> src !! i.
Proof. apply list_lookup_fmap. Qed.

Lemma zero_others_insert src k :
  <[k:=NUL]> (zero_others src) = zero_others (<[k:=NUL]> src).
Proof. unfold zero_others. by rewrite list_fmap_insert. Qed.

Lemma zero_others_length src : length (zero_others src) = length src.
Proof. apply length_fmap. Qed.

Lemma zero_other_tests c :
  Ascii.eqb (zero_other c) NUL = Ascii.eqb c NUL
  /\ Ascii.eqb (zero_other c) "."%char = Ascii.eqb c "."%char.
Proof.
  unfold zero_other. destruct (is_digit c); cbn [orb]; [done|].
  destruct (Ascii.eqb c "."%char) eqn:Hd; cbn [orb]; [done|].
  destruct (Ascii.eqb c NUL) eqn:Hn; [done|]. done.
Qed.

Lemma grab_loop_zero_others fuel mult : forall src i tmp,
  value_of (grab_loop fuel mult (zero_others src) i tmp)
  = value_of (grab_loop fuel mult src i tmp).
Proof.
  induction fuel as [|fuel IH]; intros src i tmp; [done|].
  assert (Htail : forall s j,
            value_of (grab_tail (grab_loop fuel mult) (zero_others s) j tmp)
            = value_of (grab_tail (grab_loop fuel mult) s j tmp)).
  { intros s j. unfold grab_tail, rd. rewrite zero_others_lookup.
    destruct (s !! j) as [d|]; cbn [fmap option_fmap option_map]; obind; [|done].
    destruct (15 <=? j)%nat; [done|].
    rewrite zero_other_digit_step. apply IH. }
  cbn [grab_loop]. unfold rd. rewrite zero_others_lookup.
  destruct (src !! i) as [c|]; cbn [fmap option_fmap option_map]; obind; [|done].
  destruct (zero_other_tests c) as [-> ->].
  destruct (Ascii.eqb c NUL); [done|].
  destruct (Ascii.eqb c "."%char); [|apply Htail].
  destruct (mult =? 0)%nat; [done|].
  unfold wr. rewrite zero_others_length.
  destruct decide; obind; [|done].
  rewrite zero_others_insert. apply Htail.
Qed.

(** Claim C5, as amended.  A byte that is neither a digit nor a decimal point is not
    skipped: it takes a decimal place like a digit zero (the accumulator is
    multiplied by ten and nothing is added).  The decoder's result is the
    result of decoding the same array with every such byte replaced by
    ['0']. *)
Theorem grab_fields_other_bytes (src : list ascii) (mult : nat) :
  value_of (grab_fields (zero_others src) mult) = value_of (grab_fields src mult).
Proof. apply grab_loop_zero_others. Qed.

Lemma grab_loop_long fuel mult (pre rest : list ascii) : forall i tmp,
  length pre = 16%nat ->
  Forall (fun c => c <> NUL /\ c <> "."%char) pre ->
  (i <= 15)%nat -> (16 <= fuel + i)%nat ->
  value_of (grab_loop fuel mult (pre ++ rest) i tmp) = Ret 0.
Proof.
  revert fuel. induction fuel as [|fuel IH]; intros i tmp Hlen Hpre Hi Hf; [lia|].
  destruct (lookup_lt_is_Some_2 pre i) as [c Hc]; [lia|].
  assert (Hcc : c <> NUL /\ c <> "."%char).
  { rewrite Forall_forall in Hpre. apply Hpre. by eapply list_elem_of_lookup_2. }
  destruct Hcc as [Hn Hd]. apply Ascii.eqb_neq in Hn, Hd.
  simpl. unfold rd. rewrite (lookup_app_l_Some _ _ _ _ Hc). obind.
  rewrite Hn, Hd. unfold grab_tail, rd. rewrite (lookup_app_l_Some _ _ _ _ Hc). obind.
  destruct (15 <=? i)%nat eqn:Hb; [done|].
  apply Nat.leb_gt in Hb. apply IH; auto; lia.
Qed.

Lemma is_digit_plain c : is_digit c = true -> c <> NUL /\ c <> "."%char.
Proof. intros H. split; intros ->; discriminate. Qed.

(** Once the scan has to pass index 15 the decoder gives up: if the array it
    leaves has no terminator among its first 16 bytes and the scan did not
    stop at a decimal point, the value is 0. *)
Lemma grab_loop_gives_up fuel mult : forall src i tmp v src',
  (i <= 15)%nat ->
  grab_loop fuel mult src i tmp = Ret (v, src') ->
  (forall j, (i <= j <= 15)%nat -> src' !! j <> Some NUL) ->
  (mult = 0%nat -> first_dot (drop i src) = None) ->
  v = 0.
Proof.
  induction fuel as [|fuel IH]; intros src i tmp v src' Hi H Hnn Hnd; [discriminate|].
  simpl in H. unfold rd in H.
  destruct (src !! i) as [c|] eqn:Hc; simpl in H; [|discriminate].
  rewrite (first_dot_drop _ _ _ Hc) in Hnd.
  destruct (Ascii.eqb c NUL) eqn:Hnul.
  { injection H as <- <-. apply Ascii.eqb_eq in Hnul. subst c.
    exfalso. apply (Hnn i); [lia|done]. }
  destruct (Ascii.eqb c "."%char) eqn:Hdot.
  - destruct (mult =? 0)%nat eqn:Hm.
    { apply Nat.eqb_eq in Hm. by specialize (Hnd Hm). }
    unfold wr in H. destruct decide; simpl in H; [|discriminate].
    unfold grab_tail, rd in H.
    destruct (_ !! S i) as [d|]; simpl in H; [|discriminate].
    destruct (15 <=? S i)%nat eqn:Hb; [by injection H as <- <-|].
    apply Nat.leb_gt in Hb.
    apply IH in H; [done|lia| |].
    + intros j Hj. apply Hnn. lia.
    + intros ->. done.
  - unfold grab_tail, rd in H. rewrite Hc in H. simpl in H.
    destruct (15 <=? i)%nat eqn:Hb; [by injection H as <- <-|].
    apply Nat.leb_gt in Hb.
    apply IH in H; [done|lia| |].
    + intros j Hj. apply Hnn. lia.
    + intros Hm. specialize (Hnd Hm). by destruct (first_dot (drop (S i) src)).
Qed.

(** Claim C6.  The documented input/output pairs of the decoder; with zero
    fractional digits nothing behind the decimal point is looked at; a
    string of sixteen or more digits decodes to zero; and so does every
    string whose scan has to pass its sixteenth byte. *)
Theorem grab_fields_examples :
  value_of (grab_fields (lit "1234.56") 2) = Ret 123456
  /\ value_of (grab_fields (lit "1234.56") 0) = Ret 1234
  /\ (forall rest, grab_fields (chars "1234." ++ rest) 0
                   = Ret (1234, chars "1234." ++ rest))
  /\ value_of (grab_fields (lit "00.0") 1) = Ret 0
  /\ (forall (ds rest : list ascii) (mult : nat),
        Forall (fun c => is_digit c = true) ds -> (16 <= length ds)%nat ->
        value_of (grab_fields (ds ++ rest) mult) = Ret 0)
  /\ (forall (src : list ascii) (mult : nat) (v : Z) (src' : list ascii),
        grab_fields src mult = Ret (v, src') ->
        (forall j, (j <= 15)%nat -> src' !! j <> Some NUL) ->
        (mult = 0%nat -> first_dot src = None) ->
        v = 0).
Proof.
  split; [reflexivity|]. split; [reflexivity|]. split; [reflexivity|].
  split; [reflexivity|]. split.
  - intros ds rest mult Hds Hlen.
    rewrite <- (take_drop 16 ds), <- app_assoc.
    apply grab_loop_long; [|  |lia|lia].
    + rewrite length_take. lia.
    + apply Forall_take. eapply Forall_impl; [exact Hds|].
      intros c Hc. by apply is_digit_plain.
  - intros src mult v src' H Hnn Hnd.
    apply (grab_loop_gives_up _ _ _ _ _ _ _ (Nat.le_0_l 15) H).
    + intros j Hj. apply Hnn. lia.
    + by rewrite drop_0.
Qed.

(** ** The sentence parser on well-formed input *)

Section ParserFacts.

Variable GPS_coord_to_degrees : list ascii -> Z.
Variable gpsConstrainHDOP : Z -> Z.
Variable gpsConstrainEPE : Z -> Z.
Variable GPS_HDOP_TO_EPH_MULTIPLIER : Z.

#[local] Abbreviation step := (gpsNewFrameNMEA GPS_coord_to_degrees gpsConstrainHDOP
                    gpsConstrainEPE GPS_HDOP_TO_EPH_MULTIPLIER).
#[local] Abbreviation run := (feed GPS_coord_to_degrees gpsConstrainHDOP
                   gpsConstrainEPE GPS_HDOP_TO_EPH_MULTIPLIER).
#[local] Abbreviation on_sep := (on_separator GPS_coord_to_degrees).
#[local] Abbreviation on_eol := (on_line_end gpsConstrainHDOP gpsConstrainEPE
                      GPS_HDOP_TO_EPH_MULTIPLIER).

Lemma special_false c :
  special c = false ->
  Ascii.eqb c "$"%char = false /\ Ascii.eqb c ","%char = false
  /\ Ascii.eqb c "*"%char = false /\ Ascii.eqb c CR = false
  /\ Ascii.eqb c LF = false.
Proof.
  unfold special. intros H.
  repeat (apply orb_false_elim in H as [H ?]). auto.
Qed.

Lemma step_plain c w : special c = false -> step c w = on_other c w.
Proof.
  intros H. apply special_false in H as (H1 & H2 & H3 & H4 & H5).
  unfold gpsNewFrameNMEA. by rewrite H1, H2, H3, H4, H5.
Qed.

Lemma run_app a b w :
  run (a ++ b) w
  = r ← run a w; r' ← run b r.2; Ret (r.1 ++ r'.1, r'.2).
Proof.
  revert w. induction a as [|c a IH]; intros w; simpl.
  - destruct (run b w) as [[l w']| |]; done.
  - destruct (step c w) as [[ok w1]| |]; obind; [|done..].
    rewrite IH. cbn [snd fst].
    destruct (run a w1) as [[l w2]| |]; obind; [|done..].
    cbn [snd fst]. destruct (run b w2) as [[l' w3]| |]; obind; done.
Qed.

Lemma field_ok_plain f : field_ok f = true -> Forall (fun c => special c = false) f.
Proof.
  unfold field_ok. intros H. apply andb_true_iff in H as [H _].
  apply Forall_forall. intros c Hc. rewrite forallb_forall in H.
  apply list_elem_of_In in Hc. apply H in Hc. by apply negb_true_iff.
Qed.

Lemma field_ok_length f : field_ok f = true -> (length f <= 15)%nat.
Proof.
  unfold field_ok. intros H. apply andb_true_iff in H as [_ H].
  by apply Nat.leb_le.
Qed.

(** Ordinary bytes are appended at the cursor and folded into the running
    exclusive-or unless the checksum is being captured. *)
Lemma run_plain f : forall m p par pre rest cp fr sol st,
  Forall (fun c => special c = false) f ->
  (length pre + length f <= 15)%nat -> (length f <= length rest)%nat ->
  run f (mkWorld m p (length pre) par (pre ++ rest) cp fr sol st)
  = Ret (repeat false (length f),
         mkWorld m p (length pre + length f)
                 (if cp then par else xor_bytes f par)
                 (pre ++ f ++ drop (length f) rest) cp fr sol st).
Proof.
  induction f as [|c f IH]; intros m p par pre rest cp fr sol st Hpl Hlen Hrest.
  - simpl. rewrite Nat.add_0_r. by destruct cp.
  - apply Forall_cons in Hpl as [Hc Hpl]. simpl in Hlen, Hrest.
    destruct rest as [|x rest]; [simpl in Hrest; lia|]. simpl in Hrest.
    cbn [feed]. rewrite step_plain by done. unfold on_other. cbn [offset str].
    assert ((length pre <? NMEA_BUFFER_SIZE - 1)%nat = true) as ->.
    { apply Nat.ltb_lt. unfold NMEA_BUFFER_SIZE. lia. }
    rewrite wr_in_range by (rewrite length_app; simpl; lia). obind.
    cbn [snd fst checksum_param parity gps_Msg param gps_frame gpsSol gpsStats].
    replace (<[length pre:=c]> (pre ++ x :: rest)) with ((pre ++ [c]) ++ rest).
    2:{ rewrite <- (Nat.add_0_r (length pre)) at 1. rewrite insert_app_r. simpl.
        by rewrite <- app_assoc. }
    replace (S (length pre)) with (length (pre ++ [c])) by (rewrite length_app; simpl; lia).
    rewrite IH; [|done|rewrite length_app; simpl; lia|lia]. obind. cbn [fst snd].
    f_equal. f_equal.
    rewrite length_app. simpl. rewrite <- app_assoc. simpl.
    replace (length pre + 1 + length f)%nat with (length pre + S (length f))%nat by lia.
    by destruct cp.
Qed.



Lemma cstr_app_nul f tail : cstr (f ++ NUL :: tail) = cstr f.
Proof.
  induction f as [|c f IH]; simpl; [done|].
  destruct (Ascii.eqb c NUL); [done|]. by rewrite IH.
Qed.

Lemma lookup_first (f tail : list ascii) : (f ++ NUL :: tail) !! 0%nat = Some (hd NUL f).
Proof. by destruct f. Qed.

Lemma in_array_length f : (length f <= 15)%nat -> length (in_array f) = NMEA_BUFFER_SIZE.
Proof.
  intros H. unfold in_array. rewrite length_app, repeat_length.
  unfold NMEA_BUFFER_SIZE. lia.
Qed.

(** A dispatched field changes the pending record the same way whatever older
    bytes lie behind its terminator, and leaves a 16-byte array. *)
Lemma parse_field_in_array frame p f tail m :
  length (f ++ NUL :: tail) = NMEA_BUFFER_SIZE ->
  (decodes_fraction frame p = true -> decimal_fits f = true) ->
  exists b', parse_field GPS_coord_to_degrees frame p (f ++ NUL :: tail) m
             = Ret (pend GPS_coord_to_degrees frame p f m, b')
             /\ length b' = NMEA_BUFFER_SIZE.
Proof.
  intros Hlen Hfit.
  assert (Hf : (length f <= 15)%nat).
  { rewrite length_app in Hlen. simpl in Hlen. unfold NMEA_BUFFER_SIZE in Hlen. lia. }
  assert (Hin : length (f ++ NUL :: repeat NUL (15 - length f)) = NMEA_BUFFER_SIZE).
  { rewrite <- in_array_eq by done. by apply in_array_length. }
  assert (Hgrab : forall mult, (mult <= 1)%nat -> (mult = 1%nat -> decimal_fits f = true) ->
            exists b1 b2,
              grab_fields (f ++ NUL :: tail) mult = Ret (decode_field f mult, b1)
              /\ grab_fields (f ++ NUL :: repeat NUL (15 - length f)) mult
                 = Ret (decode_field f mult, b2)
              /\ length b1 = NMEA_BUFFER_SIZE).
  { intros mult Hm Hd.
    destruct (grab_fields_in_array f tail mult Hm Hlen Hd) as (b1 & E1 & L1).
    destruct (grab_fields_in_array f _ mult Hm Hin Hd) as (b2 & E2 & L2).
    by exists b1, b2. }
  unfold pend. rewrite in_array_eq by done.
  assert (Hdef : exists b', Ret (m, f ++ NUL :: tail) = Ret (m, b')
                        /\ length b' = NMEA_BUFFER_SIZE) by (by eexists).
  destruct frame; [exact Hdef| |];
    (destruct p as [|p|p]; [exact Hdef| |exact Hdef];
     do 4 (try destruct p as [p|p|]); try exact Hdef; cbn [parse_field];
     first
       [ rewrite !cstr_app_nul; by eexists
       | unfold rd; rewrite !lookup_first; obind; by eexists
       | destruct (Hgrab 0%nat) as (b1 & b2 & E1 & E2 & L); [lia|done|];
         rewrite E1, E2; obind; by exists b1
       | destruct (Hgrab 1%nat) as (b1 & b2 & E1 & E2 & L); [lia|auto|];
         rewrite E1, E2; obind; by exists b1 ]).
Qed.



(** A separator terminates the field under the cursor, dispatches it and
    moves on to the next field. *)
Lemma step_separator c m p f tail par cp fr sol st :
  is_separator c ->
  length (f ++ tail) = NMEA_BUFFER_SIZE -> (length f <= 15)%nat ->
  (decodes_fraction (frame_after fr p f) p = true -> decimal_fits f = true) ->
  exists b', length b' = NMEA_BUFFER_SIZE
    /\ step c (mkWorld m p (length f) par (f ++ tail) cp fr sol st)
       = Ret (false,
              mkWorld (pend GPS_coord_to_degrees (frame_after fr p f) p f m)
                      (wrap8 (p + 1)) 0%nat
                      (if Ascii.eqb c "*"%char then par else Z.lxor par (code c))
                      b'
                      (if Ascii.eqb c "*"%char then true else cp)
                      (frame_after fr p f) sol st).
Proof.
  intros Hc Hlen Hf Hfit.
  destruct tail as [|x tail].
  { rewrite app_nil_r in Hlen. unfold NMEA_BUFFER_SIZE in Hlen. lia. }
  assert (Hstep : step c (mkWorld m p (length f) par (f ++ x :: tail) cp fr sol st)
                  = on_sep c (mkWorld m p (length f) par (f ++ x :: tail) cp fr sol st)).
  { unfold gpsNewFrameNMEA. by destruct Hc as [-> | ->]. }
  rewrite Hstep. unfold on_separator. cbn [str offset param gps_Msg gps_frame].
  rewrite wr_in_range by (rewrite length_app; simpl; lia). obind.
  replace (<[length f:=NUL]> (f ++ x :: tail)) with (f ++ NUL :: tail).
  2:{ rewrite <- (Nat.add_0_r (length f)) at 1. by rewrite insert_app_r. }
  rewrite cstr_app_nul. fold (frame_after fr p f).
  destruct (parse_field_in_array (frame_after fr p f) p f tail m) as (b' & E & L).
  { rewrite length_app in *. simpl in *. lia. }
  { done. }
  rewrite E. obind. exists b'. split; [done|]. done.
Qed.

Lemma xor_bytes_app a b acc : xor_bytes (a ++ b) acc = xor_bytes b (xor_bytes a acc).
Proof. unfold xor_bytes. apply fold_left_app. Qed.

Lemma repeat_false_app (a b : nat) :
  repeat false a ++ repeat false b = repeat false (a + b).
Proof. symmetry. apply repeat_app. Qed.

(** From a state whose cursor stands behind the field [cur], the remaining
    fields and the ['*'] are consumed without a signal; what is left is the
    accumulated tag, field number, pending record and exclusive-or. *)
Lemma run_fields args : forall cur m p tail par cp fr sol st,
  length (cur ++ tail) = NMEA_BUFFER_SIZE -> field_ok cur = true ->
  Forall (fun f => field_ok f = true) args ->
  fields_safe (cur :: args) fr p = true ->
  exists b', length b' = NMEA_BUFFER_SIZE
    /\ run (rest_bytes args ++ ["*"%char])
           (mkWorld m p (length cur) par (cur ++ tail) cp fr sol st)
       = Ret (repeat false (length (rest_bytes args) + 1),
              let r := fields_effect GPS_coord_to_degrees (cur :: args) fr p m in
              mkWorld r.2 r.1.2 0%nat (fields_parity cp args par) b' true
                      r.1.1 sol st).
Proof.
  induction args as [|a args IH];
    intros cur m p tail par cp fr sol st Hlen Hcur Hargs Hsafe.
  - cbn [fields_safe] in Hsafe. apply andb_true_iff in Hsafe as [Hs _].
    destruct (step_separator "*"%char m p cur tail par cp fr sol st)
      as (b' & L & E); [by right|done|by apply field_ok_length| |].
    { intros Hd. by rewrite Hd in Hs. }
    change (Ascii.eqb "*" "*") with true in E. cbn iota in E.
    exists b'. split; [done|]. cbn [rest_bytes map concat app feed].
    rewrite E. obind. done.
  - cbn [fields_safe] in Hsafe. apply andb_true_iff in Hsafe as [Hs Hsafe].
    apply Forall_cons in Hargs as [Ha Hargs].
    destruct (step_separator ","%char m p cur tail par cp fr sol st)
      as (b1 & L1 & E1); [by left|done|by apply field_ok_length| |].
    { intros Hd. by rewrite Hd in Hs. }
    change (Ascii.eqb "," "*") with false in E1. cbn iota in E1.
    pose (tail1 := drop (length a) b1).
    assert (Ltail1 : length (a ++ tail1) = NMEA_BUFFER_SIZE).
    { unfold tail1. rewrite length_app, length_drop. apply field_ok_length in Ha.
      unfold NMEA_BUFFER_SIZE in *. lia. }
    set (fr1 := frame_after fr p cur) in *.
    set (m1 := pend GPS_coord_to_degrees fr1 p cur m) in *.
    set (par1 := if cp then Z.lxor par (code ","%char)
                 else xor_bytes a (Z.lxor par (code ","%char))).
    specialize (IH a m1 (wrap8 (p + 1)) tail1 par1 cp fr1 sol st Ltail1 Ha Hargs Hsafe)
      as (b' & L & E).
    exists b'. split; [done|].
    cbn [rest_bytes map concat]. fold (rest_bytes args).
    change (("," :: a)%char ++ rest_bytes args) with (","%char :: (a ++ rest_bytes args)).
    cbn [app feed]. rewrite E1. obind. cbn [fst snd].
    rewrite <- app_assoc, run_app.
    assert (Hfeed : run a (mkWorld m1 (wrap8 (p + 1)) 0%nat (Z.lxor par (code ","%char))
                              b1 cp fr1 sol st)
                    = Ret (repeat false (length a),
                           mkWorld m1 (wrap8 (p + 1)) (length a) par1
                                   (a ++ tail1) cp fr1 sol st)).
    { assert (Hb1len : (length a <= length b1)%nat).
      { apply field_ok_length in Ha. unfold NMEA_BUFFER_SIZE in L1. lia. }
      pose proof (run_plain a m1 (wrap8 (p + 1)) (Z.lxor par (code ","%char)) [] b1
                    cp fr1 sol st (field_ok_plain a Ha)) as R.
      cbn [length app Nat.add] in R. rewrite R; [done| |done].
      apply field_ok_length in Ha. lia. }
    rewrite Hfeed. obind. cbn [fst snd]. rewrite E. obind. cbn [fst snd].
    f_equal. f_equal.
    cbn [length]. rewrite length_app. rewrite repeat_false_app.
    change (false :: repeat false (length a + (length (rest_bytes args) + 1)))
      with (repeat false (S (length a + (length (rest_bytes args) + 1)))).
    f_equal. lia.
Qed.

Lemma fields_parity_false args : forall par,
  fields_parity false args par = xor_bytes (rest_bytes args) par.
Proof.
  induction args as [|a args IH]; intros par; [done|].
  cbn [fields_parity rest_bytes map concat]. fold (rest_bytes args).
  change (("," :: a)%char ++ rest_bytes args) with ([","%char] ++ a ++ rest_bytes args).
  by rewrite IH, !xor_bytes_app.
Qed.

Lemma seen_checksum_false ident args :
  seen_checksum false ident args = nmea_checksum ident args.
Proof.
  unfold seen_checksum, nmea_checksum, body.
  by rewrite fields_parity_false, xor_bytes_app.
Qed.

(** In checksum-capture mode only the commas of a sentence are folded in, so
    the value compared with the digits is ['\,'] for an odd number of commas
    and 0 for an even one. *)
Lemma seen_checksum_true ident args :
  seen_checksum true ident args = if Nat.odd (length args) then code ","%char else 0.
Proof.
  unfold seen_checksum.
  assert (H : forall par, par = 0 \/ par = code ","%char ->
            fields_parity true args par
            = if Nat.odd (length args) then Z.lxor par (code ","%char) else par).
  { induction args as [|a args IH]; intros par Hpar; [done|].
    cbn [fields_parity length]. rewrite Nat.odd_succ, <- Nat.negb_odd.
    rewrite IH by (destruct Hpar as [-> | ->]; [by right|by left]).
    destruct (Nat.odd (length args)); cbn [negb]; [|done].
    by destruct Hpar as [-> | ->]. }
  rewrite H by (by left). done.
Qed.



Lemma hexval_hex_digit n : 0 <= n < 16 -> hexval (hex_digit n) = n.
Proof.
  intros H. rewrite <- (Z2Nat.id n) by lia.
  assert (Hk : (Z.to_nat n < 16)%nat) by lia.
  revert Hk. generalize (Z.to_nat n). intros k Hk.
  do 16 (destruct k as [|k]; [reflexivity|]). lia.
Qed.

Lemma special_hex_digit n : 0 <= n < 16 -> special (hex_digit n) = false.
Proof.
  intros H. rewrite <- (Z2Nat.id n) by lia.
  assert (Hk : (Z.to_nat n < 16)%nat) by lia.
  revert Hk. generalize (Z.to_nat n). intros k Hk.
  do 16 (destruct k as [|k]; [reflexivity|]). lia.
Qed.

Lemma hex_pair cks :
  0 <= cks < 256 ->
  wrap8 (16 * hexval (hex_digit (cks / 16)) + hexval (hex_digit (cks mod 16))) = cks.
Proof.
  intros H.
  assert (0 <= cks / 16 < 16) by (split; [apply Z.div_pos|apply Z.div_lt_upper_bound]; lia).
  assert (0 <= cks mod 16 < 16) by (apply Z.mod_pos_bound; lia).
  rewrite !hexval_hex_digit by done.
  rewrite <- Z.div_mod by lia. unfold wrap8. apply Z.mod_small. lia.
Qed.

Lemma fields_effect_start ident args fr m :
  fields_effect GPS_coord_to_degrees (ident :: args) fr 0 m
  = fields_effect GPS_coord_to_degrees (ident :: args) NO_FRAME 0 m.
Proof. reflexivity. Qed.

Lemma fields_safe_start ident args fr :
  fields_safe (ident :: args) fr 0 = fields_safe (ident :: args) NO_FRAME 0.
Proof. reflexivity. Qed.

(** A sentence up to and including its two checksum digits: no signal, the
    shared records untouched, the checksum being captured. *)
Lemma run_sentence_head ident args cks m p o par s cp fr sol st :
  length s = NMEA_BUFFER_SIZE ->
  field_ok ident = true -> Forall (fun f => field_ok f = true) args ->
  fields_safe (ident :: args) NO_FRAME 0 = true ->
  0 <= cks < 256 ->
  exists b', length b' = 14%nat
    /\ run (sentence_head ident args cks) (mkWorld m p o par s cp fr sol st)
       = Ret (repeat false (length (sentence_head ident args cks)),
              let r := fields_effect GPS_coord_to_degrees (ident :: args) NO_FRAME 0 m in
              mkWorld r.2 r.1.2 2%nat (seen_checksum cp ident args)
                      (hex_digit (cks / 16) :: hex_digit (cks mod 16) :: b')
                      true r.1.1 sol st).
Proof.
  intros Hs Hid Hargs Hsafe Hcks.
  assert (0 <= cks / 16 < 16) by (split; [apply Z.div_pos|apply Z.div_lt_upper_bound]; lia).
  assert (0 <= cks mod 16 < 16) by (apply Z.mod_pos_bound; lia).
  pose proof (field_ok_length _ Hid) as Hidlen.
  unfold sentence_head, body.
  change ("$"%char :: (ident ++ rest_bytes args) ++ "*"%char :: hex_digit (cks / 16)
            :: [hex_digit (cks mod 16)])
    with (["$"%char] ++ ((ident ++ rest_bytes args)
            ++ ["*"%char] ++ [hex_digit (cks / 16); hex_digit (cks mod 16)])).
  rewrite run_app. cbn [feed]. unfold gpsNewFrameNMEA at 1.
  change (Ascii.eqb "$" "$") with true. cbn iota. obind. cbn [fst snd].
  cbn [gps_Msg str checksum_param gps_frame gpsSol gpsStats].
  rewrite <- app_assoc, run_app.
  pose proof (run_plain ident m 0 0 [] s cp fr sol st (field_ok_plain _ Hid)) as R.
  cbn [length app Nat.add] in R. rewrite R; [|lia|unfold NMEA_BUFFER_SIZE in Hs; lia].
  clear R. obind. cbn [fst snd].
  rewrite (app_assoc (rest_bytes args)), run_app.
  destruct (run_fields args ident m 0 (drop (length ident) s)
              (if cp then 0 else xor_bytes ident 0) cp fr sol st)
    as (b1 & L1 & E1); [|done|done| |].
  { rewrite length_app, length_drop. unfold NMEA_BUFFER_SIZE in *. lia. }
  { by rewrite fields_safe_start. }
  rewrite fields_effect_start in E1.
  cbv zeta in E1. rewrite E1. obind. cbn [fst snd]. clear E1.
  set (r := fields_effect GPS_coord_to_degrees (ident :: args) NO_FRAME 0 m).
  pose proof (run_plain [hex_digit (cks / 16); hex_digit (cks mod 16)]
                r.2 r.1.2 (fields_parity cp args (if cp then 0 else xor_bytes ident 0))
                [] b1 true r.1.1 sol st) as R.
  cbn [length app Nat.add] in R. rewrite R; clear R.
  - obind. cbn [fst snd]. exists (drop 2 b1). split.
    + rewrite length_drop. unfold NMEA_BUFFER_SIZE in *. lia.
    + f_equal. f_equal.
      * cbn [length]. rewrite !length_app. cbn [length].
        rewrite !repeat_false_app. 
        change (false :: repeat false (length ident + (length (rest_bytes args) + 1 + 2)))
          with (repeat false (S (length ident + (length (rest_bytes args) + 1 + 2)))).
        f_equal; lia.
  - repeat constructor; by apply special_hex_digit.
  - lia.
  - unfold NMEA_BUFFER_SIZE in *. lia.
Qed.

(** The line end closes the sentence: the captured digits are compared with
    the running exclusive-or, and the outcome is counted and committed. *)
Lemma step_line_end_checked c m p o par h1 h2 b fr sol st :
  c = CR \/ c = LF ->
  step c (mkWorld m p o par (h1 :: h2 :: b) true fr sol st)
  = Ret (if wrap8 (16 * hexval h1 + hexval h2) =? par
         then (is_GGA fr,
               mkWorld m p o par (h1 :: h2 :: b) false fr
                       (commit gpsConstrainHDOP gpsConstrainEPE
                               GPS_HDOP_TO_EPH_MULTIPLIER fr m sol)
                       (count_packet st))
         else (false,
               mkWorld m p o par (h1 :: h2 :: b) false fr sol (count_error st))).
Proof.
  intros Hc.
  assert (step c (mkWorld m p o par (h1 :: h2 :: b) true fr sol st)
          = on_eol (mkWorld m p o par (h1 :: h2 :: b) true fr sol st)) as ->.
  { unfold gpsNewFrameNMEA. by destruct Hc as [-> | ->]. }
  unfold on_line_end. cbn [checksum_param str rd lookup list_lookup]. obind.
  cbn [parity gps_frame gps_Msg param offset gpsSol gpsStats].
  destruct (_ =? _); [|done]. by destruct fr.
Qed.

Lemma step_line_end_idle c m p o par s fr sol st :
  c = CR \/ c = LF ->
  step c (mkWorld m p o par s false fr sol st)
  = Ret (false, mkWorld m p o par s false fr sol st).
Proof.
  intros Hc. unfold gpsNewFrameNMEA. by destruct Hc as [-> | ->].
Qed.

Lemma sentence_split ident args cks :
  sentence ident args cks = sentence_head ident args cks ++ [CR; LF].
Proof.
  unfold sentence, sentence_head. cbn [app]. f_equal.
  rewrite <- app_assoc. done.
Qed.

(** A whole sentence, for any identifier and any number of fields. *)
Lemma run_sentence ident args cks m p o par s cp fr sol st :
  length s = NMEA_BUFFER_SIZE ->
  field_ok ident = true -> Forall (fun f => field_ok f = true) args ->
  fields_safe (ident :: args) NO_FRAME 0 = true ->
  0 <= cks < 256 ->
  let r := fields_effect GPS_coord_to_degrees (ident :: args) NO_FRAME 0 m in
  exists b, length b = NMEA_BUFFER_SIZE
    /\ run (sentence ident args cks) (mkWorld m p o par s cp fr sol st)
       = Ret (repeat false (length (sentence_head ident args cks))
                ++ [(cks =? seen_checksum cp ident args) && is_GGA r.1.1; false],
              mkWorld r.2 r.1.2 2%nat (seen_checksum cp ident args) b false r.1.1
                      (if cks =? seen_checksum cp ident args
                       then commit gpsConstrainHDOP gpsConstrainEPE
                                   GPS_HDOP_TO_EPH_MULTIPLIER r.1.1 r.2 sol
                       else sol)
                      (if cks =? seen_checksum cp ident args
                       then count_packet st else count_error st)).
Proof.
  intros Hs Hid Hargs Hsafe Hcks r.
  destruct (run_sentence_head ident args cks m p o par s cp fr sol st)
    as (b' & L & E); try done.
  exists (hex_digit (cks / 16) :: hex_digit (cks mod 16) :: b'). split.
  { cbn [length]. rewrite L. done. }
  rewrite sentence_split, run_app, E. obind. cbn [fst snd]. fold r.
  cbn [feed]. rewrite step_line_end_checked by (by left).
  rewrite hex_pair by done.
  destruct (cks =? seen_checksum cp ident args); obind; cbn [fst snd];
    rewrite step_line_end_idle by (by right); obind; cbn [fst snd];
    rewrite ?andb_false_l, ?andb_true_l; done.
Qed.



(** *** The pending record, field by field *)

Lemma pend_GGA_coord_lat f m :
  (length f <= 15)%nat ->
  pend GPS_coord_to_degrees FRAME_GGA 2 f m
  = set_latitude (to_int32 (GPS_coord_to_degrees (cstr f))) m.
Proof.
  intros H. unfold pend. rewrite in_array_eq by done. cbn [parse_field].
  by rewrite cstr_app_nul.
Qed.

Lemma pend_GGA_coord_lon f m :
  (length f <= 15)%nat ->
  pend GPS_coord_to_degrees FRAME_GGA 4 f m
  = set_longitude (to_int32 (GPS_coord_to_degrees (cstr f))) m.
Proof.
  intros H. unfold pend. rewrite in_array_eq by done. cbn [parse_field].
  by rewrite cstr_app_nul.
Qed.

Lemma pend_GGA_south f m :
  (length f <= 15)%nat ->
  pend GPS_coord_to_degrees FRAME_GGA 3 f m
  = if Ascii.eqb (hd NUL f) "S"%char
    then set_latitude (to_int32 (latitude m * -1)) m else m.
Proof.
  intros H. unfold pend. rewrite in_array_eq by done. cbn [parse_field].
  unfold rd. by rewrite lookup_first.
Qed.

Lemma pend_GGA_west f m :
  (length f <= 15)%nat ->
  pend GPS_coord_to_degrees FRAME_GGA 5 f m
  = if Ascii.eqb (hd NUL f) "W"%char
    then set_longitude (to_int32 (longitude m * -1)) m else m.
Proof.
  intros H. unfold pend. rewrite in_array_eq by done. cbn [parse_field].
  unfold rd. by rewrite lookup_first.
Qed.

Lemma pend_GGA_fix f m :
  (length f <= 15)%nat ->
  pend GPS_coord_to_degrees FRAME_GGA 6 f m = set_fix (gga_fix f) m.
Proof.
  intros H. unfold pend. rewrite in_array_eq by done. cbn [parse_field].
  unfold rd. by rewrite lookup_first.
Qed.

Lemma grab_fields_field f mult :
  (length f <= 15)%nat -> (mult <= 1)%nat -> (mult = 1%nat -> decimal_fits f = true) ->
  exists b, grab_fields (f ++ NUL :: repeat NUL (15 - length f)) mult
            = Ret (decode_field f mult, b).
Proof.
  intros Hf Hm Hd.
  destruct (grab_fields_in_array f (repeat NUL (15 - length f)) mult) as (b & E & _);
    try done.
  - rewrite <- in_array_eq by done. by apply in_array_length.
  - by exists b.
Qed.

Lemma pend_GGA_numSat f m :
  (length f <= 15)%nat ->
  pend GPS_coord_to_degrees FRAME_GGA 7 f m = set_numSat (gga_numSat f) m.
Proof.
  intros H. unfold pend. rewrite in_array_eq by done. cbn [parse_field].
  destruct (grab_fields_field f 0) as (b & ->); [done|lia|done|]. done.
Qed.

Lemma pend_GGA_hdop f m :
  (length f <= 15)%nat -> decimal_fits f = true ->
  pend GPS_coord_to_degrees FRAME_GGA 8 f m = set_hdop (gga_hdop f) m.
Proof.
  intros H Hd. unfold pend. rewrite in_array_eq by done. cbn [parse_field].
  destruct (grab_fields_field f 1) as (b & ->); [done|lia|done|]. done.
Qed.

Lemma pend_GGA_altitude f m :
  (length f <= 15)%nat -> decimal_fits f = true ->
  pend GPS_coord_to_degrees FRAME_GGA 9 f m = set_altitude (gga_altitude f) m.
Proof.
  intros H Hd. unfold pend. rewrite in_array_eq by done. cbn [parse_field].
  destruct (grab_fields_field f 1) as (b & ->); [done|lia|done|]. done.
Qed.

Lemma pend_RMC_speed f m :
  (length f <= 15)%nat -> decimal_fits f = true ->
  pend GPS_coord_to_degrees FRAME_RMC 7 f m = set_speed (rmc_speed f) m.
Proof.
  intros H Hd. unfold pend. rewrite in_array_eq by done. cbn [parse_field].
  destruct (grab_fields_field f 1) as (b & ->); [done|lia|done|]. done.
Qed.

Lemma pend_RMC_course f m :
  (length f <= 15)%nat -> decimal_fits f = true ->
  pend GPS_coord_to_degrees FRAME_RMC 8 f m = set_ground_course (rmc_course f) m.
Proof.
  intros H Hd. unfold pend. rewrite in_array_eq by done. cbn [parse_field].
  destruct (grab_fields_field f 1) as (b & ->); [done|lia|done|]. done.
Qed.

(** Field numbers without a [case]. *)
Lemma pend_GGA_other p f m :
  p < 2 \/ 9 < p -> pend GPS_coord_to_degrees FRAME_GGA p f m = m.
Proof.
  intros H. unfold pend.
  destruct p as [|p|p]; [done| |done].
  do 4 (try destruct p as [p|p|]); try done; lia.
Qed.

Lemma pend_RMC_other p f m :
  p <> 7 -> p <> 8 -> pend GPS_coord_to_degrees FRAME_RMC p f m = m.
Proof.
  intros H7 H8. unfold pend.
  destruct p as [|p|p]; [done| |done].
  do 4 (try destruct p as [p|p|]); try done; lia.
Qed.

Lemma decodes_fraction_GGA_other p :
  p < 8 \/ 9 < p -> decodes_fraction FRAME_GGA p = false.
Proof.
  intros H. destruct p as [|p|p]; [done| |done].
  do 4 (try destruct p as [p|p|]); try done; lia.
Qed.

Lemma decodes_fraction_RMC_other p :
  p <> 7 -> p <> 8 -> decodes_fraction FRAME_RMC p = false.
Proof.
  intros H7 H8. destruct p as [|p|p]; [done| |done].
  do 4 (try destruct p as [p|p|]); try done; lia.
Qed.

Lemma frame_after_later fr p f : p <> 0 -> frame_after fr p f = fr.
Proof. intros H. unfold frame_after. apply Z.eqb_neq in H. by rewrite H. Qed.

(** Fields behind the last one with a [case] change nothing, as long as the
    8-bit field counter does not come round to zero. *)
Lemma fields_effect_inert fr lo more : forall p m,
  (fr = FRAME_GGA /\ lo = 10) \/ (fr = FRAME_RMC /\ lo = 9) ->
  lo <= p -> p + Z.of_nat (length more) <= 256 ->
  exists p', fields_effect GPS_coord_to_degrees more fr p m = (fr, p', m)
             /\ fields_safe more fr p = true.
Proof.
  induction more as [|f more IH]; intros p m Hfr Hlo Hp.
  - by exists p.
  - cbn [fields_effect fields_safe]. cbn [length] in Hp.
    assert (Hp0 : p <> 0) by (destruct Hfr as [[_ ->]|[_ ->]]; lia).
    rewrite frame_after_later by done.
    assert (pend GPS_coord_to_degrees fr p f m = m) as ->.
    { destruct Hfr as [[-> ->]|[-> ->]];
        [apply pend_GGA_other|apply pend_RMC_other]; lia. }
    assert (decodes_fraction fr p = false) as ->.
    { destruct Hfr as [[-> ->]|[-> ->]];
        [apply decodes_fraction_GGA_other|apply decodes_fraction_RMC_other]; lia. }
    destruct more as [|f' more].
    + by eexists.
    + cbn [length] in Hp.
      assert (wrap8 (p + 1) = p + 1) as ->.
      { unfold wrap8. apply Z.mod_small. destruct Hfr as [[_ ->]|[_ ->]]; lia. }
      destruct (IH (p + 1) m Hfr) as (p' & E & S); [lia|cbn [length]; lia|].
      exists p'. by rewrite E, S.
Qed.


Lemma frame_after_zero fr f : frame_after fr 0 f = identify (cstr f).
Proof. reflexivity. Qed.

Lemma identify_GGA ident : is_GGA_ident ident -> identify (cstr ident) = FRAME_GGA.
Proof. by intros [-> | ->]. Qed.

Lemma identify_RMC ident : is_RMC_ident ident -> identify (cstr ident) = FRAME_RMC.
Proof. by intros [-> | ->]. Qed.

Lemma field_ok_GGA_ident ident : is_GGA_ident ident -> field_ok ident = true.
Proof. by intros [-> | ->]. Qed.

Lemma field_ok_RMC_ident ident : is_RMC_ident ident -> field_ok ident = true.
Proof. by intros [-> | ->]. Qed.

Lemma fields_effect_GGA ident time lat ns lon ew fixq nsat hdop alt more m :
  is_GGA_ident ident ->
  Forall (fun f => field_ok f = true)
         (time :: lat :: ns :: lon :: ew :: fixq :: nsat :: hdop :: alt :: more) ->
  (length more <= 246)%nat ->
  decimal_fits hdop = true -> decimal_fits alt = true ->
  exists p',
    fields_effect GPS_coord_to_degrees
      (ident :: time :: lat :: ns :: lon :: ew :: fixq :: nsat :: hdop :: alt :: more)
      NO_FRAME 0 m
    = (FRAME_GGA, p', gga_pending GPS_coord_to_degrees lat ns lon ew fixq nsat hdop alt m)
    /\ fields_safe
         (ident :: time :: lat :: ns :: lon :: ew :: fixq :: nsat :: hdop :: alt :: more)
         NO_FRAME 0 = true.
Proof.
  intros Hid Hok Hmore Hh Ha.
  repeat (apply Forall_cons in Hok as [?%field_ok_length Hok]).
  destruct (fields_effect_inert FRAME_GGA 10 more 10
              (gga_pending GPS_coord_to_degrees lat ns lon ew fixq nsat hdop alt m)) as (p' & E & S);
    [by left|lia|lia|].
  exists p'. cbn [fields_effect fields_safe].
  rewrite !frame_after_zero, (identify_GGA _ Hid).
  change (wrap8 (0 + 1)) with 1.
  rewrite ?frame_after_later by done.
  change (wrap8 (1 + 1)) with 2. rewrite ?frame_after_later by done.
  change (wrap8 (2 + 1)) with 3. rewrite ?frame_after_later by done.
  change (wrap8 (3 + 1)) with 4. rewrite ?frame_after_later by done.
  change (wrap8 (4 + 1)) with 5. rewrite ?frame_after_later by done.
  change (wrap8 (5 + 1)) with 6. rewrite ?frame_after_later by done.
  change (wrap8 (6 + 1)) with 7. rewrite ?frame_after_later by done.
  change (wrap8 (7 + 1)) with 8. rewrite ?frame_after_later by done.
  change (wrap8 (8 + 1)) with 9. rewrite ?frame_after_later by done.
  change (wrap8 (9 + 1)) with 10.
  rewrite (pend_GGA_other 0), (pend_GGA_other 1) by lia.
  rewrite pend_GGA_coord_lat, pend_GGA_south, pend_GGA_coord_lon, pend_GGA_west,
    pend_GGA_fix, pend_GGA_numSat, pend_GGA_hdop, pend_GGA_altitude by done.
  change (decodes_fraction FRAME_GGA 0) with false.
  change (decodes_fraction FRAME_GGA 1) with false.
  change (decodes_fraction FRAME_GGA 2) with false.
  change (decodes_fraction FRAME_GGA 3) with false.
  change (decodes_fraction FRAME_GGA 4) with false.
  change (decodes_fraction FRAME_GGA 5) with false.
  change (decodes_fraction FRAME_GGA 6) with false.
  change (decodes_fraction FRAME_GGA 7) with false.
  change (decodes_fraction FRAME_GGA 8) with true.
  change (decodes_fraction FRAME_GGA 9) with true.
  cbn iota. rewrite Hh, Ha, S. cbn [andb]. split; [|done].
  rewrite <- E. f_equal.
  unfold gga_pending, gga_coordinate.
  destruct m as [mf mlat mlon mns malt mspd mcrs mh].
  by destruct (Ascii.eqb (hd NUL ns) "S"), (Ascii.eqb (hd NUL ew) "W").
Qed.

Lemma fields_effect_RMC ident a1 a2 a3 a4 a5 a6 spd crs more m :
  is_RMC_ident ident ->
  Forall (fun f => field_ok f = true)
         (a1 :: a2 :: a3 :: a4 :: a5 :: a6 :: spd :: crs :: more) ->
  (length more <= 247)%nat ->
  decimal_fits spd = true -> decimal_fits crs = true ->
  exists p',
    fields_effect GPS_coord_to_degrees
      (ident :: a1 :: a2 :: a3 :: a4 :: a5 :: a6 :: spd :: crs :: more) NO_FRAME 0 m
    = (FRAME_RMC, p', rmc_pending spd crs m)
    /\ fields_safe (ident :: a1 :: a2 :: a3 :: a4 :: a5 :: a6 :: spd :: crs :: more)
         NO_FRAME 0 = true.
Proof.
  intros Hid Hok Hmore Hs Hc.
  repeat (apply Forall_cons in Hok as [?%field_ok_length Hok]).
  destruct (fields_effect_inert FRAME_RMC 9 more 9 (rmc_pending spd crs m))
    as (p' & E & S); [by right|lia|lia|].
  exists p'. cbn [fields_effect fields_safe].
  rewrite !frame_after_zero, (identify_RMC _ Hid).
  change (wrap8 (0 + 1)) with 1.
  rewrite ?frame_after_later by done.
  change (wrap8 (1 + 1)) with 2. rewrite ?frame_after_later by done.
  change (wrap8 (2 + 1)) with 3. rewrite ?frame_after_later by done.
  change (wrap8 (3 + 1)) with 4. rewrite ?frame_after_later by done.
  change (wrap8 (4 + 1)) with 5. rewrite ?frame_after_later by done.
  change (wrap8 (5 + 1)) with 6. rewrite ?frame_after_later by done.
  change (wrap8 (6 + 1)) with 7. rewrite ?frame_after_later by done.
  change (wrap8 (7 + 1)) with 8. rewrite ?frame_after_later by done.
  change (wrap8 (8 + 1)) with 9.
  rewrite (pend_RMC_other 0), (pend_RMC_other 1), (pend_RMC_other 2),
    (pend_RMC_other 3), (pend_RMC_other 4), (pend_RMC_other 5),
    (pend_RMC_other 6) by lia.
  rewrite pend_RMC_speed, pend_RMC_course by done.
  change (decodes_fraction FRAME_RMC 0) with false.
  change (decodes_fraction FRAME_RMC 1) with false.
  change (decodes_fraction FRAME_RMC 2) with false.
  change (decodes_fraction FRAME_RMC 3) with false.
  change (decodes_fraction FRAME_RMC 4) with false.
  change (decodes_fraction FRAME_RMC 5) with false.
  change (decodes_fraction FRAME_RMC 6) with false.
  change (decodes_fraction FRAME_RMC 7) with true.
  change (decodes_fraction FRAME_RMC 8) with true.
  cbn iota. rewrite Hs, Hc, S. cbn [andb]. by split.
Qed.


Lemma code_range c : 0 <= code c < 256.
Proof.
  unfold code. pose proof (N_ascii_bounded c). lia.
Qed.

Lemma lxor_range a b : 0 <= a < 256 -> 0 <= b < 256 -> 0 <= Z.lxor a b < 256.
Proof.
  intros Ha Hb.
  assert (Hn : 0 <= Z.lxor a b) by (apply Z.lxor_nonneg; lia).
  split; [done|].
  destruct (Z.eq_dec (Z.lxor a b) 0) as [->|Hz]; [lia|].
  change 256 with (2 ^ 8). apply Z.log2_lt_pow2; [lia|].
  eapply Z.le_lt_trans; [apply Z.log2_lxor; lia|].
  assert (La : Z.log2 a < 8).
  { destruct (Z.eq_dec a 0) as [->|]; [done|]. apply Z.log2_lt_pow2; lia. }
  assert (Lb : Z.log2 b < 8).
  { destruct (Z.eq_dec b 0) as [->|]; [done|]. apply Z.log2_lt_pow2; lia. }
  lia.
Qed.

Lemma xor_bytes_range l : forall acc, 0 <= acc < 256 -> 0 <= xor_bytes l acc < 256.
Proof.
  induction l as [|c l IH]; intros acc Hacc; [done|].
  cbn [xor_bytes fold_left]. apply IH. apply lxor_range; [done|apply code_range].
Qed.

Lemma nmea_checksum_range ident args : 0 <= nmea_checksum ident args < 256.
Proof. apply xor_bytes_range. lia. Qed.

Lemma repeat_false_snoc2 n b : 
  repeat false n ++ [false; b] = repeat false (S n) ++ [b].
Proof.
  change [false; b] with ([false] ++ [b]). rewrite app_assoc. f_equal.
  change [false] with (repeat false 1). rewrite repeat_false_app. f_equal. lia.
Qed.

(** A fix-data sentence with the right checksum, fed to a parser that is not
    capturing a checksum: the signal is raised at the CR and only there, the
    packet is counted, and the pending record is committed. *)
Lemma run_GGA (w : world) ident time lat ns lon ew fixq nsat hdop alt more :
  length (str w) = NMEA_BUFFER_SIZE -> checksum_param w = false ->
  is_GGA_ident ident ->
  Forall (fun f => field_ok f = true)
         (time :: lat :: ns :: lon :: ew :: fixq :: nsat :: hdop :: alt :: more) ->
  (length more <= 246)%nat ->
  decimal_fits hdop = true -> decimal_fits alt = true ->
  let args := time :: lat :: ns :: lon :: ew :: fixq :: nsat :: hdop :: alt :: more in
  let cks := nmea_checksum ident args in
  let m' := gga_pending GPS_coord_to_degrees lat ns lon ew fixq nsat hdop alt (gps_Msg w) in
  exists w',
    run (sentence ident args cks) w
    = Ret (repeat false (length (sentence_head ident args cks)) ++ [true; false], w')
    /\ gpsSol w' = commit_GGA gpsConstrainHDOP gpsConstrainEPE
                              GPS_HDOP_TO_EPH_MULTIPLIER m' (gpsSol w)
    /\ gpsStats w' = count_packet (gpsStats w)
    /\ gps_Msg w' = m'
    /\ checksum_param w' = false
    /\ length (str w') = NMEA_BUFFER_SIZE.
Proof.
  intros Hs Hcp Hid Hok Hmore Hh Ha args cks m'.
  destruct w as [m p o par s cp fr sol st]. cbn [str checksum_param gps_Msg] in *.
  subst cp.
  destruct (fields_effect_GGA ident time lat ns lon ew fixq nsat hdop alt more m)
    as (p' & E & Hsafe); try done.
  destruct (run_sentence ident args cks m p o par s false fr sol st) as (b & L & R);
    try done.
  { by apply field_ok_GGA_ident. }
  { apply nmea_checksum_range. }
  rewrite seen_checksum_false in R.
  fold args in E. rewrite E in R. cbn [fst snd] in R.
  fold cks in R. rewrite Z.eqb_refl in R. cbn [is_GGA andb commit] in R.
  eexists. split; [exact R|]. by cbn.
Qed.

Lemma run_RMC (w : world) ident a1 a2 a3 a4 a5 a6 spd crs more :
  length (str w) = NMEA_BUFFER_SIZE -> checksum_param w = false ->
  is_RMC_ident ident ->
  Forall (fun f => field_ok f = true)
         (a1 :: a2 :: a3 :: a4 :: a5 :: a6 :: spd :: crs :: more) ->
  (length more <= 247)%nat ->
  decimal_fits spd = true -> decimal_fits crs = true ->
  let args := a1 :: a2 :: a3 :: a4 :: a5 :: a6 :: spd :: crs :: more in
  let cks := nmea_checksum ident args in
  let m' := rmc_pending spd crs (gps_Msg w) in
  exists w',
    run (sentence ident args cks) w
    = Ret (repeat false (length (sentence ident args cks)), w')
    /\ gpsSol w' = commit_RMC m' (gpsSol w)
    /\ gpsStats w' = count_packet (gpsStats w)
    /\ gps_Msg w' = m'
    /\ checksum_param w' = false
    /\ length (str w') = NMEA_BUFFER_SIZE.
Proof.
  intros Hs Hcp Hid Hok Hmore Hsp Hcr args cks m'.
  destruct w as [m p o par s cp fr sol st]. cbn [str checksum_param gps_Msg] in *.
  subst cp.
  destruct (fields_effect_RMC ident a1 a2 a3 a4 a5 a6 spd crs more m)
    as (p' & E & Hsafe); try done.
  destruct (run_sentence ident args cks m p o par s false fr sol st) as (b & L & R);
    try done.
  { by apply field_ok_RMC_ident. }
  { apply nmea_checksum_range. }
  rewrite seen_checksum_false in R.
  fold args in E. rewrite E in R. cbn [fst snd] in R.
  fold cks in R. rewrite Z.eqb_refl in R. cbn [is_GGA andb commit] in R.
  rewrite repeat_false_snoc2 in R.
  change [false] with (repeat false 1) in R. rewrite repeat_false_app in R.
  replace (S (length (sentence_head ident args cks)) + 1)%nat
    with (length (sentence ident args cks)) in R
    by (rewrite sentence_split, length_app; cbn [length]; lia).
  eexists. split; [exact R|]. by cbn.
Qed.



Lemma wrap32_range z : 0 <= wrap32 z < 4294967296.
Proof. unfold wrap32. apply Z.mod_pos_bound. lia. Qed.

Lemma grab_loop_range fuel mult : forall src i tmp v src',
  0 <= tmp < 4294967296 ->
  grab_loop fuel mult src i tmp = Ret (v, src') -> 0 <= v < 4294967296.
Proof.
  induction fuel as [|fuel IH]; intros src i tmp v src' Ht H; [discriminate|].
  simpl in H. unfold rd in H.
  destruct (src !! i) as [c|]; obind; [|discriminate].
  cbn [mbind outcome_bind] in H.
  destruct (Ascii.eqb c NUL); [by injection H as <- <-|].
  assert (Htail : forall s j, grab_tail (grab_loop fuel mult) s j tmp = Ret (v, src') ->
                              0 <= v < 4294967296).
  { intros s j Hg. unfold grab_tail, rd in Hg.
    destruct (s !! j) as [d|]; cbn [mbind outcome_bind] in Hg; [|discriminate].
    destruct (15 <=? j)%nat; [injection Hg as <- <-; lia|].
    apply IH in Hg; [done|]. destruct (is_digit d); apply wrap32_range. }
  destruct (Ascii.eqb c "."%char).
  - destruct (mult =? 0)%nat; [by injection H as <- <-|].
    unfold wr in H. destruct decide; cbn [mbind outcome_bind] in H; [|discriminate].
    by apply Htail in H.
  - by apply Htail in H.
Qed.

Lemma decode_field_range f mult : 0 <= decode_field f mult < 4294967296.
Proof.
  unfold decode_field.
  destruct (grab_fields (in_array f) mult) as [[v b]| |] eqn:E; cbn [fst]; try lia.
  apply grab_loop_range in E; [done|lia].
Qed.


(** Claim C7, as amended.  A recommended-minimum-data sentence with the right
    checksum never raises the frame-ready signal.  As ground speed it commits
    the low 16 bits of the quotient by 1000 of (decoded speed * 5144), the
    product taken in unsigned 32-bit arithmetic: this is the low 16 bits of
    decoded speed * 5144 / 1000 while the decoded speed is at most 834946,
    and the quotient itself while it is at most 12740 (so 1000 gives 5144).
    As ground course it commits the low 16 bits of the decoded course; the
    other fields of [gpsSol] keep their values. *)
Theorem rmc_sentence_commits (w : world)
    (ident a1 a2 a3 a4 a5 a6 spd crs : list ascii) (more : list (list ascii)) :
  length (str w) = NMEA_BUFFER_SIZE -> checksum_param w = false ->
  is_RMC_ident ident ->
  Forall (fun f => field_ok f = true)
         (a1 :: a2 :: a3 :: a4 :: a5 :: a6 :: spd :: crs :: more) ->
  (length more <= 247)%nat ->
  decimal_fits spd = true -> decimal_fits crs = true ->
  let args := a1 :: a2 :: a3 :: a4 :: a5 :: a6 :: spd :: crs :: more in
  let cks := nmea_checksum ident args in
  exists w',
    run (sentence ident args cks) w
    = Ret (repeat false (length (sentence ident args cks)), w')
    /\ groundSpeed (gpsSol w') = wrap16 (wrap32 (decode_field spd 1 * 5144) / 1000)
    /\ (decode_field spd 1 <= 834946 ->
        groundSpeed (gpsSol w') = wrap16 (decode_field spd 1 * 5144 / 1000))
    /\ (decode_field spd 1 <= 12740 ->
        groundSpeed (gpsSol w') = decode_field spd 1 * 5144 / 1000)
    /\ (decode_field spd 1 = 1000 -> groundSpeed (gpsSol w') = 5144)
    /\ groundCourse (gpsSol w') = wrap16 (decode_field crs 1)
    /\ fixType (gpsSol w') = fixType (gpsSol w)
    /\ sol_numSat (gpsSol w') = sol_numSat (gpsSol w)
    /\ llh_lat (gpsSol w') = llh_lat (gpsSol w)
    /\ llh_lon (gpsSol w') = llh_lon (gpsSol w)
    /\ llh_alt (gpsSol w') = llh_alt (gpsSol w)
    /\ packetCount (gpsStats w') = (packetCount (gpsStats w) + 1)%N.
Proof.
  intros Hs Hcp Hid Hok Hmore Hsp Hcr args cks.
  destruct (run_RMC w ident a1 a2 a3 a4 a5 a6 spd crs more)
    as (w' & R & Hsol & Hst & _); try done.
  exists w'. split; [exact R|].
  rewrite Hsol, Hst. cbn.
  assert (Hexact : decode_field spd 1 <= 12740 ->
            rmc_speed spd = decode_field spd 1 * 5144 / 1000).
  { intros Hle. pose proof (decode_field_range spd 1) as Hr.
    unfold rmc_speed, wrap16, wrap32.
    rewrite (Z.mod_small (_ * 5144)) by lia.
    apply Z.mod_small. split; [apply Z.div_pos; lia|].
    apply Z.div_lt_upper_bound; lia. }
  repeat split; try done.
  - intros Hle. pose proof (decode_field_range spd 1) as Hr.
    unfold rmc_speed, wrap32. by rewrite Z.mod_small by lia.
  - intros E. rewrite Hexact by lia. by rewrite E.
Qed.

(** Claim C2, as amended.  A sentence whose fields fit the parser's array and whose
    two checksum digits differ from the exclusive-or of the bytes between
    ['$'] and ['*'], fed to a parser that is not capturing a checksum: the
    error counter goes up by exactly one, the packet counter and every field
    of [gpsSol] keep their values, and no byte raises the frame-ready
    signal. *)
Theorem bad_checksum_discarded (w : world) (ident : list ascii)
    (args : list (list ascii)) (cks : Z) :
  length (str w) = NMEA_BUFFER_SIZE -> checksum_param w = false ->
  Forall (fun f => field_ok f = true) (ident :: args) ->
  fields_safe (ident :: args) NO_FRAME 0 = true ->
  0 <= cks < 256 -> cks <> nmea_checksum ident args ->
  exists w',
    run (sentence ident args cks) w
    = Ret (repeat false (length (sentence ident args cks)), w')
    /\ errors (gpsStats w') = (errors (gpsStats w) + 1)%N
    /\ packetCount (gpsStats w') = packetCount (gpsStats w)
    /\ gpsSol w' = gpsSol w.
Proof.
  intros Hs Hcp Hok Hsafe Hcks Hne.
  apply Forall_cons in Hok as [Hid Hargs].
  destruct w as [m p o par s cp fr sol st]. cbn [str checksum_param] in *.
  subst cp.
  destruct (run_sentence ident args cks m p o par s false fr sol st) as (b & L & R);
    try done.
  rewrite seen_checksum_false in R.
  apply Z.eqb_neq in Hne. rewrite Hne in R. cbn [andb] in R.
  rewrite repeat_false_snoc2 in R.
  change [false] with (repeat false 1) in R. rewrite repeat_false_app in R.
  replace (S (length (sentence_head ident args cks)) + 1)%nat
    with (length (sentence ident args cks)) in R
    by (rewrite sentence_split, length_app; cbn [length]; lia).
  eexists. split; [exact R|]. by cbn.
Qed.



(** What the missing reset costs.  A parser that is still capturing a
    checksum when a sentence starts folds only the commas of that sentence
    into its exclusive-or.  A sentence with the right checksum is then counted
    as an error, without a signal and without a commit, unless its checksum
    happens to be the exclusive-or of its commas. *)
Lemma capture_mode_rejects_sentence (w : world) (ident : list ascii)
    (args : list (list ascii)) :
  length (str w) = NMEA_BUFFER_SIZE -> checksum_param w = true ->
  Forall (fun f => field_ok f = true) (ident :: args) ->
  fields_safe (ident :: args) NO_FRAME 0 = true ->
  nmea_checksum ident args <> (if Nat.odd (length args) then code ","%char else 0) ->
  let s := sentence ident args (nmea_checksum ident args) in
  exists w',
    run s w = Ret (repeat false (length s), w')
    /\ errors (gpsStats w') = (errors (gpsStats w) + 1)%N
    /\ packetCount (gpsStats w') = packetCount (gpsStats w)
    /\ gpsSol w' = gpsSol w
    /\ checksum_param w' = false.
Proof.
  intros Hs Hcp Hok Hsafe Hne s.
  apply Forall_cons in Hok as [Hid Hargs].
  destruct w as [m p o par b cp fr sol st]. cbn [str checksum_param] in *.
  subst cp.
  destruct (run_sentence ident args (nmea_checksum ident args) m p o par b true fr sol st)
    as (b' & L & R); try done.
  { apply nmea_checksum_range. }
  rewrite seen_checksum_true in R.
  apply Z.eqb_neq in Hne. rewrite Hne in R. cbn [andb] in R.
  rewrite repeat_false_snoc2 in R.
  change [false] with (repeat false 1) in R. rewrite repeat_false_app in R.
  replace (S (length (sentence_head ident args (nmea_checksum ident args))) + 1)%nat
    with (length s) in R
    by (unfold s; rewrite sentence_split, length_app; cbn [length]; lia).
  eexists. split; [exact R|]. by cbn.
Qed.

(** *** Invariants of the parser state and resynchronisation *)

Lemma grab_fields_length s mult v s' :
  grab_fields s mult = Ret (v, s') -> length s' = length s.
Proof. intros H. by apply grab_loop_frame in H as (Hl & _). Qed.

Lemma parse_field_length frame p s m m' s' :
  parse_field GPS_coord_to_degrees frame p s m = Ret (m', s') ->
  length s' = length s.
Proof.
  unfold parse_field. intros H.
  destruct frame; [by injection H as <- <-| |];
    (destruct p as [|p|p]; [by injection H as <- <-| |by injection H as <- <-];
     do 4 (try destruct p as [p|p|]); try (by injection H as <- <-);
     first
       [ by injection H as <- <-
       | destruct (rd s 0%nat); cbn [mbind outcome_bind] in H; try discriminate;
         by injection H as <- <-
       | destruct (grab_fields s _) as [[v b]| |] eqn:E;
         cbn [mbind outcome_bind] in H; try discriminate;
         injection H as <- <-; by apply grab_fields_length in E ]).
Qed.

(** A call that returns leaves the array at its length and the cursor inside
    it. *)
Lemma step_invariant c w ok w' :
  step c w = Ret (ok, w') ->
  length (str w) = NMEA_BUFFER_SIZE -> (offset w <= 15)%nat ->
  length (str w') = NMEA_BUFFER_SIZE /\ (offset w' <= 15)%nat.
Proof.
  unfold gpsNewFrameNMEA. intros H Hl Ho.
  destruct (Ascii.eqb c "$"%char).
  { injection H as <- <-. cbn. split; [done|lia]. }
  destruct (Ascii.eqb c ","%char || Ascii.eqb c "*"%char).
  { unfold on_separator in H.
    destruct (wr _ _ _) as [s1| |] eqn:Ew; cbn [mbind outcome_bind] in H;
      try discriminate.
    destruct (parse_field _ _ _ _ _) as [[m1 s2]| |] eqn:Ep;
      cbn [mbind outcome_bind] in H; try discriminate.
    injection H as <- <-. cbn. split; [|lia].
    apply parse_field_length in Ep. apply wr_Ret in Ew as [_ ->].
    by rewrite Ep, length_insert. }
  destruct (Ascii.eqb c CR || Ascii.eqb c LF).
  { unfold on_line_end in H.
    destruct (checksum_param w); [|by injection H as <- <-].
    destruct (rd _ 0%nat); cbn [mbind outcome_bind] in H; try discriminate.
    destruct (rd _ 1%nat); cbn [mbind outcome_bind] in H; try discriminate.
    destruct (_ =? _); [|by injection H as <- <-].
    destruct (gps_frame w); by injection H as <- <-. }
  unfold on_other in H. destruct (_ <? _)%nat eqn:Hlt; [|by injection H as <- <-].
  destruct (wr _ _ _) as [s1| |] eqn:Ew; cbn [mbind outcome_bind] in H;
    try discriminate.
  injection H as <- <-. cbn. apply wr_Ret in Ew as [_ ->].
  apply Nat.ltb_lt in Hlt. unfold NMEA_BUFFER_SIZE in *.
  rewrite length_insert. split; [done|lia].
Qed.

(** Every state the parser reaches from power-on satisfies the invariant. *)
Lemma run_invariant bytes : forall w signals w',
  run bytes w = Ret (signals, w') ->
  length (str w) = NMEA_BUFFER_SIZE -> (offset w <= 15)%nat ->
  length (str w') = NMEA_BUFFER_SIZE /\ (offset w' <= 15)%nat.
Proof.
  induction bytes as [|c bytes IH]; intros w signals w' H Hl Ho.
  { by injection H as <- <-. }
  cbn [feed] in H.
  destruct (step c w) as [[ok w1]| |] eqn:E; cbn [mbind outcome_bind fst snd] in H;
    try discriminate.
  destruct (run bytes w1) as [[l w2]| |] eqn:E2; cbn [mbind outcome_bind] in H;
    try discriminate.
  injection H as <- <-. cbn [snd] in E2.
  apply step_invariant in E as [Hl1 Ho1]; try done.
  by apply IH in E2.
Qed.

(** A byte other than ['*'] and the line ends raises no signal and leaves the
    capture mode and the shared records alone. *)
Lemma step_quiet c w ok w' :
  c <> "*"%char -> c <> CR -> c <> LF ->
  step c w = Ret (ok, w') ->
  ok = false /\ checksum_param w' = checksum_param w
  /\ gpsSol w' = gpsSol w /\ gpsStats w' = gpsStats w.
Proof.
  intros H1 H2 H3. apply Ascii.eqb_neq in H1, H2, H3.
  unfold gpsNewFrameNMEA. rewrite H1, H2, H3, orb_false_r. cbn [orb]. intros H.
  destruct (Ascii.eqb c "$"%char); [by injection H as <- <-|].
  destruct (Ascii.eqb c ","%char).
  { unfold on_separator in H. rewrite H1 in H.
    destruct (wr _ _ _); cbn [mbind outcome_bind] in H; try discriminate.
    destruct (parse_field _ _ _ _ _); cbn [mbind outcome_bind] in H; try discriminate.
    by injection H as <- <-. }
  unfold on_other in H. destruct (_ <? _)%nat; [|by injection H as <- <-].
  destruct (wr _ _ _); cbn [mbind outcome_bind] in H; try discriminate.
  by injection H as <- <-.
Qed.

Lemma run_quiet bytes : forall w signals w',
  Forall (fun c => c <> "*"%char /\ c <> CR /\ c <> LF) bytes ->
  run bytes w = Ret (signals, w') ->
  signals = repeat false (length bytes)
  /\ checksum_param w' = checksum_param w
  /\ gpsSol w' = gpsSol w /\ gpsStats w' = gpsStats w.
Proof.
  induction bytes as [|c bytes IH]; intros w signals w' Hq H.
  { by injection H as <- <-. }
  apply Forall_cons in Hq as [(H1 & H2 & H3) Hq].
  cbn [feed] in H.
  destruct (step c w) as [[ok w1]| |] eqn:E; cbn [mbind outcome_bind fst snd] in H;
    try discriminate.
  destruct (run bytes w1) as [[l w2]| |] eqn:E2; cbn [mbind outcome_bind] in H;
    try discriminate.
  injection H as <- <-. cbn [snd fst] in *.
  apply step_quiet in E as (-> & Ec & Es & Et); try done.
  apply IH in E2 as (-> & Ec2 & Es2 & Et2); try done.
  cbn [length repeat]. split; [done|]. split; [congruence|]. split; congruence.
Qed.

(** Resynchronisation where the code achieves it: after a sentence that was
    cut off before its ['*'] (any bytes without ['*'], CR and LF), a fix-data
    sentence gives the same signals, commits the same [gpsSol] and leaves the
    same counters as it does without the cut-off bytes. *)
Lemma resync_GGA_before_star (w : world) (cut : list ascii) signals0 w0
    (ident time lat ns lon ew fixq nsat hdop alt : list ascii)
    (more : list (list ascii)) :
  length (str w) = NMEA_BUFFER_SIZE -> (offset w <= 15)%nat ->
  checksum_param w = false ->
  Forall (fun c => c <> "*"%char /\ c <> CR /\ c <> LF) cut ->
  run cut w = Ret (signals0, w0) ->
  is_GGA_ident ident ->
  Forall (fun f => field_ok f = true)
         (time :: lat :: ns :: lon :: ew :: fixq :: nsat :: hdop :: alt :: more) ->
  (length more <= 246)%nat ->
  decimal_fits hdop = true -> decimal_fits alt = true ->
  let args := time :: lat :: ns :: lon :: ew :: fixq :: nsat :: hdop :: alt :: more in
  let s := sentence ident args (nmea_checksum ident args) in
  exists signals w1 w2,
    run s w = Ret (signals, w1)
    /\ run (cut ++ s) w = Ret (repeat false (length cut) ++ signals, w2)
    /\ gpsSol w2 = gpsSol w1 /\ gpsStats w2 = gpsStats w1.
Proof.
  intros Hl Ho Hcp Hq Hcut Hid Hok Hmore Hh Ha args s.
  destruct (run_GGA w ident time lat ns lon ew fixq nsat hdop alt more)
    as (w1 & R1 & S1 & T1 & _); try done.
  pose proof (run_invariant _ _ _ _ Hcut Hl Ho) as [Hl0 _].
  pose proof (run_quiet _ _ _ _ Hq Hcut) as (-> & Hc0 & Hs0 & Ht0).
  destruct (run_GGA w0 ident time lat ns lon ew fixq nsat hdop alt more)
    as (w2 & R2 & S2 & T2 & _); try done; [congruence|].
  fold args in R1, R2. fold s in R1, R2.
  eexists _, w1, w2. split; [exact R1|].
  rewrite run_app, Hcut. obind. cbn [fst snd]. rewrite R2. obind. cbn [fst snd].
  split; [done|]. rewrite S1, S2, T1, T2, Hs0, Ht0. split; [|done].
  unfold commit_GGA, gga_pending. cbn. done.
Qed.

Lemma resync_RMC_before_star (w : world) (cut : list ascii) signals0 w0
    (ident a1 a2 a3 a4 a5 a6 spd crs : list ascii) (more : list (list ascii)) :
  length (str w) = NMEA_BUFFER_SIZE -> (offset w <= 15)%nat ->
  checksum_param w = false ->
  Forall (fun c => c <> "*"%char /\ c <> CR /\ c <> LF) cut ->
  run cut w = Ret (signals0, w0) ->
  is_RMC_ident ident ->
  Forall (fun f => field_ok f = true)
         (a1 :: a2 :: a3 :: a4 :: a5 :: a6 :: spd :: crs :: more) ->
  (length more <= 247)%nat ->
  decimal_fits spd = true -> decimal_fits crs = true ->
  let args := a1 :: a2 :: a3 :: a4 :: a5 :: a6 :: spd :: crs :: more in
  let s := sentence ident args (nmea_checksum ident args) in
  exists signals w1 w2,
    run s w = Ret (signals, w1)
    /\ run (cut ++ s) w = Ret (repeat false (length cut) ++ signals, w2)
    /\ gpsSol w2 = gpsSol w1 /\ gpsStats w2 = gpsStats w1.
Proof.
  intros Hl Ho Hcp Hq Hcut Hid Hok Hmore Hsp Hcr args s.
  destruct (run_RMC w ident a1 a2 a3 a4 a5 a6 spd crs more)
    as (w1 & R1 & S1 & T1 & _); try done.
  pose proof (run_invariant _ _ _ _ Hcut Hl Ho) as [Hl0 _].
  pose proof (run_quiet _ _ _ _ Hq Hcut) as (-> & Hc0 & Hs0 & Ht0).
  destruct (run_RMC w0 ident a1 a2 a3 a4 a5 a6 spd crs more)
    as (w2 & R2 & S2 & T2 & _); try done; [congruence|].
  fold args in R1, R2. fold s in R1, R2.
  eexists _, w1, w2. split; [exact R1|].
  rewrite run_app, Hcut. obind. cbn [fst snd]. rewrite R2. obind. cbn [fst snd].
  split; [done|]. rewrite S1, S2, T1, T2, Hs0, Ht0. split; [|done].
  unfold commit_RMC, rmc_pending. cbn. done.
Qed.

(** Only a line end leaves the checksum-capture mode, and it always does. *)
Lemma step_line_end_leaves_capture c w ok w' :
  c = CR \/ c = LF -> step c w = Ret (ok, w') -> checksum_param w' = false.
Proof.
  intros Hc H.
  assert (step c w = on_eol w) as E by (unfold gpsNewFrameNMEA; by destruct Hc as [-> | ->]).
  rewrite E in H. unfold on_line_end in H.
  destruct (checksum_param w); [|by injection H as <- <-].
  destruct (rd _ 0%nat); cbn [mbind outcome_bind] in H; try discriminate.
  destruct (rd _ 1%nat); cbn [mbind outcome_bind] in H; try discriminate.
  destruct (_ =? _); [|by injection H as <- <-].
  destruct (gps_frame w); by injection H as <- <-.
Qed.

Lemma step_stays_in_capture c w ok w' :
  c <> CR -> c <> LF -> step c w = Ret (ok, w') ->
  (checksum_param w = true \/ c = "*"%char) -> checksum_param w' = true.
Proof.
  intros H2 H3. apply Ascii.eqb_neq in H2, H3.
  unfold gpsNewFrameNMEA. rewrite H2, H3. cbn [orb]. intros H Hcp.
  destruct (Ascii.eqb c "$"%char) eqn:Hd.
  { injection H as <- <-. cbn. destruct Hcp as [?| ->]; [done|discriminate]. }
  destruct (Ascii.eqb c ","%char || Ascii.eqb c "*"%char) eqn:Hsep.
  { unfold on_separator in H.
    destruct (wr _ _ _); cbn [mbind outcome_bind] in H; try discriminate.
    destruct (parse_field _ _ _ _ _); cbn [mbind outcome_bind] in H; try discriminate.
    injection H as <- <-. cbn.
    destruct (Ascii.eqb c "*"%char) eqn:Hst; [done|].
    destruct Hcp as [?| ->]; [done|discriminate]. }
  apply orb_false_elim in Hsep as [_ Hst].
  destruct Hcp as [Hcp| ->]; [|discriminate].
  unfold on_other in H. destruct (_ <? _)%nat; [|by injection H as <- <-].
  destruct (wr _ _ _); cbn [mbind outcome_bind] in H; try discriminate.
  by injection H as <- <-.
Qed.

Lemma run_stays_in_capture bytes : forall w signals w',
  Forall (fun c => c <> CR /\ c <> LF) bytes ->
  run bytes w = Ret (signals, w') ->
  checksum_param w = true -> checksum_param w' = true.
Proof.
  induction bytes as [|c bytes IH]; intros w signals w' Hq H Hcp.
  { by injection H as <- <-. }
  apply Forall_cons in Hq as [[H2 H3] Hq].
  cbn [feed] in H.
  destruct (step c w) as [[ok w1]| |] eqn:E; cbn [mbind outcome_bind fst snd] in H;
    try discriminate.
  destruct (run bytes w1) as [[l w2]| |] eqn:E2; cbn [mbind outcome_bind] in H;
    try discriminate.
  injection H as <- <-. cbn [snd].
  eapply IH; [done|exact E2|].
  eapply step_stays_in_capture; eauto.
Qed.

(** The defect in general: after a sentence that was cut off behind its
    ['*'] (no line end follows the ['*']), a sentence with the right
    checksum is counted as a checksum error, raises no signal and commits
    nothing, unless its checksum is the exclusive-or of its commas. *)
Lemma truncated_after_star_rejects_next (w : world) (pre post : list ascii)
    signals1 w1 (ident : list ascii) (args : list (list ascii)) :
  length (str w) = NMEA_BUFFER_SIZE -> (offset w <= 15)%nat ->
  run (pre ++ "*"%char :: post) w = Ret (signals1, w1) ->
  Forall (fun c => c <> CR /\ c <> LF) post ->
  Forall (fun f => field_ok f = true) (ident :: args) ->
  fields_safe (ident :: args) NO_FRAME 0 = true ->
  nmea_checksum ident args <> (if Nat.odd (length args) then code ","%char else 0) ->
  let s := sentence ident args (nmea_checksum ident args) in
  exists w2,
    run ((pre ++ "*"%char :: post) ++ s) w
    = Ret (signals1 ++ repeat false (length s), w2)
    /\ errors (gpsStats w2) = (errors (gpsStats w1) + 1)%N
    /\ packetCount (gpsStats w2) = packetCount (gpsStats w1)
    /\ gpsSol w2 = gpsSol w1.
Proof.
  intros Hl Ho Hcut Hpost Hok Hsafe Hne s.
  pose proof (run_invariant _ _ _ _ Hcut Hl Ho) as [Hl1 _].
  assert (Hcp1 : checksum_param w1 = true).
  { rewrite run_app in Hcut.
    destruct (run pre w) as [[la wa]| |]; cbn [mbind outcome_bind fst snd] in Hcut;
      try discriminate.
    cbn [feed] in Hcut.
    destruct (step "*"%char wa) as [[ok wb]| |] eqn:Es;
      cbn [mbind outcome_bind fst snd] in Hcut; try discriminate.
    destruct (run post wb) as [[lb wc]| |] eqn:Ep;
      cbn [mbind outcome_bind fst snd] in Hcut; try discriminate.
    injection Hcut as _ <-.
    eapply run_stays_in_capture; [exact Hpost|exact Ep|].
    eapply step_stays_in_capture; [| |exact Es|by right]; discriminate. }
  destruct (capture_mode_rejects_sentence w1 ident args) as (w2 & R & He & Hp & Hsol & _);
    try done.
  exists w2. split; [|done].
  rewrite run_app, Hcut. obind. cbn [fst snd]. fold s in R. rewrite R. by obind.
Qed.
End ParserFacts.

(** ** The driver *)

Section DriverFacts.

Variable GPS_coord_to_degrees : list ascii -> Z.
Variable gpsConstrainHDOP : Z -> Z.
Variable gpsConstrainEPE : Z -> Z.
Variable GPS_HDOP_TO_EPH_MULTIPLIER : Z.
Variable dev_t : Type.
Variable serialTxBytesFree : dev_t -> Z.
Variable isSerialTransmitBufferEmpty : dev_t -> bool.
Variable serialWrite : ascii -> dev_t -> dev_t.
Variable serialPrint : list ascii -> dev_t -> dev_t.
Variable serialSetBaudRate : Z -> dev_t -> dev_t.
Variable baudRate_of : nat -> Z.
Variable gpsSetState : gpsState_e -> Z -> gpsReceiverData_t -> gpsReceiverData_t.
Variable gpsFinalizeChangeBaud :
  Z -> gpsReceiverData_t * dev_t -> gpsReceiverData_t * dev_t.

#[local] Abbreviation step := (gpsNewFrameNMEA GPS_coord_to_degrees gpsConstrainHDOP
                    gpsConstrainEPE GPS_HDOP_TO_EPH_MULTIPLIER).
#[local] Abbreviation receive := (receive_loop GPS_coord_to_degrees gpsConstrainHDOP
                    gpsConstrainEPE GPS_HDOP_TO_EPH_MULTIPLIER).
#[local] Abbreviation ReceiveData := (gpsReceiveData GPS_coord_to_degrees gpsConstrainHDOP
                    gpsConstrainEPE GPS_HDOP_TO_EPH_MULTIPLIER dev_t).
#[local] Abbreviation ChangeBaud :=
  (gpsChangeBaud dev_t isSerialTransmitBufferEmpty serialPrint serialSetBaudRate
                 baudRate_of gpsSetState gpsFinalizeChangeBaud).
#[local] Abbreviation Transmit :=
  (nmeaTransmit_loop dev_t serialTxBytesFree isSerialTransmitBufferEmpty serialWrite
                     gpsSetState).
#[local] Abbreviation Configure :=
  (gpsConfigure dev_t serialTxBytesFree isSerialTransmitBufferEmpty serialWrite
                serialPrint gpsSetState).
#[local] Abbreviation Configure_PSRF :=
  (gpsConfigure_PSRF dev_t serialTxBytesFree isSerialTransmitBufferEmpty serialWrite
                     gpsSetState).
#[local] Abbreviation HandleNMEA :=
  (gpsHandleNMEA GPS_coord_to_degrees gpsConstrainHDOP gpsConstrainEPE
                 GPS_HDOP_TO_EPH_MULTIPLIER dev_t serialTxBytesFree
                 isSerialTransmitBufferEmpty serialWrite serialPrint
                 serialSetBaudRate baudRate_of gpsSetState gpsFinalizeChangeBaud).
#[local] Abbreviation ticks :=
  (run_ticks GPS_coord_to_degrees gpsConstrainHDOP gpsConstrainEPE
             GPS_HDOP_TO_EPH_MULTIPLIER dev_t serialTxBytesFree
             isSerialTransmitBufferEmpty serialWrite serialPrint
             serialSetBaudRate baudRate_of gpsSetState gpsFinalizeChangeBaud).

(** Claim C9.  With auto-baud switched off, one call of [gpsChangeBaud] makes
    no call to the port, neither a write nor a change of baud rate: the one
    call it makes is the hand-over [gpsFinalizeChangeBaud], at once, whatever
    the time and the state of the transmitter.  With the hand-over as the
    specification describes it, the driver is then past the baud phase, in
    the phase handed over to (the version check or the configuration), the
    transition time recorded and the configuration cursors at zero; the
    port, the baud indices, the configuration and the parser are as they
    were, and the call returns false. *)
Theorem gpsChangeBaud_autobaud_off (next : gpsState_e) (now : Z) (d : dworld dev_t) :
  autoBaud (gpsConfig (gpsState d)) = GPS_AUTOBAUD_OFF ->
  next = GPS_CHECK_VERSION \/ next = GPS_CONFIGURE ->
  exists d',
    gpsChangeBaud dev_t isSerialTransmitBufferEmpty serialPrint serialSetBaudRate
                  baudRate_of gpsSetState (spec_gpsFinalizeChangeBaud next) now d
    = Ret (false, d')
    /\ calls d' = calls d ++ [CallFinalizeChangeBaud]
    /\ dev d' = dev d
    /\ gpsState d'
       = mkGpsState (gpsConfig (gpsState d)) (gpsPort (gpsState d)) next
                    (baudrateIndex (gpsState d)) (autoBaudrateIndex (gpsState d))
                    0 0 now
    /\ state (gpsState d') <> GPS_CHANGE_BAUD
    /\ nmea d' = nmea d
    /\ rxq d' = rxq d.
Proof.
  intros Hoff Hnext. unfold gpsChangeBaud. rewrite Hoff.
  rewrite bool_decide_eq_true_2 by done. cbn [negb andb].
  eexists. split; [reflexivity|].
  unfold do_gpsFinalizeChangeBaud, spec_gpsFinalizeChangeBaud.
  cbn [calls gpsState dev nmea rxq fst snd state].
  repeat split. by destruct Hnext as [-> | ->].
Qed.

Lemma kept_or_cleared_refl g : kept_or_cleared g g.
Proof. by left. Qed.

Lemma kept_or_cleared_trans g1 g2 g3 :
  kept_or_cleared g1 g2 -> kept_or_cleared g2 g3 -> kept_or_cleared g1 g3.
Proof.
  unfold kept_or_cleared. intros [E1|E1] [E2|E2]; rewrite ?E2, ?E1; auto.
Qed.

Lemma kept_or_cleared_never_set g g' : kept_or_cleared g g' -> never_set g g'.
Proof.
  unfold kept_or_cleared, never_set, vel_flags.
  intros [E|E]; injection E as -> ->; split; auto; discriminate.
Qed.

Lemma never_set_trans g1 g2 g3 : never_set g1 g2 -> never_set g2 g3 -> never_set g1 g3.
Proof. unfold never_set. intros [A B] [C D]. auto. Qed.

Lemma commit_GGA_cleared m g :
  vel_flags (commit_GGA gpsConstrainHDOP gpsConstrainEPE GPS_HDOP_TO_EPH_MULTIPLIER m g)
  = (false, false).
Proof. unfold commit_GGA. by destruct (fix_ m). Qed.

(** One call of the parser keeps the two flags or clears both, and a call
    that returns the frame-ready signal has cleared them. *)
Lemma step_vel_flags c w ok w' :
  step c w = Ret (ok, w') ->
  kept_or_cleared (gpsSol w) (gpsSol w')
  /\ (ok = true -> vel_flags (gpsSol w') = (false, false)).
Proof.
  unfold gpsNewFrameNMEA. intros H.
  destruct (Ascii.eqb c "$"%char).
  { injection H as <- <-. split; [by left|discriminate]. }
  destruct (Ascii.eqb c ","%char || Ascii.eqb c "*"%char).
  { unfold on_separator in H.
    destruct (wr _ _ _); cbn [mbind outcome_bind] in H; try discriminate.
    destruct (parse_field _ _ _ _ _); cbn [mbind outcome_bind] in H; try discriminate.
    injection H as <- <-. split; [by left|discriminate]. }
  destruct (Ascii.eqb c CR || Ascii.eqb c LF).
  { unfold on_line_end in H.
    destruct (checksum_param w).
    2:{ injection H as <- <-. split; [by left|discriminate]. }
    destruct (rd _ 0%nat); cbn [mbind outcome_bind] in H; try discriminate.
    destruct (rd _ 1%nat); cbn [mbind outcome_bind] in H; try discriminate.
    destruct (_ =? _).
    2:{ injection H as <- <-. split; [by left|discriminate]. }
    destruct (gps_frame w); injection H as <- <-; cbn [gpsSol].
    - split; [by left|discriminate].
    - split; [right|intros _]; apply commit_GGA_cleared.
    - split; [by left|discriminate]. }
  unfold on_other in H. destruct (_ <? _)%nat.
  2:{ injection H as <- <-. split; [by left|discriminate]. }
  destruct (wr _ _ _); cbn [mbind outcome_bind] in H; try discriminate.
  injection H as <- <-. split; [by left|discriminate].
Qed.

Lemma receive_vel_flags bytes : forall hasNewData w r w',
  receive bytes hasNewData w = Ret (r, w') ->
  kept_or_cleared (gpsSol w) (gpsSol w')
  /\ (r = true -> hasNewData = true \/ vel_flags (gpsSol w') = (false, false)).
Proof.
  induction bytes as [|c bytes IH]; intros hnd w r w' H.
  { injection H as <- <-. split; [by left|auto]. }
  cbn [receive_loop] in H.
  destruct (step c w) as [[ok w1]| |] eqn:Hstep; cbn [mbind outcome_bind] in H;
    try discriminate.
  apply step_vel_flags in Hstep as [Hk Hok].
  destruct ok.
  - apply IH in H as [Hk' _]. cbn [with_gpsSol gpsSol] in Hk'.
    assert (Hc : vel_flags (gpsSol w') = (false, false)).
    { destruct Hk' as [E|E]; [|done]. by rewrite E. }
    split; [by right|auto].
  - apply IH in H as [Hk' Hr]. split; [|done].
    by eapply kept_or_cleared_trans.
Qed.

Lemma ReceiveData_vel_flags (d : dworld dev_t) r d' :
  ReceiveData d = Ret (r, d') ->
  kept_or_cleared (gpsSol (nmea d)) (gpsSol (nmea d'))
  /\ (r = true -> vel_flags (gpsSol (nmea d')) = (false, false))
  /\ gpsState d' = gpsState d.
Proof.
  unfold gpsReceiveData. intros H.
  destruct (gpsPort (gpsState d)).
  2:{ injection H as <- <-. split; [by left|]. split; [discriminate|done]. }
  destruct (receive _ _ _) as [[r1 w1]| |] eqn:E; cbn [mbind outcome_bind] in H;
    try discriminate.
  injection H as <- <-. cbn [nmea gpsState fst snd].
  apply receive_vel_flags in E as [Hk Hr].
  split; [done|]. split; [|done].
  intros Ht. by destruct (Hr Ht).
Qed.

Lemma Transmit_nmea fuel cmd size now : forall (d : dworld dev_t) r d',
  Transmit fuel cmd size now d = Ret (r, d') -> nmea d' = nmea d.
Proof.
  induction fuel as [|fuel IH]; intros d r d' H; [discriminate|].
  cbn [nmeaTransmit_loop] in H.
  destruct (0 <? _); [|by injection H as <- <-].
  destruct (_ <? _)%nat.
  - destruct (rd _ _); cbn [mbind outcome_bind] in H; try discriminate.
    apply IH in H. by rewrite H.
  - destruct (isSerialTransmitBufferEmpty _); by injection H as <- <-.
Qed.

(** The budget [nmeaTransmitAutoConfigCommands] gives its loop is never
    exhausted: every pass sends one more byte of the command or returns. *)
Lemma Transmit_budget fuel cmd size now : forall (d : dworld dev_t),
  (size - autoConfigPosition (gpsState d) < fuel)%nat ->
  Transmit fuel cmd size now d <> Timeout.
Proof.
  induction fuel as [|fuel IH]; intros d Hf; [lia|].
  cbn [nmeaTransmit_loop].
  destruct (0 <? _); [|done].
  destruct (_ <? _)%nat eqn:Hlt.
  - unfold rd. destruct (_ !! _); obind; [|done].
    apply IH. cbn. apply Nat.ltb_lt in Hlt. lia.
  - by destruct (isSerialTransmitBufferEmpty _).
Qed.

Lemma Configure_nmea now (d : dworld dev_t) r d' :
  Configure now d = Ret (r, d') -> r = false /\ nmea d' = nmea d.
Proof.
  unfold gpsConfigure, nmeaTransmitAutoConfigCommands, config_check. intros H.
  destruct (_ <? _); [by injection H as <- <-|].
  destruct (autoConfigStep _) as [|[|[|[|n]]]].
  - destruct (Transmit _ _ _ _ _) as [[r1 d1]| |] eqn:E;
      cbn [mbind outcome_bind] in H; try discriminate.
    injection H as <- <-. split; [done|]. by apply Transmit_nmea in E.
  - injection H as <- <-. split; [done|].
    by destruct (isSerialTransmitBufferEmpty _).
  - destruct (Transmit _ _ _ _ _) as [[r1 d1]| |] eqn:E;
      cbn [mbind outcome_bind] in H; try discriminate.
    injection H as <- <-. split; [done|]. by apply Transmit_nmea in E.
  - injection H as <- <-. split; [done|].
    by destruct (isSerialTransmitBufferEmpty _).
  - by injection H as <- <-.
Qed.

Lemma Configure_PSRF_nmea now (d : dworld dev_t) r d' :
  Configure_PSRF now d = Ret (r, d') -> r = false /\ nmea d' = nmea d.
Proof.
  unfold gpsConfigure_PSRF, nmeaTransmitAutoConfigCommands. intros H.
  destruct (_ <? _); [by injection H as <- <-|].
  destruct (autoConfigStep _) as [|n].
  - destruct (Transmit _ _ _ _ _) as [[r1 d1]| |] eqn:E;
      cbn [mbind outcome_bind] in H; try discriminate.
    injection H as <- <-. split; [done|]. by apply Transmit_nmea in E.
  - by injection H as <- <-.
Qed.

Lemma ChangeBaud_nmea now (d : dworld dev_t) r d' :
  ChangeBaud now d = Ret (r, d') -> r = false /\ nmea d' = nmea d.
Proof.
  unfold gpsChangeBaud. intros H.
  destruct (_ && _); [|by injection H as <- <-].
  destruct (_ && _); [|by injection H as <- <-].
  destruct (_ !! _); [|discriminate]. by injection H as <- <-.
Qed.

(** One tick keeps the two flags or clears both; a tick that reports new
    data has cleared them. *)
Lemma HandleNMEA_vel_flags now (d : dworld dev_t) b d' :
  HandleNMEA now d = Ret (b, d') ->
  kept_or_cleared (gpsSol (nmea d)) (gpsSol (nmea d'))
  /\ (b = true -> vel_flags (gpsSol (nmea d')) = (false, false)).
Proof.
  unfold gpsHandleNMEA. intros H.
  destruct (ReceiveData d) as [[r d1]| |] eqn:E; cbn [mbind outcome_bind] in H;
    try discriminate.
  apply ReceiveData_vel_flags in E as (Hk & Hr & _).
  destruct (state (gpsState d1)).
  - by injection H as <- <-.
  - by injection H as <- <-.
  - apply ChangeBaud_nmea in H as [-> ->]. by split.
  - destruct (bool_decide _); [by injection H as <- <-|].
    destruct (bool_decide _);
      [apply Configure_PSRF_nmea in H as [-> ->]|apply Configure_nmea in H as [-> ->]];
      by split.
  - destruct (bool_decide _); [by injection H as <- <-|].
    destruct (bool_decide _);
      [apply Configure_PSRF_nmea in H as [-> ->]|apply Configure_nmea in H as [-> ->]];
      by split.
  - by injection H as <- <-.
  - by injection H as <- <-.
Qed.

(** Claim C8.  Whatever bytes arrive and however often the driver is invoked, it
    writes the velocity-north/east and velocity-down validity flags of
    [gpsSol] only to 0: one tick leaves both as they were or leaves both
    cleared, a tick that reports new data leaves them cleared, and over any
    sequence of ticks neither flag goes from 0 to 1. *)
Theorem velocity_flags_only_cleared :
  (forall now (d : dworld dev_t) b d',
      HandleNMEA now d = Ret (b, d') ->
      kept_or_cleared (gpsSol (nmea d)) (gpsSol (nmea d'))
      /\ (b = true -> vel_flags (gpsSol (nmea d')) = (false, false)))
  /\ (forall ts (d d' : dworld dev_t),
         ticks ts d = Ret d' ->
         never_set (gpsSol (nmea d)) (gpsSol (nmea d'))).
Proof.
  split; [apply HandleNMEA_vel_flags|].
  induction ts as [|t ts IH]; intros d d' H.
  { injection H as <-. by split. }
  cbn [run_ticks] in H.
  destruct (HandleNMEA _ _) as [[b d1]| |] eqn:E; cbn [mbind outcome_bind] in H;
    try discriminate.
  apply HandleNMEA_vel_flags in E as [Hk _]. apply IH in H.
  eapply never_set_trans; [|exact H].
  by apply kept_or_cleared_never_set in Hk.
Qed.

End DriverFacts.

(** ** The theorems on concrete input *)

Example gga_example_values :
  nmea_checksum (chars "GPGGA") (ex_gga_args "1" "") = 71
  /\ gga_numSat (chars "08") = 8
  /\ gga_hdop (chars "0.9") = 90
  /\ gga_altitude (chars "545.4") = 54540
  /\ rmc_speed (chars "022.4") = 1152
  /\ rmc_course (chars "084.4") = 844.
Proof. by vm_compute. Qed.


Lemma rmc_sentence_commits_witness :
  let ident := chars "GPRMC" in
  let args := ex_rmc_args "022.4" in
  let cks := nmea_checksum ident args in
  let spd := chars "022.4" in
  exists w',
    sample_feed (sentence ident args cks) world0
    = Ret (repeat false (length (sentence ident args cks)), w')
    /\ groundSpeed (gpsSol w') = wrap16 (wrap32 (decode_field spd 1 * 5144) / 1000)
    /\ (decode_field spd 1 <= 834946 ->
        groundSpeed (gpsSol w') = wrap16 (decode_field spd 1 * 5144 / 1000))
    /\ (decode_field spd 1 <= 12740 ->
        groundSpeed (gpsSol w') = decode_field spd 1 * 5144 / 1000)
    /\ (decode_field spd 1 = 1000 -> groundSpeed (gpsSol w') = 5144)
    /\ groundCourse (gpsSol w') = wrap16 (decode_field (chars "084.4") 1)
    /\ fixType (gpsSol w') = fixType (gpsSol world0)
    /\ sol_numSat (gpsSol w') = sol_numSat (gpsSol world0)
    /\ llh_lat (gpsSol w') = llh_lat (gpsSol world0)
    /\ llh_lon (gpsSol w') = llh_lon (gpsSol world0)
    /\ llh_alt (gpsSol w') = llh_alt (gpsSol world0)
    /\ packetCount (gpsStats w') = (packetCount (gpsStats world0) + 1)%N.
Proof.
  apply (rmc_sentence_commits sample_coord sample_constrain sample_constrain
           sample_multiplier world0 (chars "GPRMC") (chars "123519") (chars "A")
           (chars "4807.038") (chars "N") (chars "01131.000") (chars "E")
           (chars "022.4") (chars "084.4")
           (map chars ["230394"; "003.1"; "W"]%string)).
  - reflexivity.
  - reflexivity.
  - left. reflexivity.
  - repeat constructor.
  - simpl. lia.
  - reflexivity.
  - reflexivity.
Defined.

Lemma bad_checksum_discarded_witness :
  let ident := chars "GPGGA" in
  let args := ex_gga_args "1" "" in
  exists w',
    sample_feed (sentence ident args 72) world_flying
    = Ret (repeat false (length (sentence ident args 72)), w')
    /\ errors (gpsStats w') = (errors (gpsStats world_flying) + 1)%N
    /\ packetCount (gpsStats w') = packetCount (gpsStats world_flying)
    /\ gpsSol w' = gpsSol world_flying.
Proof.
  apply (bad_checksum_discarded sample_coord sample_constrain sample_constrain
           sample_multiplier world_flying (chars "GPGGA") (ex_gga_args "1" "") 72).
  - reflexivity.
  - reflexivity.
  - repeat constructor.
  - reflexivity.
  - lia.
  - vm_compute. discriminate.
Defined.

Lemma gpsChangeBaud_autobaud_off_witness :
  exists d',
    gpsChangeBaud (list ascii) (fun t => bool_decide (t = [])) (fun s t => t ++ s)
                  (fun _ t => t) sample_baudRate sample_setState
                  (spec_gpsFinalizeChangeBaud GPS_CHECK_VERSION) 1250 ex_driver_off
    = Ret (false, d')
    /\ calls d' = calls ex_driver_off ++ [CallFinalizeChangeBaud]
    /\ dev d' = dev ex_driver_off
    /\ gpsState d'
       = mkGpsState (gpsConfig (gpsState ex_driver_off)) (gpsPort (gpsState ex_driver_off))
                    GPS_CHECK_VERSION (baudrateIndex (gpsState ex_driver_off))
                    (autoBaudrateIndex (gpsState ex_driver_off)) 0 0 1250
    /\ state (gpsState d') <> GPS_CHANGE_BAUD
    /\ nmea d' = nmea ex_driver_off
    /\ rxq d' = rxq ex_driver_off.
Proof.
  apply (gpsChangeBaud_autobaud_off (list ascii) (fun t => bool_decide (t = []))
           (fun s t => t ++ s) (fun _ t => t) sample_baudRate
           sample_setState GPS_CHECK_VERSION 1250 ex_driver_off).
  - reflexivity.
  - left. reflexivity.
Defined.

Lemma velocity_flags_only_cleared_witness :
  exists d',
    sample_ticks ex_ticks ex_driver = Ret d'
    /\ never_set (gpsSol (nmea ex_driver)) (gpsSol (nmea d'))
    /\ vel_flags (gpsSol (nmea ex_driver)) = (true, true)
    /\ vel_flags (gpsSol (nmea d')) = (false, false).
Proof.
  unfold sample_ticks.
  pose proof (proj2 (velocity_flags_only_cleared sample_coord sample_constrain
                       sample_constrain sample_multiplier (list ascii)
                       (fun t => 64 - Z.of_nat (length t))
                       (fun t => bool_decide (t = []))
                       (fun c t => t ++ [c]) (fun s t => t ++ s) (fun _ t => t)
                       sample_baudRate sample_setState sample_finalize)
                ex_ticks ex_driver) as H.
  destruct (run_ticks _ _ _ _ _ _ _ _ _ _ _ _ _ ex_ticks ex_driver) as [d'| |] eqn:E;
    [|vm_compute in E; discriminate..].
  exists d'. split; [reflexivity|]. split.
  - exact (H d' eq_refl).
  - vm_compute in E. injection E as <-. split; reflexivity.
Defined.

Lemma grab_fields_examples_witness :
  value_of (grab_fields (lit "1234567890123456") 1) = Ret 0.
Proof.
  apply (proj1 (proj2 (proj2 (proj2 (proj2 grab_fields_examples))))
           (chars "1234567890123456") [NUL] 1%nat).
  - repeat constructor.
  - simpl. lia.
Defined.

(** ** Where the stated properties fail *)

(** A field decoded with one fractional digit whose decimal point is its
    fifteenth byte makes [grab_fields] clear [string[16]], one byte behind
    the array. *)
Example decimal_point_in_last_place_overflows :
  grab_fields (in_array (chars "12345678901234.")) 1 = Fault
  /\ value_of (sample_feed (chars "$GPGGA,,,,,,,,12345678901234.,") world0) = Fault.
Proof. split; reflexivity. Qed.


(** Claim C2 as stated fails: the last field is 16 bytes long, so its last byte is
    dropped and left out of the running exclusive-or.  The two digits [07]
    differ from the exclusive-or of all bytes (0x41), yet the sentence is
    counted as a valid packet and committed. *)
Lemma oversized_field_passes_wrong_checksum :
  let ident := chars "GPGGA" in
  let args := ex_gga_args "1" "0123456789ABCDEF" in
  nmea_checksum ident args = 65
  /\ match sample_feed (sentence ident args 7) world0 with
     | Ret (signals, w') =>
         errors (gpsStats w') = errors (gpsStats world0)
         /\ packetCount (gpsStats w') = (packetCount (gpsStats world0) + 1)%N
         /\ gpsSol w' <> gpsSol world0
     | _ => False
     end.
Proof. vm_compute. repeat split; discriminate. Qed.

(** Claim C10 as stated fails: the last field is 16 bytes long, so its last byte
    is dropped and left out of the running exclusive-or.  The sentence
    carries the exclusive-or of all its bytes and reports no fix, yet it is
    counted as a checksum error: no byte raises the signal, and the
    satellite count (7 where the sentence says 08) and the fix type stay as
    they were. *)
Lemma gga_without_fix_long_field_rejected :
  let ident := chars "GPGGA" in
  match sample_feed (sentence ident ex_gga_long (nmea_checksum ident ex_gga_long))
                    world_flying with
  | Ret (signals, w') =>
      count_occ bool_dec signals true = 0%nat
      /\ gga_numSat (chars "08") = 8
      /\ sol_numSat (gpsSol w') = 7
      /\ fixType (gpsSol w') = GPS_FIX_3D
      /\ errors (gpsStats w') = (errors (gpsStats world_flying) + 1)%N
      /\ packetCount (gpsStats w') = packetCount (gpsStats world_flying)
  | _ => False
  end.
Proof. vm_compute. repeat split; reflexivity. Qed.

(** Claim C4 as stated fails: the call clears a byte of the caller's array. *)
Lemma grab_fields_writes_buffer :
  grab_fields (lit "545.46") 1
  = Ret (5454, ["5"; "4"; "5"; "."; "4"; NUL; NUL]%char)
  /\ ["5"; "4"; "5"; "."; "4"; NUL; NUL]%char <> lit "545.46".
Proof. split; [reflexivity|discriminate]. Qed.

(** Claim C5 as stated fails: the letter is not skipped, it takes a decimal place. *)
Lemma grab_fields_counts_other_bytes :
  value_of (grab_fields (lit "12X3") 0) = Ret 1203
  /\ value_of (grab_fields (lit "123") 0) = Ret 123.
Proof. split; reflexivity. Qed.

(** Claim C7 as stated fails: a speed field of 9999.9 knots decodes to 99999, and
    99999 * 5144 / 1000 = 514394 does not fit the 16-bit pending field; the
    ground speed committed is 55642.  Nor is it always the low 16 bits of
    that quotient: for 99999.9 knots the product 999999 * 5144 passes 2^32
    before it is divided, and 62595 is committed where the low 16 bits of
    5143994 are 32186. *)
Lemma rmc_speed_wraps :
  let ident := chars "GPRMC" in
  let args := ex_rmc_args "9999.9" in
  let args' := ex_rmc_args "99999.9" in
  decode_field (chars "9999.9") 1 * 5144 / 1000 = 514394
  /\ match sample_feed (sentence ident args (nmea_checksum ident args)) world0 with
     | Ret (signals, w') => groundSpeed (gpsSol w') = 55642
     | _ => False
     end
  /\ decode_field (chars "99999.9") 1 * 5144 / 1000 = 5143994
  /\ wrap16 5143994 = 32186
  /\ match sample_feed (sentence ident args' (nmea_checksum ident args')) world0 with
     | Ret (signals, w') => groundSpeed (gpsSol w') = 62595
     | _ => False
     end.
Proof. vm_compute. repeat split; reflexivity. Qed.

(** Claim C3.  The fix-data sentence of the end-to-end scenario is accepted when
    it is fed on its own.  Fed right after a sentence that was cut off behind
    its ['*'], it is counted as a checksum error and nothing is committed:
    ['$'] does not leave the checksum-capture mode, so the bytes of the new
    sentence are kept out of the running exclusive-or. *)
Theorem truncated_after_star_breaks_next_sentence :
  let good := sentence (chars "GPGGA") (ex_gga_args "1" "") 71 in
  let cut := chars "$GPGGA,123519*4" in
  match sample_feed good world0, sample_feed (cut ++ good) world0 with
  | Ret (signals, w), Ret (signals', w') =>
      count_occ bool_dec signals true = 1%nat
      /\ gpsStats w = mkStats 1 0
      /\ fixType (gpsSol w) = GPS_FIX_3D
      /\ count_occ bool_dec signals' true = 0%nat
      /\ gpsStats w' = mkStats 0 1
      /\ gpsSol w' = gpsSol world0
  | _, _ => False
  end.
Proof. vm_compute. repeat split; reflexivity. Qed.

(** * Further properties *)


(** ** The field decoder on decimal numbers *)

Lemma wrap32_idem z : wrap32 (wrap32 z) = wrap32 z.
Proof. unfold wrap32. by rewrite Z.mod_mod. Qed.

Lemma wrap32_small z : 0 <= z < 4294967296 -> wrap32 z = z.
Proof. intros H. unfold wrap32. by apply Z.mod_small. Qed.

Lemma wrap32_step a c :
  wrap32 (wrap32 (wrap32 a * 10) + (code c - 48)) = wrap32 (10 * a + (code c - 48)).
Proof.
  unfold wrap32.
  rewrite Zplus_mod_idemp_l.
  rewrite <- (Zplus_mod_idemp_l (a mod 4294967296 * 10)).
  rewrite Zmult_mod_idemp_l.
  rewrite Zplus_mod_idemp_l. f_equal. lia.
Qed.

Lemma decimal32_wrap ds : forall acc,
  wrap32 (decimal32 ds (wrap32 acc)) = wrap32 (decimal ds acc).
Proof.
  induction ds as [|c ds IH]; intros acc; cbn [decimal decimal32 fold_left].
  - apply wrap32_idem.
  - fold (decimal32 ds (wrap32 (wrap32 (wrap32 acc * 10) + (code c - 48)))).
    fold (decimal ds (10 * acc + (code c - 48))).
    rewrite wrap32_step. apply IH.
Qed.

Lemma decimal32_range ds : forall acc,
  0 <= acc < 4294967296 -> 0 <= decimal32 ds acc < 4294967296.
Proof.
  induction ds as [|c ds IH]; intros acc H; cbn [decimal32 fold_left]; [done|].
  apply IH. apply wrap32_range.
Qed.

Lemma decimal32_eq ds acc :
  0 <= acc < 4294967296 -> decimal32 ds acc = wrap32 (decimal ds acc).
Proof.
  intros H. rewrite <- decimal32_wrap.
  rewrite (wrap32_small acc) by done.
  symmetry. apply wrap32_small. by apply decimal32_range.
Qed.

Lemma decimal32_app a b acc :
  decimal32 (a ++ b) acc = decimal32 b (decimal32 a acc).
Proof. unfold decimal32. apply fold_left_app. Qed.

Lemma all_digits_cons c ds :
  all_digits (c :: ds) = true -> is_digit c = true /\ all_digits ds = true.
Proof. unfold all_digits. cbn [forallb]. apply andb_true_iff. Qed.

Lemma all_digits_take n ds : all_digits ds = true -> all_digits (take n ds) = true.
Proof.
  revert n. induction ds as [|c ds IH]; intros [|n] H; try done.
  apply all_digits_cons in H as [Hc H]. cbn [take all_digits forallb].
  rewrite Hc. by apply IH.
Qed.

(** The loop over a run of digits: one pass per digit, the accumulator
    taking each in turn. *)
Lemma grab_loop_skip_digits mult ds : forall fuel pre rest tmp,
  all_digits ds = true -> (length pre + length ds <= 15)%nat ->
  grab_loop (length ds + fuel) mult (pre ++ ds ++ rest) (length pre) tmp
  = grab_loop fuel mult (pre ++ ds ++ rest) (length pre + length ds)
              (decimal32 ds tmp).
Proof.
  induction ds as [|c ds IH]; intros fuel pre rest tmp Hd Hlen.
  { cbn [length decimal32 fold_left]. by rewrite Nat.add_0_r. }
  apply all_digits_cons in Hd as [Hc Hd].
  apply is_digit_plain in Hc as Hplain. destruct Hplain as [Hnul Hdot].
  cbn [length] in *. cbn [Nat.add grab_loop].
  change ((c :: ds) ++ rest) with (c :: (ds ++ rest)).
  unfold rd at 1. rewrite list_lookup_middle by done. obind.
  rewrite eqb_NUL_false by done.
  assert (Ascii.eqb c "."%char = false) as -> by (by apply Ascii.eqb_neq).
  unfold grab_tail, rd. rewrite list_lookup_middle by done. obind.
  rewrite Hc.
  assert ((15 <=? length pre)%nat = false) as -> by (apply Nat.leb_gt; lia).
  replace (pre ++ c :: ds ++ rest) with ((pre ++ [c]) ++ ds ++ rest)
    by (by rewrite <- app_assoc).
  replace (S (length pre)) with (length (pre ++ [c]))
    by (rewrite length_app; cbn [length]; lia).
  rewrite IH; [|done|rewrite length_app; cbn [length]; lia].
  rewrite length_app. cbn [length decimal32 fold_left].
  f_equal. lia.
Qed.

Lemma digit_value c : is_digit c = true -> 0 <= code c - 48 <= 9.
Proof. unfold is_digit. intros H. apply andb_true_iff in H as [H1 H2]. lia. Qed.

Lemma decimal_bounds ds : forall acc,
  all_digits ds = true -> 0 <= acc ->
  acc * 10 ^ Z.of_nat (length ds) <= decimal ds acc
  /\ decimal ds acc < (acc + 1) * 10 ^ Z.of_nat (length ds).
Proof.
  induction ds as [|c ds IH]; intros acc Hd Hacc.
  { cbn [length decimal fold_left]. change (10 ^ Z.of_nat 0) with 1. lia. }
  apply all_digits_cons in Hd as [Hc Hd]. apply digit_value in Hc.
  cbn [decimal fold_left]. fold (decimal ds (10 * acc + (code c - 48))).
  destruct (IH (10 * acc + (code c - 48)) Hd) as [L U]; [lia|].
  cbn [length]. rewrite Nat2Z.inj_succ, Z.pow_succ_r by lia.
  assert (0 < 10 ^ Z.of_nat (length ds)) by (apply Z.pow_pos_nonneg; lia).
  split; nia.
Qed.

Lemma decimal_short ds :
  all_digits ds = true -> (length ds <= 9)%nat -> wrap32 (decimal ds 0) = decimal ds 0.
Proof.
  intros Hd Hlen. apply wrap32_small.
  destruct (decimal_bounds ds 0 Hd) as [L U]; [lia|].
  assert (10 ^ Z.of_nat (length ds) <= 10 ^ 9)
    by (apply Z.pow_le_mono_r; lia).
  change (10 ^ 9) with 1000000000 in *. lia.
Qed.

(** X1.  A field of at most fifteen digits decodes to the number it
    denotes, reduced modulo 2^32, and to that number itself when it has at
    most nine digits; the array is left as it was.  The count of fractional
    digits plays no part: without a decimal point the value is not
    scaled. *)
Theorem grab_fields_digits (ds tail : list ascii) (mult : nat) :
  all_digits ds = true -> (length ds <= 15)%nat ->
  grab_fields (ds ++ NUL :: tail) mult
  = Ret (wrap32 (decimal ds 0), ds ++ NUL :: tail)
  /\ ((length ds <= 9)%nat -> wrap32 (decimal ds 0) = decimal ds 0).
Proof.
  intros Hd Hlen. split; [|by apply decimal_short].
  unfold grab_fields.
  replace 16%nat with (length ds + (S (15 - length ds)))%nat by lia.
  rewrite (grab_loop_skip_digits mult ds _ [] (NUL :: tail) 0 Hd)
    by (cbn [length]; lia).
  cbn [app length Nat.add].
  rewrite grab_loop_at_nul by apply lookup_terminator.
  by rewrite decimal32_eq.
Qed.

(** The decoder on a number with a fraction. *)
Lemma grab_fields_fraction_value (ip fp tail : list ascii) (mult : nat) :
  let src := ip ++ "."%char :: fp ++ NUL :: tail in
  all_digits ip = true -> all_digits fp = true -> fp <> [] ->
  (1 <= mult)%nat ->
  (length ip + 1 + mult < length src)%nat ->
  (length ip + Nat.min mult (length fp) <= 14)%nat ->
  grab_fields src mult
  = Ret (wrap32 (decimal (ip ++ take mult fp) 0),
         <[(length ip + 1 + mult)%nat := NUL]> src).
Proof.
  intros src Hip Hfp Hne Hmult Hin Hbound.
  destruct fp as [|f0 fp']; [done|]. clear Hne.
  destruct mult as [|m]; [lia|]. clear Hmult.
  apply all_digits_cons in Hfp as [Hf0 Hfp'].
  cbn [length] in Hbound.
  assert (Hg : all_digits (take m fp') = true) by (by apply all_digits_take).
  (* the array after the store, split at the end of the digits that count *)
  assert (Hsplit : exists rest',
            <[(length ip + 1 + S m)%nat := NUL]> src
            = (ip ++ ["."%char; f0]) ++ take m fp' ++ NUL :: rest').
  { assert (Hsrc : src = (ip ++ ["."%char; f0]) ++ fp' ++ NUL :: tail)
      by (unfold src; by rewrite <- app_assoc).
    assert (Hl : length (ip ++ ["."%char; f0]) = (length ip + 2)%nat)
      by (rewrite length_app; cbn [length]; lia).
    rewrite Hsrc. rewrite insert_app_r_alt by lia. rewrite Hl.
    replace (length ip + 1 + S m - (length ip + 2))%nat with m by lia.
    destruct (decide (m < length fp')%nat) as [Hlt|Hge].
    - exists (drop (S m) fp' ++ NUL :: tail).
      rewrite insert_app_l by done.
      rewrite insert_take_drop by done.
      by rewrite <- (app_assoc (take m fp')).
    - rewrite take_ge by lia.
      rewrite insert_app_r_alt by lia.
      destruct (m - length fp')%nat as [|k].
      + by exists tail.
      + by exists (<[k := NUL]> tail). }
  destruct Hsplit as [rest' Hsplit].
  unfold grab_fields.
  replace 16%nat with (length ip + S (15 - length ip))%nat by lia.
  unfold src at 1.
  rewrite (grab_loop_skip_digits (S m) ip _ [] ("."%char :: (f0 :: fp') ++ NUL :: tail) 0 Hip)
    by (cbn [length]; lia).
  cbn [app length Nat.add]. fold src.
  cbn [grab_loop]. unfold rd at 1. unfold src at 1.
  rewrite list_lookup_middle by done. obind.
  change (Ascii.eqb "." NUL) with false. cbn iota.
  rewrite Ascii.eqb_refl.
  change (S m =? 0)%nat with false. cbn iota.
  change (ip ++ "."%char :: f0 :: fp' ++ NUL :: tail) with src.
  change (ip ++ "."%char :: (f0 :: fp') ++ NUL :: tail) with src.
  rewrite wr_in_range by lia. obind.
  replace (S (length ip) + S m)%nat with (length ip + 1 + S m)%nat by lia.
  unfold grab_tail.
  assert (Hf0at : (<[(length ip + 1 + S m)%nat := NUL]> src) !! S (length ip) = Some f0).
  { rewrite list_lookup_insert_ne by lia. unfold src.
    rewrite lookup_app_r by lia.
    replace (S (length ip) - length ip)%nat with 1%nat by lia. done. }
  unfold rd. rewrite Hf0at. obind. rewrite Hf0.
  assert ((15 <=? S (length ip))%nat = false) as -> by (apply Nat.leb_gt; lia).
  rewrite Hsplit.
  assert (Hlen2 : S (S (length ip)) = length (ip ++ ["."%char; f0]))
    by (rewrite length_app; cbn [length]; lia).
  rewrite Hlen2.
  assert (Hlt : (length (take m fp') <= Nat.min m (length fp'))%nat)
    by (rewrite length_take; lia).
  replace (15 - length ip)%nat
    with (length (take m fp') + S (14 - length ip - length (take m fp')))%nat by lia.
  rewrite (grab_loop_skip_digits (S m) (take m fp')) by (try done; lia).
  rewrite grab_loop_at_nul.
  2:{ rewrite app_assoc. rewrite <- length_app. apply lookup_terminator. }
  f_equal. f_equal.
  rewrite <- decimal32_eq by lia.
  cbn [take]. rewrite decimal32_app. cbn [decimal32 fold_left]. done.
Qed.

(** X2.  A field [ip.fp] of digits with a non-empty fraction, decoded with
    [mult >= 1] fractional digits: the value is the number denoted by the
    integer part followed by the first [mult] digits of the fraction (the
    fraction is cut, not rounded, and not padded when it is shorter), and
    the one byte written is the NUL [mult] places behind the first
    fractional digit. *)
Theorem grab_fields_fraction (ip fp tail : list ascii) (mult : nat) :
  let src := ip ++ "."%char :: fp ++ NUL :: tail in
  all_digits ip = true -> all_digits fp = true -> fp <> [] ->
  (1 <= mult)%nat ->
  (length ip + 1 + mult < length src)%nat ->
  (length ip + Nat.min mult (length fp) <= 14)%nat ->
  grab_fields src mult
  = Ret (wrap32 (decimal (ip ++ take mult fp) 0),
         <[(length ip + 1 + mult)%nat := NUL]> src).
Proof.
  intros src Hip Hfp Hne Hmult Hin Hbound. unfold src in *.
  by apply grab_fields_fraction_value.
Qed.

(** ** Where the decoder and the parser leave the array *)

Lemma first_dot_lt (l : list ascii) p : first_dot l = Some p -> (p < length l)%nat.
Proof.
  revert p. induction l as [|c l IH]; intros p H; [done|].
  cbn [first_dot] in H. cbn [length].
  destruct (Ascii.eqb c NUL); [done|].
  destruct (Ascii.eqb c "."%char); [injection H as <-; lia|].
  destruct (first_dot l) as [q|]; [|done]. injection H as <-.
  specialize (IH q eq_refl). lia.
Qed.

Lemma grab_loop_no_fault fuel mult : (mult <= 1)%nat -> forall (b : list ascii) i tmp,
  length b = NMEA_BUFFER_SIZE -> (i <= 15)%nat ->
  (mult = 1%nat -> forall p, first_dot (drop i b) = Some p -> (i + p + 2 < 16)%nat) ->
  grab_loop fuel mult b i tmp <> Fault.
Proof.
  intros Hmult. unfold NMEA_BUFFER_SIZE.
  induction fuel as [|fuel IH]; intros b i tmp Hlen Hi Hfit; [done|].
  destruct (lookup_lt_is_Some_2 b i) as [c Hc]; [lia|].
  cbn [grab_loop]. unfold rd at 1. rewrite Hc. obind.
  destruct (Ascii.eqb c NUL) eqn:Hnul; [done|].
  destruct (Ascii.eqb c "."%char) eqn:Hdot.
  - destruct (mult =? 0)%nat eqn:Hm; [done|].
    apply Nat.eqb_neq in Hm. assert (mult = 1%nat) as -> by lia.
    assert (Hfit0 : (i + 0 + 2 < 16)%nat).
    { apply Hfit; [done|]. rewrite (first_dot_drop _ _ _ Hc). by rewrite Hnul, Hdot. }
    rewrite wr_in_range by lia. obind.
    unfold grab_tail, rd. rewrite list_lookup_insert_ne by lia.
    destruct (lookup_lt_is_Some_2 b (S i)) as [d Hd]; [lia|].
    rewrite Hd. obind.
    destruct (15 <=? S i)%nat; [done|].
    rewrite grab_loop_at_nul; [by destruct fuel|].
    replace (S (S i)) with (S i + 1)%nat by lia. apply list_lookup_insert_eq; lia.
  - unfold grab_tail, rd. rewrite Hc. obind.
    destruct (15 <=? i)%nat eqn:Hb; [done|].
    apply Nat.leb_gt in Hb.
    apply IH; [done|lia|].
    intros Hm p Hp. specialize (Hfit Hm (S p)).
    rewrite (first_dot_drop _ _ _ Hc), Hnul, Hdot, Hp in Hfit.
    specialize (Hfit eq_refl). lia.
Qed.

Lemma grab_loop_overflows p : forall fuel (b : list ascii) i tmp,
  length b = NMEA_BUFFER_SIZE -> first_dot (drop i b) = Some p ->
  (16 <= i + p + 2)%nat -> (p < fuel)%nat ->
  grab_loop fuel 1 b i tmp = Fault.
Proof.
  unfold NMEA_BUFFER_SIZE.
  induction p as [|p IH]; intros fuel b i tmp Hlen Hp Hover Hfuel;
    (destruct fuel as [|fuel]; [lia|]);
    pose proof (first_dot_lt _ _ Hp) as Hin; rewrite length_drop in Hin;
    (destruct (lookup_lt_is_Some_2 b i) as [c Hc]; [lia|]);
    rewrite (first_dot_drop _ _ _ Hc) in Hp;
    cbn [grab_loop]; unfold rd at 1; rewrite Hc; obind;
    (destruct (Ascii.eqb c NUL) eqn:Hnul; [done|]);
    (destruct (Ascii.eqb c "."%char) eqn:Hdot).
  - change (1 =? 0)%nat with false. cbn iota.
    unfold wr. destruct decide as [Hlt|]; [lia|done].
  - by destruct (first_dot (drop (S i) b)).
  - by injection Hp.
  - destruct (first_dot (drop (S i) b)) as [q|] eqn:Hq; [|done].
    injection Hp as ->.
    unfold grab_tail, rd. rewrite Hc. obind.
    assert ((15 <=? i)%nat = false) as -> by (apply Nat.leb_gt; lia).
    apply (IH fuel b (S i)); try done; lia.
Qed.

Lemma grab_fields_faults (src : list ascii) (mult : nat) :
  length src = NMEA_BUFFER_SIZE -> (mult <= 1)%nat ->
  (grab_fields src mult = Fault <-> mult = 1%nat /\ decimal_fits src = false).
Proof.
  intros Hlen Hmult. unfold decimal_fits, grab_fields. split.
  - intros HF.
    destruct (decide (mult = 1%nat)) as [->|Hm].
    + split; [done|].
      destruct (first_dot src) as [p|] eqn:Hp; [|exfalso].
      * apply Nat.ltb_ge. unfold NMEA_BUFFER_SIZE.
        destruct (decide (16 <= p + 2)%nat); [done|exfalso].
        revert HF. apply grab_loop_no_fault; [done|done|lia|].
        intros _ q Hq. rewrite drop_0, Hp in Hq. injection Hq as <-. lia.
      * revert HF. apply grab_loop_no_fault; [done|done|lia|].
        intros _ q Hq. by rewrite drop_0, Hp in Hq.
    + exfalso. revert HF. apply grab_loop_no_fault; [done|done|lia|]. done.
  - intros [-> Hfit].
    destruct (first_dot src) as [p|] eqn:Hp; [|done].
    apply Nat.ltb_ge in Hfit. unfold NMEA_BUFFER_SIZE in Hfit.
    pose proof (first_dot_lt _ _ Hp) as Hlt. rewrite Hlen in Hlt.
    unfold NMEA_BUFFER_SIZE in Hlt.
    apply (grab_loop_overflows p); [done|by rewrite drop_0|lia|lia].
Qed.

Lemma grab_fields_cases (src : list ascii) (mult : nat) :
  length src = NMEA_BUFFER_SIZE -> (mult <= 1)%nat ->
  match grab_fields src mult with
  | Ret (v, src') => mult = 0%nat \/ decimal_fits src = true
  | Fault => mult = 1%nat /\ decimal_fits src = false
  | Timeout => False
  end.
Proof.
  intros Hlen Hmult. pose proof (grab_fields_faults src mult Hlen Hmult) as [F1 F2].
  destruct (grab_fields src mult) as [[v src']| |] eqn:E.
  - destruct (decide (mult = 0%nat)) as [|Hm]; [by left|right].
    destruct (decimal_fits src); [done|].
    assert (mult = 1%nat) as Hm1 by lia. by specialize (F2 (conj Hm1 eq_refl)).
  - by apply F1.
  - by apply grab_fields_budget in E.
Qed.

(** X3.  On an array of sixteen bytes, terminated or not, and with at most
    one fractional digit, the decoder leaves the array exactly when it is
    asked for a fractional digit and the first decimal point of the string
    sits in one of the last two places, so that the byte it clears lies
    behind the array.  Asked for no fractional digit it always returns, and
    returns the array as it was. *)
Theorem grab_fields_fault_iff (src : list ascii) (mult : nat) :
  length src = NMEA_BUFFER_SIZE -> (mult <= 1)%nat ->
  (grab_fields src mult = Fault <-> mult = 1%nat /\ decimal_fits src = false)
  /\ (mult = 0%nat -> exists v, grab_fields src mult = Ret (v, src)).
Proof.
  intros Hlen Hmult. split; [by apply grab_fields_faults|].
  intros ->. pose proof (grab_fields_cases src 0 Hlen Hmult) as C.
  destruct (grab_fields src 0) as [[v src']| |] eqn:E.
  - exists v. apply grab_loop_frame in E as (_ & _ & _ & Hsame & _).
    by rewrite Hsame.
  - by destruct C.
  - done.
Qed.

(** ** Further properties of the parser *)

Section ParserBounds.

Variable GPS_coord_to_degrees : list ascii -> Z.
Variable gpsConstrainHDOP : Z -> Z.
Variable gpsConstrainEPE : Z -> Z.
Variable GPS_HDOP_TO_EPH_MULTIPLIER : Z.

#[local] Abbreviation step := (gpsNewFrameNMEA GPS_coord_to_degrees gpsConstrainHDOP
                    gpsConstrainEPE GPS_HDOP_TO_EPH_MULTIPLIER).
#[local] Abbreviation run := (feed GPS_coord_to_degrees gpsConstrainHDOP
                   gpsConstrainEPE GPS_HDOP_TO_EPH_MULTIPLIER).

Lemma parse_field_cases frame p (s : list ascii) m :
  length s = NMEA_BUFFER_SIZE ->
  match parse_field GPS_coord_to_degrees frame p s m with
  | Ret r => decodes_fraction frame p = false \/ decimal_fits s = true
  | Fault => decodes_fraction frame p = true /\ decimal_fits s = false
  | Timeout => False
  end.
Proof.
  intros Hlen.
  destruct (lookup_lt_is_Some_2 s 0%nat) as [c0 Hc0];
    [rewrite Hlen; unfold NMEA_BUFFER_SIZE; lia|].
  pose proof (grab_fields_cases s 0 Hlen ltac:(lia)) as G0.
  pose proof (grab_fields_cases s 1 Hlen ltac:(lia)) as G1.
  unfold parse_field, rd. rewrite Hc0.
  destruct frame; [by left| |];
    (destruct p as [|p|p]; [by left| |by left];
     do 4 (try destruct p as [p|p|]); try (by left);
     first
       [ destruct (grab_fields s 0) as [[v b]| |]; obind;
         [by left|by destruct G0|done]
       | destruct (grab_fields s 1) as [[v b]| |]; obind;
         [destruct G1 as [|G1]; [done|by right] | by destruct G1 | done] ]).
Qed.

Lemma first_dot_at (l : list ascii) p :
  first_dot l = Some p ->
  l !! p = Some "."%char /\ forall j, (j < p)%nat -> l !! j <> Some NUL.
Proof.
  revert p. induction l as [|c l IH]; intros p H; [done|].
  cbn [first_dot] in H.
  destruct (Ascii.eqb c NUL) eqn:Hn; [done|].
  destruct (Ascii.eqb c "."%char) eqn:Hd.
  - injection H as <-. apply Ascii.eqb_eq in Hd as ->. split; [done|]. lia.
  - destruct (first_dot l) as [q|]; [|done]. injection H as <-.
    destruct (IH q eq_refl) as [Hq Hj]. split; [done|].
    intros [|j] Hlt; cbn.
    + intros [= ->]. done.
    + apply Hj. lia.
Qed.

(** The only way a field can fail to fit: it has filled the array and its
    fifteenth byte is the first decimal point. *)
Lemma decimal_fits_false (s : list ascii) o :
  length s = NMEA_BUFFER_SIZE -> (o <= 15)%nat ->
  decimal_fits (<[o := NUL]> s) = false ->
  o = 15%nat /\ s !! 14%nat = Some "."%char.
Proof.
  unfold NMEA_BUFFER_SIZE. intros Hlen Ho Hfit. unfold decimal_fits in Hfit.
  destruct (first_dot (<[o:=NUL]> s)) as [p|] eqn:Hp; [|done].
  apply Nat.ltb_ge in Hfit. unfold NMEA_BUFFER_SIZE in Hfit.
  pose proof (first_dot_lt _ _ Hp) as Hlt. rewrite length_insert, Hlen in Hlt.
  destruct (first_dot_at _ _ Hp) as [Hdot Hnul].
  assert (Hpo : (p < o)%nat).
  { destruct (decide (p < o)%nat); [done|exfalso].
    destruct (decide (p = o)) as [->|].
    - rewrite list_lookup_insert_eq in Hdot by lia. by injection Hdot.
    - apply (Hnul o); [lia|]. apply list_lookup_insert_eq. lia. }
  assert (p = 14%nat) as -> by lia. split; [lia|].
  by rewrite list_lookup_insert_ne in Hdot by lia.
Qed.

Lemma decodes_fraction_zero fr : decodes_fraction fr 0 = false.
Proof. by destruct fr. Qed.

(** One call of the parser from a state with the array at its length and
    the cursor inside it: how it can end. *)
Lemma step_outcome (c : ascii) (w : world) :
  length (str w) = NMEA_BUFFER_SIZE -> (offset w <= 15)%nat ->
  let overflow :=
    is_separator c /\ decodes_fraction (gps_frame w) (param w) = true
    /\ decimal_fits (<[offset w := NUL]> (str w)) = false in
  match step c w with
  | Ret (ok, w') =>
      ~ overflow /\ length (str w') = NMEA_BUFFER_SIZE /\ (offset w' <= 15)%nat
  | Fault =>
      overflow /\ offset w = 15%nat /\ str w !! 14%nat = Some "."%char
  | Timeout => False
  end.
Proof.
  intros Hlen Ho overflow.
  destruct (step c w) as [[ok w']| |] eqn:E.
  - split; [|by eapply step_invariant].
    intros (Hsep & Hdec & Hfit).
    unfold gpsNewFrameNMEA in E.
    assert (Ascii.eqb c "$"%char = false) as Hd by (by destruct Hsep as [-> | ->]).
    assert (Ascii.eqb c ","%char || Ascii.eqb c "*"%char = true) as Hs
      by (by destruct Hsep as [-> | ->]).
    rewrite Hd, Hs in E. unfold on_separator in E.
    rewrite wr_in_range in E by (rewrite Hlen; unfold NMEA_BUFFER_SIZE; lia).
    cbn [mbind outcome_bind] in E.
    destruct (param w =? 0) eqn:Hp0.
    { apply Z.eqb_eq in Hp0. rewrite Hp0, decodes_fraction_zero in Hdec. done. }
    pose proof (parse_field_cases (gps_frame w) (param w)
                  (<[offset w := NUL]> (str w)) (gps_Msg w)) as C.
    rewrite length_insert in C. specialize (C Hlen).
    destruct (parse_field _ _ _ _ _) as [r| |]; cbn [mbind outcome_bind] in E;
      try discriminate.
    destruct C as [C|C]; congruence.
  - unfold gpsNewFrameNMEA in E.
    destruct (Ascii.eqb c "$"%char) eqn:Hd; [done|].
    destruct (Ascii.eqb c ","%char || Ascii.eqb c "*"%char) eqn:Hs.
    + assert (Hsep : is_separator c).
      { apply orb_true_iff in Hs as [H|H]; apply Ascii.eqb_eq in H; [by left|by right]. }
      unfold on_separator in E.
      rewrite wr_in_range in E by (rewrite Hlen; unfold NMEA_BUFFER_SIZE; lia).
      cbn [mbind outcome_bind] in E.
      pose proof (parse_field_cases
                    (if param w =? 0 then identify (cstr (<[offset w := NUL]> (str w)))
                     else gps_frame w)
                    (param w) (<[offset w := NUL]> (str w)) (gps_Msg w)) as C.
      rewrite length_insert in C. specialize (C Hlen).
      destruct (parse_field _ _ _ _ _) as [r| |]; cbn [mbind outcome_bind] in E;
        try discriminate.
      destruct C as [Hdec Hfit].
      destruct (param w =? 0) eqn:Hp0.
      { apply Z.eqb_eq in Hp0. rewrite Hp0, decodes_fraction_zero in Hdec. done. }
      split; [done|]. by apply decimal_fits_false.
    + destruct (Ascii.eqb c CR || Ascii.eqb c LF).
      * unfold on_line_end in E. destruct (checksum_param w); [|done].
        destruct (lookup_lt_is_Some_2 (str w) 0%nat) as [c0 Hc0];
          [rewrite Hlen; unfold NMEA_BUFFER_SIZE; lia|].
        destruct (lookup_lt_is_Some_2 (str w) 1%nat) as [c1 Hc1];
          [rewrite Hlen; unfold NMEA_BUFFER_SIZE; lia|].
        unfold rd in E. rewrite Hc0, Hc1 in E. cbn [mbind outcome_bind] in E.
        destruct (_ =? _); [|done]. by destruct (gps_frame w).
      * unfold on_other in E. destruct (_ <? _)%nat eqn:Hlt; [|done].
        apply Nat.ltb_lt in Hlt. unfold NMEA_BUFFER_SIZE in Hlt.
        rewrite wr_in_range in E by (rewrite Hlen; unfold NMEA_BUFFER_SIZE; lia).
        done.
  - unfold gpsNewFrameNMEA in E.
    destruct (Ascii.eqb c "$"%char); [done|].
    destruct (Ascii.eqb c ","%char || Ascii.eqb c "*"%char).
    + unfold on_separator in E.
      destruct (wr _ _ _) as [s1| |] eqn:Ew; cbn [mbind outcome_bind] in E;
        try discriminate.
      * pose proof (parse_field_cases
                      (if param w =? 0 then identify (cstr s1) else gps_frame w)
                      (param w) s1 (gps_Msg w)) as C.
        apply wr_Ret in Ew as [_ ->]. rewrite length_insert in C. specialize (C Hlen).
        destruct (parse_field _ _ _ _ _) as [r| |]; cbn [mbind outcome_bind] in E;
          try discriminate; done.
      * unfold wr in Ew. by destruct decide.
    + destruct (Ascii.eqb c CR || Ascii.eqb c LF).
      * unfold on_line_end in E. destruct (checksum_param w); [|done].
        unfold rd in E.
        destruct (_ !! 0%nat); cbn [mbind outcome_bind] in E; [|done].
        destruct (_ !! 1%nat); cbn [mbind outcome_bind] in E; [|done].
        destruct (_ =? _); [|done]. by destruct (gps_frame w).
      * unfold on_other in E. destruct (_ <? _)%nat; [|done].
        unfold wr in E. by destruct decide.
Qed.

(** X4.  One call of the parser, from a state with the array at its length
    and the cursor inside it.  The call never exhausts the model's budget.
    It leaves the array in exactly one case: a separator closes a field
    that is decoded with a fractional digit and the byte to clear lies
    behind the array, which happens only when the field has filled the
    array and its fifteenth byte is its first decimal point.  In every
    other case the call returns, with the array at its length and the
    cursor inside it. *)
Theorem gpsNewFrameNMEA_stays_in_array (c : ascii) (w : world) :
  length (str w) = NMEA_BUFFER_SIZE -> (offset w <= 15)%nat ->
  let overflow :=
    is_separator c /\ decodes_fraction (gps_frame w) (param w) = true
    /\ decimal_fits (<[offset w := NUL]> (str w)) = false in
  (step c w = Fault <-> overflow)
  /\ (overflow -> offset w = 15%nat /\ str w !! 14%nat = Some "."%char)
  /\ step c w <> Timeout
  /\ (forall ok w', step c w = Ret (ok, w') ->
        length (str w') = NMEA_BUFFER_SIZE /\ (offset w' <= 15)%nat).
Proof.
  intros Hlen Ho overflow.
  pose proof (step_outcome c w Hlen Ho) as C. cbv zeta in C. fold overflow in C.
  destruct (step c w) as [[ok w']| |] eqn:E.
  - destruct C as (Hno & Hinv).
    split; [split; [discriminate|by intros ?]|].
    split; [by intros ?|]. split; [discriminate|].
    intros ok' w'' [= <- <-]. exact Hinv.
  - destruct C as (Hov & Hfull).
    split; [by split|]. split; [by intros _|]. split; [discriminate|].
    intros ok' w'' [=].
  - done.
Qed.

(** *** Counting: signals, packets, errors *)

Lemma occurrences_cons x c l :
  occurrences x (c :: l) = ((if Ascii.eqb c x then 1 else 0) + occurrences x l)%nat.
Proof.
  unfold occurrences. cbn [count_occ].
  destruct (ascii_dec c x) as [->|Hne].
  - by rewrite Ascii.eqb_refl.
  - apply Ascii.eqb_neq in Hne. by rewrite Hne.
Qed.

Lemma frames_cons b l :
  frames (b :: l) = ((if b then 1 else 0) + frames l)%nat.
Proof. unfold frames. cbn [count_occ]. by destruct b. Qed.

(** What one call does to the counters. *)
Lemma step_accounting c w ok w' :
  step c w = Ret (ok, w') ->
  (packetCount (gpsStats w) + (if ok then 1 else 0) <= packetCount (gpsStats w'))%N
  /\ (errors (gpsStats w) <= errors (gpsStats w'))%N
  /\ (counted w' + open_checksum w'
      <= counted w + open_checksum w + (if Ascii.eqb c "*"%char then 1 else 0))%N
  /\ (counted w'
      <= counted w + (if Ascii.eqb c CR || Ascii.eqb c LF then 1 else 0))%N
  /\ (packetCount (gpsStats w') = packetCount (gpsStats w) -> gpsSol w' = gpsSol w).
Proof.
  unfold gpsNewFrameNMEA, counted, open_checksum. intros H.
  destruct (Ascii.eqb c "$"%char) eqn:Hd.
  { injection H as <- <-. cbn. apply Ascii.eqb_eq in Hd as ->.
    change (Ascii.eqb "$" "*") with false.
    change (Ascii.eqb "$" CR || Ascii.eqb "$" LF) with false.
    destruct (checksum_param w); repeat split; lia. }
  destruct (Ascii.eqb c ","%char || Ascii.eqb c "*"%char) eqn:Hs.
  { unfold on_separator in H.
    destruct (wr _ _ _); cbn [mbind outcome_bind] in H; try discriminate.
    destruct (parse_field _ _ _ _ _); cbn [mbind outcome_bind] in H; try discriminate.
    injection H as <- <-. cbn.
    assert (Ascii.eqb c CR || Ascii.eqb c LF = false) as ->.
    { apply orb_true_iff in Hs as [E|E]; apply Ascii.eqb_eq in E as ->; done. }
    destruct (Ascii.eqb c "*"%char), (checksum_param w); repeat split; lia. }
  destruct (Ascii.eqb c CR || Ascii.eqb c LF) eqn:Hl.
  { assert (Ascii.eqb c "*"%char = false) as ->.
    { apply orb_true_iff in Hl as [E|E]; apply Ascii.eqb_eq in E as ->; done. }
    unfold on_line_end in H.
    destruct (checksum_param w).
    2:{ injection H as <- <-. cbn. repeat split; lia. }
    destruct (rd _ 0%nat); cbn [mbind outcome_bind] in H; try discriminate.
    destruct (rd _ 1%nat); cbn [mbind outcome_bind] in H; try discriminate.
    destruct (_ =? _).
    2:{ injection H as <- <-. cbn. repeat split; lia. }
    destruct (gps_frame w); injection H as <- <-; cbn; repeat split; lia. }
  apply orb_false_elim in Hs as [_ Hstar]. rewrite Hstar.
  unfold on_other in H. destruct (_ <? _)%nat.
  2:{ injection H as <- <-. repeat split; lia. }
  destruct (wr _ _ _); cbn [mbind outcome_bind] in H; try discriminate.
  injection H as <- <-. cbn. repeat split; lia.
Qed.

(** X5.  The books of the parser over any stream of bytes.  Every
    frame-ready signal is matched by a counted packet; neither counter goes
    down; a sentence is counted, as a packet or as an error, at most once
    per ['*'] (plus one for a checksum already open) and at most once per
    line-end byte; and [gpsSol] changes only when a packet is counted. *)
Theorem parser_accounting (bytes : list ascii) : forall (w : world) signals w',
  run bytes w = Ret (signals, w') ->
  (packetCount (gpsStats w) + N.of_nat (frames signals) <= packetCount (gpsStats w'))%N
  /\ (errors (gpsStats w) <= errors (gpsStats w'))%N
  /\ (counted w' + open_checksum w'
      <= counted w + open_checksum w + N.of_nat (occurrences "*"%char bytes))%N
  /\ (counted w' <= counted w + N.of_nat (line_ends bytes))%N
  /\ (packetCount (gpsStats w') = packetCount (gpsStats w) -> gpsSol w' = gpsSol w).
Proof.
  induction bytes as [|c bytes IH]; intros w signals w' H.
  { injection H as <- <-. cbn. repeat split; lia. }
  cbn [feed] in H.
  destruct (step c w) as [[ok w1]| |] eqn:E; cbn [mbind outcome_bind fst snd] in H;
    try discriminate.
  destruct (run bytes w1) as [[l w2]| |] eqn:E2; cbn [mbind outcome_bind] in H;
    try discriminate.
  injection H as <- <-. cbn [fst snd].
  apply step_accounting in E as (P1 & E1 & S1 & L1 & G1).
  apply IH in E2 as (P2 & E2 & S2 & L2 & G2).
  unfold line_ends in *. rewrite !occurrences_cons, frames_cons.
  repeat split.
  - destruct ok; lia.
  - lia.
  - destruct (Ascii.eqb c "*"%char); lia.
  - destruct (Ascii.eqb c CR), (Ascii.eqb c LF); cbn [orb] in L1; lia.
  - intros Heq.
    assert (packetCount (gpsStats w1) = packetCount (gpsStats w)) as Hw1
      by (destruct ok; lia).
    rewrite G2 by lia. by apply G1.
Qed.

(** X6.  Bytes without a ['*'], fed to a parser that has no checksum open:
    whatever else they hold (sentence starts, commas, line ends), no call
    raises the signal, nothing is counted and nothing is committed.  A
    sentence that comes without a checksum is dropped without a trace. *)
Theorem no_checksum_no_effect (bytes : list ascii) : forall (w : world) signals w',
  occurrences "*"%char bytes = 0%nat -> checksum_param w = false ->
  run bytes w = Ret (signals, w') ->
  signals = repeat false (length bytes)
  /\ gpsSol w' = gpsSol w /\ gpsStats w' = gpsStats w
  /\ checksum_param w' = false.
Proof.
  induction bytes as [|c bytes IH]; intros w signals w' Hstar Hcp H.
  { by injection H as <- <-. }
  rewrite occurrences_cons in Hstar.
  destruct (Ascii.eqb c "*"%char) eqn:Hc; [lia|]. cbn [Nat.add] in Hstar.
  cbn [feed] in H.
  destruct (step c w) as [[ok w1]| |] eqn:E; cbn [mbind outcome_bind fst snd] in H;
    try discriminate.
  destruct (run bytes w1) as [[l w2]| |] eqn:E2; cbn [mbind outcome_bind] in H;
    try discriminate.
  injection H as <- <-. cbn [fst snd].
  apply step_accounting in E as (P1 & E1 & S1 & _ & G1).
  rewrite Hc in S1. unfold counted, open_checksum in S1. rewrite Hcp in S1.
  assert (Hcp1 : checksum_param w1 = false).
  { destruct (checksum_param w1); [lia|done]. }
  rewrite Hcp1 in S1.
  assert (Hok : ok = false) by (destruct ok; [lia|done]).
  assert (Hp : packetCount (gpsStats w1) = packetCount (gpsStats w))
    by (subst ok; lia).
  assert (He : errors (gpsStats w1) = errors (gpsStats w)) by lia.
  apply IH in E2 as (-> & Hs2 & Ht2 & Hc2); [|done|done].
  subst ok. cbn [length repeat]. split; [done|].
  split; [rewrite Hs2; by apply G1|].
  split; [|done].
  rewrite Ht2. destruct (gpsStats w1), (gpsStats w). cbn in Hp, He. by subst.
Qed.

(** X7.  What the frame-ready signal means.  A call returns it only for a
    line-end byte that closes a fix-data sentence whose checksum
    characters match the running exclusive-or; the sentence has then been
    counted as a packet, the pending record has been committed to
    [gpsSol], the capture mode is left, and nothing else has changed.  No
    other byte and no other kind of sentence raises it. *)
Theorem frame_ready_means_GGA_committed (c : ascii) (w w' : world) :
  step c w = Ret (true, w') ->
  (c = CR \/ c = LF)
  /\ checksum_param w = true /\ gps_frame w = FRAME_GGA
  /\ (exists c0 c1, str w !! 0%nat = Some c0 /\ str w !! 1%nat = Some c1
                    /\ wrap8 (16 * hexval c0 + hexval c1) = parity w)
  /\ w' = mkWorld (gps_Msg w) (param w) (offset w) (parity w) (str w) false FRAME_GGA
                  (commit_GGA gpsConstrainHDOP gpsConstrainEPE
                              GPS_HDOP_TO_EPH_MULTIPLIER (gps_Msg w) (gpsSol w))
                  (count_packet (gpsStats w)).
Proof.
  unfold gpsNewFrameNMEA. intros H.
  destruct (Ascii.eqb c "$"%char); [discriminate|].
  destruct (Ascii.eqb c ","%char || Ascii.eqb c "*"%char).
  { unfold on_separator in H.
    destruct (wr _ _ _); cbn [mbind outcome_bind] in H; try discriminate.
    destruct (parse_field _ _ _ _ _); cbn [mbind outcome_bind] in H; discriminate. }
  destruct (Ascii.eqb c CR || Ascii.eqb c LF) eqn:Hend.
  - split.
    { apply orb_true_iff in Hend as [E|E]; apply Ascii.eqb_eq in E; auto. }
    unfold on_line_end, rd in H.
    destruct (checksum_param w); [|discriminate]. split; [done|].
    destruct (str w !! 0%nat) as [c0|] eqn:H0; cbn [mbind outcome_bind] in H;
      [|discriminate].
    destruct (str w !! 1%nat) as [c1|] eqn:H1; cbn [mbind outcome_bind] in H;
      [|discriminate].
    destruct (_ =? _) eqn:Hck; [|discriminate]. apply Z.eqb_eq in Hck.
    destruct (gps_frame w) eqn:Hfr; try discriminate.
    injection H as <-. split; [done|]. split; [|done].
    exists c0, c1. done.
  - unfold on_other in H. destruct (_ <? _)%nat; [|discriminate].
    destruct (wr _ _ _); cbn [mbind outcome_bind] in H; discriminate.
Qed.

(** *** Sentences of other kinds, and sentences cut short *)

Lemma pend_NO_FRAME p f m : pend GPS_coord_to_degrees NO_FRAME p f m = m.
Proof. reflexivity. Qed.

Lemma fields_effect_no_frame more : forall p m,
  1 <= p -> p + Z.of_nat (length more) <= 256 ->
  exists p', fields_effect GPS_coord_to_degrees more NO_FRAME p m = (NO_FRAME, p', m)
             /\ fields_safe more NO_FRAME p = true.
Proof.
  induction more as [|f more IH]; intros p m Hlo Hp.
  - by exists p.
  - cbn [fields_effect fields_safe]. cbn [length] in Hp.
    rewrite frame_after_later by lia. rewrite pend_NO_FRAME.
    cbn [decodes_fraction andb].
    destruct more as [|f' more].
    + by eexists.
    + cbn [length] in Hp.
      assert (wrap8 (p + 1) = p + 1) as ->
        by (unfold wrap8; apply Z.mod_small; lia).
      apply IH; [lia|cbn [length]; lia].
Qed.

Lemma sentence_length ident args cks :
  length (sentence ident args cks)
  = (length (sentence_head ident args cks) + 2)%nat.
Proof. rewrite sentence_split, length_app. done. Qed.

Lemma repeat_false_snoc n : repeat false n ++ [false; false] = repeat false (n + 2).
Proof.
  change [false; false] with (repeat false 2). by rewrite repeat_false_app.
Qed.

(** X8.  A sentence that is neither fix data nor recommended minimum data
    (any identifier other than GPGGA, GNGGA, GPRMC, GNRMC), with the right
    checksum and at most 255 fields: it is counted as a packet, raises no
    signal, and changes neither [gpsSol] nor the pending record. *)
Theorem other_sentence_only_counted (w : world) (ident : list ascii)
    (args : list (list ascii)) :
  length (str w) = NMEA_BUFFER_SIZE -> checksum_param w = false ->
  Forall (fun f => field_ok f = true) (ident :: args) ->
  identify (cstr ident) = NO_FRAME -> (length args <= 255)%nat ->
  let s := sentence ident args (nmea_checksum ident args) in
  exists w',
    run s w = Ret (repeat false (length s), w')
    /\ gpsStats w' = count_packet (gpsStats w)
    /\ gpsSol w' = gpsSol w
    /\ gps_Msg w' = gps_Msg w
    /\ gps_frame w' = NO_FRAME.
Proof.
  intros Hs Hcp Hok Hid Hn s.
  apply Forall_cons in Hok as [Hident Hargs].
  destruct w as [m p o par b cp fr sol st]. cbn [str checksum_param] in *.
  subst cp.
  destruct (fields_effect_no_frame args 1 m) as (p' & E & Hsafe); [lia|lia|].
  assert (E0 : fields_effect GPS_coord_to_degrees (ident :: args) NO_FRAME 0 m
               = (NO_FRAME, p', m)).
  { cbn [fields_effect]. rewrite frame_after_zero, Hid. by rewrite pend_NO_FRAME. }
  destruct (run_sentence GPS_coord_to_degrees gpsConstrainHDOP gpsConstrainEPE
              GPS_HDOP_TO_EPH_MULTIPLIER ident args (nmea_checksum ident args)
              m p o par b false fr sol st) as (b' & L & R); try done.
  { cbn [fields_safe]. rewrite frame_after_zero, Hid. done. }
  { apply nmea_checksum_range. }
  rewrite seen_checksum_false, Z.eqb_refl, E0 in R. cbn [fst snd is_GGA andb commit] in R.
  rewrite repeat_false_snoc in R. rewrite <- sentence_length in R.
  eexists. split; [exact R|]. by cbn.
Qed.

(** X9.  The pending record outlives the sentence that filled it.  A
    fix-data sentence that stops before its second field (no field, or the
    time only) has nothing pending of its own, yet with the right checksum
    it raises the signal and commits whatever an earlier sentence left
    pending. *)
Theorem short_GGA_commits_old_pending (w : world) (ident : list ascii)
    (args : list (list ascii)) :
  length (str w) = NMEA_BUFFER_SIZE -> checksum_param w = false ->
  is_GGA_ident ident ->
  Forall (fun f => field_ok f = true) args -> (length args <= 1)%nat ->
  let cks := nmea_checksum ident args in
  exists w',
    run (sentence ident args cks) w
    = Ret (repeat false (length (sentence_head ident args cks)) ++ [true; false], w')
    /\ gpsSol w' = commit_GGA gpsConstrainHDOP gpsConstrainEPE
                              GPS_HDOP_TO_EPH_MULTIPLIER (gps_Msg w) (gpsSol w)
    /\ gps_Msg w' = gps_Msg w
    /\ gpsStats w' = count_packet (gpsStats w).
Proof.
  intros Hs Hcp Hid Hargs Hn cks.
  destruct w as [m p o par b cp fr sol st]. cbn [str checksum_param gps_Msg gpsSol] in *.
  subst cp.
  assert (E0 : exists p', fields_effect GPS_coord_to_degrees (ident :: args) NO_FRAME 0 m
                          = (FRAME_GGA, p', m)
                          /\ fields_safe (ident :: args) NO_FRAME 0 = true).
  { cbn [fields_effect fields_safe]. rewrite frame_after_zero, identify_GGA by done.
    rewrite pend_GGA_other by lia. cbn [decodes_fraction andb].
    destruct args as [|t [|? ?]]; [by eexists| |cbn [length] in Hn; lia].
    cbn [fields_effect fields_safe]. change (wrap8 (0 + 1)) with 1.
    rewrite frame_after_later by lia. rewrite pend_GGA_other by lia.
    by eexists. }
  destruct E0 as (p' & E0 & Hsafe).
  destruct (run_sentence GPS_coord_to_degrees gpsConstrainHDOP gpsConstrainEPE
              GPS_HDOP_TO_EPH_MULTIPLIER ident args cks
              m p o par b false fr sol st) as (b' & L & R); try done.
  { by apply field_ok_GGA_ident. }
  { apply nmea_checksum_range. }
  rewrite seen_checksum_false in R. fold cks in R.
  rewrite Z.eqb_refl, E0 in R. cbn [fst snd is_GGA andb commit] in R.
  eexists. split; [exact R|]. by cbn.
Qed.

(** *** The checksum characters *)

(** A sentence with any two ordinary bytes in the place of the checksum:
    it is accepted exactly when the value the line-end case gives the two
    bytes equals the running exclusive-or. *)
Lemma run_sentence_with ident args h1 h2 m p o par s cp fr sol st :
  length s = NMEA_BUFFER_SIZE ->
  field_ok ident = true -> Forall (fun f => field_ok f = true) args ->
  fields_safe (ident :: args) NO_FRAME 0 = true ->
  special h1 = false -> special h2 = false ->
  let r := fields_effect GPS_coord_to_degrees (ident :: args) NO_FRAME 0 m in
  let ok := wrap8 (16 * hexval h1 + hexval h2) =? seen_checksum cp ident args in
  exists b, length b = NMEA_BUFFER_SIZE
    /\ run (sentence_with ident args h1 h2) (mkWorld m p o par s cp fr sol st)
       = Ret (repeat false (length (body ident args) + 4) ++ [ok && is_GGA r.1.1; false],
              mkWorld r.2 r.1.2 2%nat (seen_checksum cp ident args) b false r.1.1
                      (if ok then commit gpsConstrainHDOP gpsConstrainEPE
                                         GPS_HDOP_TO_EPH_MULTIPLIER r.1.1 r.2 sol
                       else sol)
                      (if ok then count_packet st else count_error st)).
Proof.
  intros Hs Hid Hargs Hsafe Hh1 Hh2 r ok.
  pose proof (field_ok_length _ Hid) as Hidlen.
  unfold sentence_with, body.
  change ("$"%char :: (ident ++ rest_bytes args) ++ "*"%char :: h1 :: h2 :: [CR; LF])
    with (["$"%char] ++ ((ident ++ rest_bytes args)
            ++ ["*"%char] ++ [h1; h2] ++ [CR; LF])).
  rewrite (run_app GPS_coord_to_degrees gpsConstrainHDOP gpsConstrainEPE
             GPS_HDOP_TO_EPH_MULTIPLIER).
  cbn [feed]. unfold gpsNewFrameNMEA at 1.
  change (Ascii.eqb "$" "$") with true. cbn iota. obind. cbn [fst snd].
  cbn [gps_Msg str checksum_param gps_frame gpsSol gpsStats].
  rewrite <- app_assoc, (run_app GPS_coord_to_degrees gpsConstrainHDOP gpsConstrainEPE
             GPS_HDOP_TO_EPH_MULTIPLIER).
  pose proof (run_plain GPS_coord_to_degrees gpsConstrainHDOP gpsConstrainEPE
                GPS_HDOP_TO_EPH_MULTIPLIER ident m 0 0 [] s cp fr sol st
                (field_ok_plain _ Hid)) as R.
  cbn [length app Nat.add] in R. rewrite R; [|lia|unfold NMEA_BUFFER_SIZE in Hs; lia].
  clear R. obind. cbn [fst snd].
  rewrite (app_assoc (rest_bytes args)), (run_app GPS_coord_to_degrees gpsConstrainHDOP
             gpsConstrainEPE GPS_HDOP_TO_EPH_MULTIPLIER).
  destruct (run_fields GPS_coord_to_degrees gpsConstrainHDOP gpsConstrainEPE
              GPS_HDOP_TO_EPH_MULTIPLIER args ident m 0 (drop (length ident) s)
              (if cp then 0 else xor_bytes ident 0) cp fr sol st)
    as (b1 & L1 & E1); [|done|done| |].
  { rewrite length_app, length_drop. unfold NMEA_BUFFER_SIZE in *. lia. }
  { by rewrite fields_safe_start. }
  rewrite fields_effect_start in E1.
  cbv zeta in E1. rewrite E1. obind. cbn [fst snd]. clear E1. fold r.
  rewrite (run_app GPS_coord_to_degrees gpsConstrainHDOP gpsConstrainEPE
             GPS_HDOP_TO_EPH_MULTIPLIER).
  pose proof (run_plain GPS_coord_to_degrees gpsConstrainHDOP gpsConstrainEPE
                GPS_HDOP_TO_EPH_MULTIPLIER [h1; h2]
                r.2 r.1.2 (fields_parity cp args (if cp then 0 else xor_bytes ident 0))
                [] b1 true r.1.1 sol st) as R.
  cbn [length app Nat.add] in R. rewrite R; clear R;
    [|by repeat constructor|lia|unfold NMEA_BUFFER_SIZE in *; lia].
  obind. cbn [fst snd].
  cbn [feed].
  rewrite (step_line_end_checked GPS_coord_to_degrees gpsConstrainHDOP gpsConstrainEPE
             GPS_HDOP_TO_EPH_MULTIPLIER) by (by left).
  fold (seen_checksum cp ident args). fold ok.
  exists (h1 :: h2 :: drop 2 b1). split.
  { cbn [length]. rewrite length_drop. unfold NMEA_BUFFER_SIZE in *. lia. }
  destruct ok; obind; cbn [fst snd];
    rewrite (step_line_end_idle GPS_coord_to_degrees gpsConstrainHDOP gpsConstrainEPE
               GPS_HDOP_TO_EPH_MULTIPLIER) by (by right);
    obind; cbn [fst snd]; rewrite ?andb_true_l, ?andb_false_l;
    (match goal with
     | |- context [[false] ++ repeat false ?n ++ ?t] =>
         change ([false] ++ repeat false n ++ t)
           with (repeat false 1 ++ repeat false n ++ t)
     end);
    rewrite !app_assoc, !repeat_false_app, length_app.
  all: match goal with
       | |- Ret (repeat false ?a ++ _, _) = Ret (repeat false ?b ++ _, _) =>
           replace a with b by lia
       end; reflexivity.
Qed.

Lemma hexval_hex_digit_lower n :
  0 <= n < 16 -> hexval (hex_digit_lower n) = if n <? 10 then n else n + 32.
Proof.
  intros H. rewrite <- (Z2Nat.id n) by lia.
  assert (Hk : (Z.to_nat n < 16)%nat) by lia.
  revert Hk. generalize (Z.to_nat n). intros k Hk.
  do 16 (destruct k as [|k]; [reflexivity|]). lia.
Qed.

Lemma special_hex_digit_lower n : 0 <= n < 16 -> special (hex_digit_lower n) = false.
Proof.
  intros H. rewrite <- (Z2Nat.id n) by lia.
  assert (Hk : (Z.to_nat n < 16)%nat) by lia.
  revert Hk. generalize (Z.to_nat n). intros k Hk.
  do 16 (destruct k as [|k]; [reflexivity|]). lia.
Qed.

(** X10.  The checksum characters are read as upper-case hex.  A
    lower-case letter in the high place still reads right, because the
    excess of 32 is multiplied by 16 and lost in the 8-bit result: the
    sentence is accepted like its upper-case spelling.  A lower-case letter
    in the low place reads 32 too high: a sentence whose checksum is right
    but spelled that way is counted as a checksum error and nothing of it
    is committed. *)
Theorem lower_case_checksum_digits (w : world) (ident : list ascii)
    (args : list (list ascii)) :
  length (str w) = NMEA_BUFFER_SIZE -> checksum_param w = false ->
  Forall (fun f => field_ok f = true) (ident :: args) ->
  fields_safe (ident :: args) NO_FRAME 0 = true ->
  let cks := nmea_checksum ident args in
  let hi := cks / 16 in
  let lo := cks mod 16 in
  (exists signals w1 w2,
      run (sentence ident args cks) w = Ret (signals, w1)
      /\ run (sentence_with ident args (hex_digit_lower hi) (hex_digit lo)) w
         = Ret (signals, w2)
      /\ gpsStats w1 = count_packet (gpsStats w)
      /\ gpsStats w2 = gpsStats w1 /\ gpsSol w2 = gpsSol w1)
  /\ (10 <= lo ->
      exists w',
        run (sentence_with ident args (hex_digit hi) (hex_digit_lower lo)) w
        = Ret (repeat false (length (sentence ident args cks)), w')
        /\ gpsStats w' = count_error (gpsStats w)
        /\ gpsSol w' = gpsSol w).
Proof.
  intros Hs Hcp Hok Hsafe cks hi lo.
  apply Forall_cons in Hok as [Hid Hargs].
  pose proof (nmea_checksum_range ident args) as Hcks. fold cks in Hcks.
  assert (Hhi : 0 <= hi < 16)
    by (unfold hi; split; [apply Z.div_pos|apply Z.div_lt_upper_bound]; lia).
  assert (Hlo : 0 <= lo < 16) by (unfold lo; apply Z.mod_pos_bound; lia).
  assert (Hsum : cks = 16 * hi + lo) by (unfold hi, lo; apply Z.div_mod; lia).
  destruct w as [m p o par s cp fr sol st]. cbn [str checksum_param gpsStats gpsSol] in *.
  subst cp.
  assert (Hseen : seen_checksum false ident args = cks) by apply seen_checksum_false.
  split.
  - destruct (run_sentence_with ident args (hex_digit hi) (hex_digit lo)
                m p o par s false fr sol st) as (b1 & _ & R1);
      try done; try (by apply special_hex_digit).
    destruct (run_sentence_with ident args (hex_digit_lower hi) (hex_digit lo)
                m p o par s false fr sol st) as (b2 & _ & R2);
      try done; try (by apply special_hex_digit);
      try (by apply special_hex_digit_lower).
    cbv zeta in R1, R2.
    rewrite Hseen in R1, R2.
    rewrite !hexval_hex_digit in R1 by done.
    rewrite hexval_hex_digit, hexval_hex_digit_lower in R2 by done.
    assert (E1 : (wrap8 (16 * hi + lo) =? cks) = true).
    { apply Z.eqb_eq. unfold wrap8. rewrite Z.mod_small; lia. }
    assert (E2 : (wrap8 (16 * (if hi <? 10 then hi else hi + 32) + lo) =? cks) = true).
    { apply Z.eqb_eq. unfold wrap8. destruct (hi <? 10).
      - rewrite Z.mod_small; lia.
      - replace (16 * (hi + 32) + lo) with (16 * hi + lo + 2 * 256) by lia.
        rewrite Z.mod_add by lia. rewrite Z.mod_small; lia. }
    rewrite E1 in R1. rewrite E2 in R2.
    eexists _, _, _. split; [exact R1|]. split; [exact R2|]. done.
  - intros Hletter.
    destruct (run_sentence_with ident args (hex_digit hi) (hex_digit_lower lo)
                m p o par s false fr sol st) as (b1 & _ & R1);
      try done; try (by apply special_hex_digit);
      try (by apply special_hex_digit_lower).
    cbv zeta in R1. rewrite Hseen in R1.
    rewrite hexval_hex_digit, hexval_hex_digit_lower in R1 by done.
    assert ((lo <? 10) = false) as Hl by (apply Z.ltb_ge; lia).
    rewrite Hl in R1.
    assert (E1 : (wrap8 (16 * hi + (lo + 32)) =? cks) = false).
    { apply Z.eqb_neq. unfold wrap8.
      destruct (decide (16 * hi + (lo + 32) < 256)).
      - rewrite Z.mod_small; lia.
      - replace (16 * hi + (lo + 32)) with (16 * hi + lo + 32 - 256 + 1 * 256) by lia.
        rewrite Z.mod_add by lia. rewrite Z.mod_small; lia. }
    rewrite E1 in R1. cbn [andb] in R1.
    change [false; false] with (repeat false 2) in R1.
    rewrite repeat_false_app in R1.
    replace (length (body ident args) + 4 + 2)%nat
      with (length (sentence ident args cks)) in R1
      by (unfold sentence; cbn [length]; rewrite length_app; cbn [length]; lia).
    eexists. split; [exact R1|]. done.
Qed.

(** *** What a sentence start resets, and what a full array drops *)

(** X11.  A sentence is parsed the same wherever the parser stood.  Two
    states that agree on the pending record, the capture flag, [gpsSol] and
    the counters, and may differ in everything ['$'] resets or the sentence
    overwrites (field number, cursor, running exclusive-or, sentence kind,
    contents of the array), give the same signals for a whole sentence and
    end with the same records, counters, field number, exclusive-or and
    sentence kind. *)
Theorem sentence_ignores_what_dollar_resets (w1 w2 : world) (ident : list ascii)
    (args : list (list ascii)) (cks : Z) :
  length (str w1) = NMEA_BUFFER_SIZE -> length (str w2) = NMEA_BUFFER_SIZE ->
  gps_Msg w1 = gps_Msg w2 -> checksum_param w1 = checksum_param w2 ->
  gpsSol w1 = gpsSol w2 -> gpsStats w1 = gpsStats w2 ->
  Forall (fun f => field_ok f = true) (ident :: args) ->
  fields_safe (ident :: args) NO_FRAME 0 = true ->
  0 <= cks < 256 ->
  exists signals w1' w2',
    run (sentence ident args cks) w1 = Ret (signals, w1')
    /\ run (sentence ident args cks) w2 = Ret (signals, w2')
    /\ gpsSol w1' = gpsSol w2' /\ gpsStats w1' = gpsStats w2'
    /\ gps_Msg w1' = gps_Msg w2' /\ gps_frame w1' = gps_frame w2'
    /\ param w1' = param w2' /\ parity w1' = parity w2'
    /\ offset w1' = offset w2' /\ checksum_param w1' = checksum_param w2'.
Proof.
  intros Hs1 Hs2 Hm Hcp Hsol Hst Hok Hsafe Hcks.
  apply Forall_cons in Hok as [Hid Hargs].
  destruct w1 as [m1 p1 o1 par1 s1 cp1 fr1 sol1 st1].
  destruct w2 as [m2 p2 o2 par2 s2 cp2 fr2 sol2 st2].
  cbn [str gps_Msg checksum_param gpsSol gpsStats] in *. subst m2 cp2 sol2 st2.
  destruct (run_sentence GPS_coord_to_degrees gpsConstrainHDOP gpsConstrainEPE
              GPS_HDOP_TO_EPH_MULTIPLIER ident args cks m1 p1 o1 par1 s1 cp1 fr1 sol1 st1)
    as (b1 & _ & R1); try done.
  destruct (run_sentence GPS_coord_to_degrees gpsConstrainHDOP gpsConstrainEPE
              GPS_HDOP_TO_EPH_MULTIPLIER ident args cks m1 p2 o2 par2 s2 cp1 fr2 sol1 st1)
    as (b2 & _ & R2); try done.
  cbv zeta in R1, R2.
  eexists _, _, _. split; [exact R1|]. split; [exact R2|]. done.
Qed.

Lemma plain_bytes_stored f : forall m p o par (s : list ascii) cp fr sol st,
  Forall (fun c => special c = false) f ->
  length s = NMEA_BUFFER_SIZE -> (o <= 15)%nat ->
  run f (mkWorld m p o par s cp fr sol st)
  = Ret (repeat false (length f),
         mkWorld m p (Nat.min 15 (o + length f))
                 (if cp then par else xor_bytes (take (15 - o) f) par)
                 (take o s ++ take (15 - o) f ++ drop (Nat.min 15 (o + length f)) s)
                 cp fr sol st).
Proof.
  unfold NMEA_BUFFER_SIZE.
  induction f as [|c f IH]; intros m p o par s cp fr sol st Hpl Hlen Ho.
  { cbn [feed length repeat]. rewrite Nat.add_0_r, Nat.min_r by done.
    rewrite take_nil. cbn [app xor_bytes fold_left]. rewrite take_drop.
    by destruct cp. }
  apply Forall_cons in Hpl as [Hc Hpl].
  cbn [feed length]. rewrite step_plain by done. unfold on_other.
  cbn [offset str gps_Msg param parity checksum_param gps_frame gpsSol gpsStats].
  destruct (o <? NMEA_BUFFER_SIZE - 1)%nat eqn:Hlt.
  - apply Nat.ltb_lt in Hlt. unfold NMEA_BUFFER_SIZE in Hlt.
    rewrite wr_in_range by lia. obind. cbn [fst snd].
    rewrite IH; [|done|by rewrite length_insert|lia]. obind. cbn [fst snd repeat].
    f_equal. f_equal.
    replace (15 - o)%nat with (S (15 - S o)) by lia. cbn [take].
    replace (S o + length f)%nat with (o + S (length f))%nat by lia.
    f_equal.
    + destruct cp; [done|]. cbn [xor_bytes fold_left]. done.
    + rewrite (take_S_r _ _ c) by (apply list_lookup_insert_eq; lia).
      rewrite take_insert_ge by lia.
      rewrite drop_insert_lt by lia.
      rewrite <- app_assoc. done.
  - apply Nat.ltb_ge in Hlt. unfold NMEA_BUFFER_SIZE in Hlt.
    assert (o = 15%nat) as -> by lia.
    obind. cbn [fst snd]. rewrite IH by done. obind. cbn [fst snd repeat].
    rewrite ?Nat.min_l by lia. rewrite ?Nat.sub_diag, ?take_0. done.
Qed.

(** X12.  Ordinary bytes (anything but ['$'], the separators and the line
    ends) are stored at the cursor and folded into the exclusive-or only
    while fewer than fifteen bytes of the field are stored; the bytes
    beyond the fifteenth are dropped without a trace: not stored, not
    folded in, no signal, no error.  The array keeps its last byte. *)
Theorem long_field_bytes_dropped (f : list ascii) (w : world) :
  Forall (fun c => special c = false) f ->
  length (str w) = NMEA_BUFFER_SIZE -> (offset w <= 15)%nat ->
  exists w',
    run f w = Ret (repeat false (length f), w')
    /\ offset w' = Nat.min 15 (offset w + length f)
    /\ parity w'
       = (if checksum_param w then parity w
          else xor_bytes (take (15 - offset w) f) (parity w))
    /\ str w'
       = take (offset w) (str w) ++ take (15 - offset w) f
           ++ drop (Nat.min 15 (offset w + length f)) (str w)
    /\ str w' !! 15%nat = str w !! 15%nat
    /\ gps_Msg w' = gps_Msg w /\ param w' = param w
    /\ checksum_param w' = checksum_param w /\ gps_frame w' = gps_frame w
    /\ gpsSol w' = gpsSol w /\ gpsStats w' = gpsStats w.
Proof.
  intros Hpl Hlen Ho. destruct w as [m p o par s cp fr sol st].
  cbn [str offset parity checksum_param gps_Msg param gps_frame gpsSol gpsStats] in *.
  eexists. split; [by apply plain_bytes_stored|].
  cbn [str offset parity checksum_param gps_Msg param gps_frame gpsSol gpsStats].
  repeat split; try done.
  unfold NMEA_BUFFER_SIZE in Hlen.
  assert (Hk : (length (take o s ++ take (15 - o) f) = Nat.min 15 (o + length f))%nat).
  { rewrite length_app, !length_take. lia. }
  rewrite app_assoc, lookup_app_r by lia. rewrite Hk.
  rewrite lookup_drop. f_equal. lia.
Qed.

(** *** A whole epoch, the altitude, and bytes behind the checksum *)

Lemma first_dot_digits ip (rest : list ascii) :
  all_digits ip = true -> first_dot (ip ++ "."%char :: rest) = Some (length ip).
Proof.
  induction ip as [|c ip IH]; intros H; [done|].
  apply all_digits_cons in H as [Hc H]. apply is_digit_plain in Hc as [Hn Hd].
  cbn [app first_dot length]. rewrite eqb_NUL_false by done.
  assert (Ascii.eqb c "."%char = false) as -> by (by apply Ascii.eqb_neq).
  by rewrite IH.
Qed.

(** The value of a field [ip.fp] decoded with one fractional digit: the
    tenths. *)
Lemma decode_field_tenths ip fp :
  all_digits ip = true -> all_digits fp = true -> fp <> [] ->
  (length (ip ++ "."%char :: fp) <= 15)%nat ->
  decimal_fits (ip ++ "."%char :: fp) = true ->
  decode_field (ip ++ "."%char :: fp) 1 = wrap32 (decimal (ip ++ take 1 fp) 0).
Proof.
  intros Hip Hfp Hne Hlen Hfit.
  unfold decimal_fits in Hfit. rewrite first_dot_digits in Hfit by done.
  apply Nat.ltb_lt in Hfit. unfold NMEA_BUFFER_SIZE in Hfit.
  unfold decode_field. rewrite in_array_eq by done.
  rewrite <- app_assoc. cbn [app].
  rewrite grab_fields_fraction_value; try done; try lia.
  - assert (Hl : length (ip ++ "."%char :: fp) = (length ip + S (length fp))%nat)
      by (by rewrite length_app).
    rewrite length_app. cbn [length]. rewrite length_app. cbn [length].
    rewrite repeat_length. lia.
Qed.

Lemma wrap16_times_ten z : wrap16 (wrap32 (wrap32 z * 10)) = (10 * z) mod 65536.
Proof.
  unfold wrap16, wrap32.
  assert (D : (65536 | 4294967296)) by (exists 65536; lia).
  rewrite Z.mod_mod_divide by exact D.
  rewrite Z.mul_mod by lia.
  rewrite Z.mod_mod_divide by exact D.
  rewrite <- Z.mul_mod by lia. f_equal. lia.
Qed.

(** X13.  The altitude of a fix-data sentence is committed in centimetres,
    from the metres and the first fractional digit of the field, in 16
    bits: [gpsSol.llh.alt] is ten times the tenths of a metre modulo 65536.
    It is the altitude of the sentence exactly when that is at most
    655.3 m; above that it wraps round. *)
Theorem gga_altitude_wraps (w : world)
    (ident time lat ns lon ew fixq nsat hdop ip fp : list ascii)
    (more : list (list ascii)) :
  let alt := ip ++ "."%char :: fp in
  let tenths := decimal (ip ++ take 1 fp) 0 in
  length (str w) = NMEA_BUFFER_SIZE -> checksum_param w = false ->
  is_GGA_ident ident ->
  Forall (fun f => field_ok f = true)
         (time :: lat :: ns :: lon :: ew :: fixq :: nsat :: hdop :: alt :: more) ->
  (length more <= 246)%nat ->
  decimal_fits hdop = true -> decimal_fits alt = true ->
  all_digits ip = true -> all_digits fp = true -> fp <> [] ->
  gga_fix fixq = true ->
  let args := time :: lat :: ns :: lon :: ew :: fixq :: nsat :: hdop :: alt :: more in
  exists w',
    run (sentence ident args (nmea_checksum ident args)) w
    = Ret (repeat false (length (sentence_head ident args (nmea_checksum ident args)))
             ++ [true; false], w')
    /\ llh_alt (gpsSol w') = (10 * tenths) mod 65536
    /\ (llh_alt (gpsSol w') = 10 * tenths <-> tenths <= 6553).
Proof.
  intros alt tenths Hs Hcp Hid Hok Hmore Hh Ha Hip Hfp Hne Hfix args.
  destruct (run_GGA GPS_coord_to_degrees gpsConstrainHDOP gpsConstrainEPE
              GPS_HDOP_TO_EPH_MULTIPLIER w ident time lat ns lon ew fixq nsat hdop alt
              more Hs Hcp Hid Hok Hmore Hh Ha) as (w' & R & Hsol & _).
  exists w'. split; [exact R|].
  assert (Hlen : (length alt <= 15)%nat).
  { apply field_ok_length. rewrite Forall_forall in Hok. apply Hok.
    unfold alt. repeat (first [apply list_elem_of_here | apply list_elem_of_further]). }
  assert (Halt : llh_alt (gpsSol w') = (10 * tenths) mod 65536).
  { rewrite Hsol. unfold commit_GGA, gga_pending. cbn [fix_]. rewrite Hfix.
    cbn [llh_alt altitude]. unfold gga_altitude, alt.
    rewrite decode_field_tenths by done. apply wrap16_times_ten. }
  split; [exact Halt|]. rewrite Halt.
  assert (Hpos : 0 <= tenths).
  { unfold tenths.
    destruct (decimal_bounds (ip ++ take 1 fp) 0) as [L _]; [|lia|lia].
    unfold all_digits. rewrite forallb_app. apply andb_true_iff. split; [done|].
    by apply all_digits_take. }
  split.
  - intros E. pose proof (Z.mod_pos_bound (10 * tenths) 65536 ltac:(lia)). lia.
  - intros Hle. apply Z.mod_small. lia.
Qed.

(** X14.  A whole epoch.  A fix-data sentence followed by a
    recommended-minimum-data sentence, both with the right checksum: the
    signal is raised once, at the CR of the first; two packets are
    counted; and [gpsSol] holds the commit of the second on top of the
    commit of the first, so position, altitude and fix come from the first
    sentence, speed and course from the second. *)
Theorem gga_then_rmc (w : world)
    (identG time lat ns lon ew fixq nsat hdop alt : list ascii)
    (moreG : list (list ascii))
    (identR a1 a2 a3 a4 a5 a6 spd crs : list ascii) (moreR : list (list ascii)) :
  length (str w) = NMEA_BUFFER_SIZE -> checksum_param w = false ->
  is_GGA_ident identG ->
  Forall (fun f => field_ok f = true)
         (time :: lat :: ns :: lon :: ew :: fixq :: nsat :: hdop :: alt :: moreG) ->
  (length moreG <= 246)%nat ->
  decimal_fits hdop = true -> decimal_fits alt = true ->
  is_RMC_ident identR ->
  Forall (fun f => field_ok f = true)
         (a1 :: a2 :: a3 :: a4 :: a5 :: a6 :: spd :: crs :: moreR) ->
  (length moreR <= 247)%nat ->
  decimal_fits spd = true -> decimal_fits crs = true ->
  let argsG := time :: lat :: ns :: lon :: ew :: fixq :: nsat :: hdop :: alt :: moreG in
  let argsR := a1 :: a2 :: a3 :: a4 :: a5 :: a6 :: spd :: crs :: moreR in
  let sG := sentence identG argsG (nmea_checksum identG argsG) in
  let sR := sentence identR argsR (nmea_checksum identR argsR) in
  let mG := gga_pending GPS_coord_to_degrees lat ns lon ew fixq nsat hdop alt (gps_Msg w) in
  exists w',
    run (sG ++ sR) w
    = Ret ((repeat false (length (sentence_head identG argsG (nmea_checksum identG argsG)))
              ++ [true; false]) ++ repeat false (length sR), w')
    /\ gpsSol w'
       = commit_RMC (rmc_pending spd crs mG)
           (commit_GGA gpsConstrainHDOP gpsConstrainEPE GPS_HDOP_TO_EPH_MULTIPLIER
                       mG (gpsSol w))
    /\ groundSpeed (gpsSol w') = rmc_speed spd
    /\ groundCourse (gpsSol w') = rmc_course crs
    /\ sol_numSat (gpsSol w') = gga_numSat nsat
    /\ (gga_fix fixq = true ->
        fixType (gpsSol w') = GPS_FIX_3D
        /\ llh_lat (gpsSol w') = gga_coordinate GPS_coord_to_degrees "S"%char lat ns
        /\ llh_lon (gpsSol w') = gga_coordinate GPS_coord_to_degrees "W"%char lon ew
        /\ llh_alt (gpsSol w') = gga_altitude alt)
    /\ packetCount (gpsStats w') = (packetCount (gpsStats w) + 2)%N
    /\ errors (gpsStats w') = errors (gpsStats w).
Proof.
  intros Hs Hcp HidG HokG HmoreG Hh Ha HidR HokR HmoreR Hsp Hcr argsG argsR sG sR mG.
  destruct (run_GGA GPS_coord_to_degrees gpsConstrainHDOP gpsConstrainEPE
              GPS_HDOP_TO_EPH_MULTIPLIER w identG time lat ns lon ew fixq nsat hdop alt
              moreG Hs Hcp HidG HokG HmoreG Hh Ha)
    as (w1 & R1 & Hsol1 & Hst1 & Hm1 & Hcp1 & Hs1).
  destruct (run_RMC GPS_coord_to_degrees gpsConstrainHDOP gpsConstrainEPE
              GPS_HDOP_TO_EPH_MULTIPLIER w1 identR a1 a2 a3 a4 a5 a6 spd crs
              moreR Hs1 Hcp1 HidR HokR HmoreR Hsp Hcr)
    as (w2 & R2 & Hsol2 & Hst2 & _).
  exists w2. split.
  { rewrite (run_app GPS_coord_to_degrees gpsConstrainHDOP gpsConstrainEPE
               GPS_HDOP_TO_EPH_MULTIPLIER).
    fold argsG sG in R1. fold argsR sR in R2.
    rewrite R1. cbn [mbind outcome_bind fst snd]. rewrite R2.
    cbn [mbind outcome_bind fst snd mret outcome_ret]. done. }
  rewrite Hsol2, Hm1, Hsol1. fold mG.
  split; [done|].
  unfold commit_RMC, rmc_pending, commit_GGA. cbn [groundSpeed groundCourse].
  split; [done|]. split; [done|].
  split; [by destruct (fix_ mG)|].
  split.
  { intros Hfix. unfold mG, gga_pending. cbn [fix_]. rewrite Hfix. done. }
  rewrite Hst2, Hst1. cbn. split; [lia|done].
Qed.

(** X15.  Bytes behind the two checksum characters are ignored.  Whatever
    ordinary bytes stand between the checksum and the line end, the
    sentence is accepted or rejected as without them, raises the same
    signal, and leaves the same [gpsSol] and the same counters: only the
    first two bytes behind ['*'] are compared. *)
Theorem bytes_after_checksum_ignored (w : world) (ident : list ascii)
    (args : list (list ascii)) (cks : Z) (junk : list ascii) :
  length (str w) = NMEA_BUFFER_SIZE ->
  Forall (fun f => field_ok f = true) (ident :: args) ->
  fields_safe (ident :: args) NO_FRAME 0 = true ->
  0 <= cks < 256 ->
  Forall (fun c => special c = false) junk ->
  exists ok w1 w2,
    run (sentence ident args cks) w
    = Ret (repeat false (length (sentence_head ident args cks)) ++ [ok; false], w1)
    /\ run (sentence_head ident args cks ++ junk ++ [CR; LF]) w
       = Ret (repeat false (length (sentence_head ident args cks) + length junk)
                ++ [ok; false], w2)
    /\ gpsSol w2 = gpsSol w1 /\ gpsStats w2 = gpsStats w1
    /\ gps_Msg w2 = gps_Msg w1 /\ checksum_param w2 = checksum_param w1.
Proof.
  intros Hs Hok Hsafe Hcks Hjunk.
  apply Forall_cons in Hok as [Hid Hargs].
  destruct w as [m p o par s cp fr sol st]. cbn [str] in Hs.
  destruct (run_sentence GPS_coord_to_degrees gpsConstrainHDOP gpsConstrainEPE
              GPS_HDOP_TO_EPH_MULTIPLIER ident args cks m p o par s cp fr sol st)
    as (b1 & _ & R1); try done.
  destruct (run_sentence_head GPS_coord_to_degrees gpsConstrainHDOP gpsConstrainEPE
              GPS_HDOP_TO_EPH_MULTIPLIER ident args cks m p o par s cp fr sol st)
    as (b' & Lb & Rh); try done.
  cbv zeta in R1, Rh.
  set (r := fields_effect GPS_coord_to_degrees (ident :: args) NO_FRAME 0 m) in *.
  destruct (cks =? seen_checksum cp ident args) eqn:Hck;
    (eexists _, _, _; split; [exact R1|]);
    rewrite (run_app GPS_coord_to_degrees gpsConstrainHDOP gpsConstrainEPE
               GPS_HDOP_TO_EPH_MULTIPLIER), Rh;
    cbn [mbind outcome_bind fst snd];
    rewrite (run_app GPS_coord_to_degrees gpsConstrainHDOP gpsConstrainEPE
               GPS_HDOP_TO_EPH_MULTIPLIER);
    (rewrite plain_bytes_stored; [|done|cbn [length]; rewrite Lb; done|lia]);
    cbn [mbind outcome_bind fst snd]; cbv iota;
    cbn [take app]; cbn [feed];
    rewrite (step_line_end_checked GPS_coord_to_degrees gpsConstrainHDOP gpsConstrainEPE
               GPS_HDOP_TO_EPH_MULTIPLIER) by (by left);
    rewrite hex_pair by done; rewrite Hck; obind; cbn [fst snd];
    rewrite (step_line_end_idle GPS_coord_to_degrees gpsConstrainHDOP gpsConstrainEPE
               GPS_HDOP_TO_EPH_MULTIPLIER) by (by right);
    obind; cbn [fst snd]; rewrite ?andb_true_l, ?andb_false_l;
    (split; [rewrite !app_assoc, repeat_false_app; reflexivity|done]).
Qed.

(** ** A fix-data sentence that reports no fix *)

(** A field of digits, as the parser's array holds it, decodes to its
    number. *)
Lemma decode_field_digits ds mult :
  all_digits ds = true -> (length ds <= 15)%nat ->
  decode_field ds mult = wrap32 (decimal ds 0).
Proof.
  intros Hd Hlen. unfold decode_field, in_array, grab_fields.
  replace (NMEA_BUFFER_SIZE - length ds)%nat with (S (15 - length ds))
    by (unfold NMEA_BUFFER_SIZE; lia).
  cbn [repeat].
  replace 16%nat with (length ds + (S (15 - length ds)))%nat by lia.
  rewrite (grab_loop_skip_digits mult ds _ [] (NUL :: repeat NUL (15 - length ds)) 0 Hd)
    by (cbn [length]; lia).
  cbn [app length Nat.add].
  rewrite grab_loop_at_nul by apply lookup_terminator.
  cbn [fst]. by rewrite decimal32_eq.
Qed.

(** Claim C10, as amended.  A fix-data sentence with the right checksum whose fix
    indicator starts with ['0'] or a lower byte (or is empty), with fields
    that fit the parser's array, fed to a parser that is not capturing a
    checksum: the frame-ready signal is still returned, once, at the CR; the
    satellite count is committed, in 8 bits (for a field of digits, the
    number they denote modulo 256); the fix type becomes no-fix; and
    latitude, longitude, altitude, HDOP and the two error estimates of
    [gpsSol] keep their values.  The sentence is counted as a packet, not
    as an error. *)
Theorem gga_sentence_without_fix (w : world)
    (ident time lat ns lon ew fixq nsat hdop alt : list ascii)
    (more : list (list ascii)) :
  length (str w) = NMEA_BUFFER_SIZE -> checksum_param w = false ->
  is_GGA_ident ident ->
  Forall (fun f => field_ok f = true)
         (time :: lat :: ns :: lon :: ew :: fixq :: nsat :: hdop :: alt :: more) ->
  (length more <= 246)%nat ->
  decimal_fits hdop = true -> decimal_fits alt = true ->
  code (hd NUL fixq) <= code "0"%char ->
  let args := time :: lat :: ns :: lon :: ew :: fixq :: nsat :: hdop :: alt :: more in
  let cks := nmea_checksum ident args in
  exists w',
    run (sentence ident args cks) w
    = Ret (repeat false (length (sentence_head ident args cks)) ++ [true; false], w')
    /\ fixType (gpsSol w') = GPS_NO_FIX
    /\ sol_numSat (gpsSol w') = gga_numSat nsat
    /\ (all_digits nsat = true -> sol_numSat (gpsSol w') = decimal nsat 0 mod 256)
    /\ llh_lat (gpsSol w') = llh_lat (gpsSol w)
    /\ llh_lon (gpsSol w') = llh_lon (gpsSol w)
    /\ llh_alt (gpsSol w') = llh_alt (gpsSol w)
    /\ sol_hdop (gpsSol w') = sol_hdop (gpsSol w)
    /\ eph (gpsSol w') = eph (gpsSol w)
    /\ epv (gpsSol w') = epv (gpsSol w)
    /\ packetCount (gpsStats w') = (packetCount (gpsStats w) + 1)%N
    /\ errors (gpsStats w') = errors (gpsStats w).
Proof.
  intros Hs Hcp Hid Hok Hmore Hh Ha Hfix args cks.
  destruct (run_GGA GPS_coord_to_degrees gpsConstrainHDOP gpsConstrainEPE
              GPS_HDOP_TO_EPH_MULTIPLIER w ident time lat ns lon ew fixq nsat hdop alt
              more Hs Hcp Hid Hok Hmore Hh Ha) as (w' & R & Hsol & Hst & _).
  exists w'. split; [exact R|].
  assert (Hnofix : gga_fix fixq = false).
  { unfold gga_fix. apply Z.ltb_ge. exact Hfix. }
  assert (Hlen : (length nsat <= 15)%nat).
  { apply field_ok_length. rewrite Forall_forall in Hok. apply Hok.
    repeat (first [apply list_elem_of_here | apply list_elem_of_further]). }
  assert (Hsat : sol_numSat (gpsSol w') = gga_numSat nsat).
  { rewrite Hsol. unfold commit_GGA, gga_pending. cbn [fix_]. rewrite Hnofix.
    by cbn. }
  rewrite Hst.
  split; [|split; [exact Hsat|split]].
  - rewrite Hsol. unfold commit_GGA, gga_pending. cbn [fix_]. rewrite Hnofix.
    by cbn.
  - intros Hd. rewrite Hsat. unfold gga_numSat.
    rewrite decode_field_digits by done.
    unfold wrap8, wrap32. apply Z.mod_mod_divide. by exists 16777216.
  - rewrite Hsol. unfold commit_GGA, gga_pending. cbn [fix_]. rewrite Hnofix.
    by cbn.
Qed.
End ParserBounds.

(** ** The driver: receiving *)

Section DriverRuns.

Variable GPS_coord_to_degrees : list ascii -> Z.
Variable gpsConstrainHDOP : Z -> Z.
Variable gpsConstrainEPE : Z -> Z.
Variable GPS_HDOP_TO_EPH_MULTIPLIER : Z.
Variable dev_t : Type.
Variable serialTxBytesFree : dev_t -> Z.
Variable isSerialTransmitBufferEmpty : dev_t -> bool.
Variable serialWrite : ascii -> dev_t -> dev_t.
Variable serialPrint : list ascii -> dev_t -> dev_t.
Variable serialSetBaudRate : Z -> dev_t -> dev_t.
Variable baudRate_of : nat -> Z.
Variable gpsSetState : gpsState_e -> Z -> gpsReceiverData_t -> gpsReceiverData_t.
Variable gpsFinalizeChangeBaud :
  Z -> gpsReceiverData_t * dev_t -> gpsReceiverData_t * dev_t.

#[local] Abbreviation step := (gpsNewFrameNMEA GPS_coord_to_degrees gpsConstrainHDOP
                    gpsConstrainEPE GPS_HDOP_TO_EPH_MULTIPLIER).
#[local] Abbreviation run := (feed GPS_coord_to_degrees gpsConstrainHDOP
                   gpsConstrainEPE GPS_HDOP_TO_EPH_MULTIPLIER).
#[local] Abbreviation receive := (receive_loop GPS_coord_to_degrees gpsConstrainHDOP
                    gpsConstrainEPE GPS_HDOP_TO_EPH_MULTIPLIER).
#[local] Abbreviation ReceiveData := (gpsReceiveData GPS_coord_to_degrees gpsConstrainHDOP
                    gpsConstrainEPE GPS_HDOP_TO_EPH_MULTIPLIER dev_t).
#[local] Abbreviation ChangeBaud :=
  (gpsChangeBaud dev_t isSerialTransmitBufferEmpty serialPrint serialSetBaudRate
                 baudRate_of gpsSetState gpsFinalizeChangeBaud).
#[local] Abbreviation Transmit :=
  (nmeaTransmit_loop dev_t serialTxBytesFree isSerialTransmitBufferEmpty serialWrite
                     gpsSetState).
#[local] Abbreviation TransmitCommands :=
  (nmeaTransmitAutoConfigCommands dev_t serialTxBytesFree isSerialTransmitBufferEmpty
                                  serialWrite gpsSetState).
#[local] Abbreviation Configure :=
  (gpsConfigure dev_t serialTxBytesFree isSerialTransmitBufferEmpty serialWrite
                serialPrint gpsSetState).
#[local] Abbreviation Configure_PSRF :=
  (gpsConfigure_PSRF dev_t serialTxBytesFree isSerialTransmitBufferEmpty serialWrite
                     gpsSetState).
#[local] Abbreviation HandleNMEA :=
  (gpsHandleNMEA GPS_coord_to_degrees gpsConstrainHDOP gpsConstrainEPE
                 GPS_HDOP_TO_EPH_MULTIPLIER dev_t serialTxBytesFree
                 isSerialTransmitBufferEmpty serialWrite serialPrint
                 serialSetBaudRate baudRate_of gpsSetState gpsFinalizeChangeBaud).

(** The bookkeeping of [gpsReceiveData] commutes with the commits of the
    parser. *)
Lemma commit_GGA_frame_seen m g :
  commit_GGA gpsConstrainHDOP gpsConstrainEPE GPS_HDOP_TO_EPH_MULTIPLIER m (frame_seen g)
  = frame_seen (commit_GGA gpsConstrainHDOP gpsConstrainEPE GPS_HDOP_TO_EPH_MULTIPLIER m g).
Proof. unfold commit_GGA. by destruct (fix_ m). Qed.

(** The parser never looks at [gpsSol]: with the heartbeat toggled and the
    velocity flags cleared beforehand it does the same, and leaves the
    same with the heartbeat toggled and the flags cleared. *)
Lemma step_frame_seen c w :
  step c (with_gpsSol (frame_seen (gpsSol w)) w)
  = match step c w with
    | Ret (ok, w') => Ret (ok, with_gpsSol (frame_seen (gpsSol w')) w')
    | Fault => Fault
    | Timeout => Timeout
    end.
Proof.
  destruct w as [m p o par s cp fr sol st].
  unfold gpsNewFrameNMEA, with_gpsSol.
  cbn [gps_Msg param offset parity str checksum_param gps_frame gpsSol gpsStats].
  destruct (Ascii.eqb c "$"%char); [done|].
  destruct (Ascii.eqb c ","%char || Ascii.eqb c "*"%char).
  { unfold on_separator.
    cbn [gps_Msg param offset parity str checksum_param gps_frame gpsSol gpsStats].
    destruct (wr s o NUL) as [s1| |]; obind; try done.
    destruct (parse_field _ _ _ _ _) as [r| |]; obind; done. }
  destruct (Ascii.eqb c CR || Ascii.eqb c LF).
  { unfold on_line_end.
    cbn [gps_Msg param offset parity str checksum_param gps_frame gpsSol gpsStats].
    destruct cp; [|done].
    destruct (rd s 0%nat); obind; try done.
    destruct (rd s 1%nat); obind; try done.
    destruct (_ =? _); [|done].
    destruct fr; cbn [gpsSol]; [done| |done].
    by rewrite commit_GGA_frame_seen. }
  unfold on_other.
  cbn [gps_Msg param offset parity str checksum_param gps_frame gpsSol gpsStats].
  destruct (_ <? _)%nat; [|done].
  destruct (wr s o c); obind; done.
Qed.

Lemma run_frame_seen bytes : forall w,
  run bytes (with_gpsSol (frame_seen (gpsSol w)) w)
  = match run bytes w with
    | Ret (signals, w') => Ret (signals, with_gpsSol (frame_seen (gpsSol w')) w')
    | Fault => Fault
    | Timeout => Timeout
    end.
Proof.
  induction bytes as [|c bytes IH]; intros w; [done|].
  cbn [feed]. rewrite step_frame_seen.
  destruct (step c w) as [[ok w1]| |]; obind; try done. cbn [fst snd].
  rewrite IH. destruct (run bytes w1) as [[l w2]| |]; obind; done.
Qed.

Lemma with_gpsSol_twice g g' w : with_gpsSol g (with_gpsSol g' w) = with_gpsSol g w.
Proof. done. Qed.

(** The receive loop is the parser run over the waiting bytes, followed by
    one round of bookkeeping per frame-ready signal. *)
Lemma receive_loop_feed bytes : forall hasNewData w,
  receive bytes hasNewData w
  = match run bytes w with
    | Ret (signals, w') =>
        Ret (hasNewData || (0 <? frames signals)%nat,
             with_gpsSol (Nat.iter (frames signals) frame_seen (gpsSol w')) w')
    | Fault => Fault
    | Timeout => Timeout
    end.
Proof.
  induction bytes as [|c bytes IH]; intros h w.
  { cbn. rewrite orb_false_r. by destruct w. }
  cbn [receive_loop feed].
  destruct (step c w) as [[ok w1]| |]; obind; try done. cbn [fst snd].
  destruct ok.
  - rewrite IH, run_frame_seen.
    destruct (run bytes w1) as [[l w2]| |]; obind; try done. cbn [fst snd].
    rewrite frames_cons. cbn [Nat.add]. rewrite orb_true_r.
    cbn [gpsSol with_gpsSol]. rewrite Nat.iter_succ_r. done.
  - rewrite IH.
    destruct (run bytes w1) as [[l w2]| |]; obind; try done.
Qed.

Lemma step_heartbeat c w ok w' :
  step c w = Ret (ok, w') ->
  flags_gpsHeartbeat (gpsSol w') = flags_gpsHeartbeat (gpsSol w).
Proof.
  unfold gpsNewFrameNMEA. intros H.
  destruct (Ascii.eqb c "$"%char); [by injection H as <- <-|].
  destruct (Ascii.eqb c ","%char || Ascii.eqb c "*"%char).
  { unfold on_separator in H.
    destruct (wr _ _ _); cbn [mbind outcome_bind] in H; try discriminate.
    destruct (parse_field _ _ _ _ _); cbn [mbind outcome_bind] in H; try discriminate.
    by injection H as <- <-. }
  destruct (Ascii.eqb c CR || Ascii.eqb c LF).
  { unfold on_line_end in H.
    destruct (checksum_param w); [|by injection H as <- <-].
    destruct (rd _ 0%nat); cbn [mbind outcome_bind] in H; try discriminate.
    destruct (rd _ 1%nat); cbn [mbind outcome_bind] in H; try discriminate.
    destruct (_ =? _); [|by injection H as <- <-].
    destruct (gps_frame w); injection H as <- <-; cbn [gpsSol]; [done| |done].
    unfold commit_GGA. by destruct (fix_ _). }
  unfold on_other in H. destruct (_ <? _)%nat; [|by injection H as <- <-].
  destruct (wr _ _ _); cbn [mbind outcome_bind] in H; try discriminate.
  by injection H as <- <-.
Qed.

Lemma run_heartbeat bytes : forall w signals w',
  run bytes w = Ret (signals, w') ->
  flags_gpsHeartbeat (gpsSol w') = flags_gpsHeartbeat (gpsSol w).
Proof.
  induction bytes as [|c bytes IH]; intros w signals w' H.
  { by injection H as <- <-. }
  cbn [feed] in H.
  destruct (step c w) as [[ok w1]| |] eqn:E; cbn [mbind outcome_bind fst snd] in H;
    try discriminate.
  destruct (run bytes w1) as [[l w2]| |] eqn:E2; cbn [mbind outcome_bind] in H;
    try discriminate.
  injection H as <- <-. cbn [snd].
  apply step_heartbeat in E. apply IH in E2. congruence.
Qed.

Lemma frame_seen_heartbeat n g :
  flags_gpsHeartbeat (Nat.iter n frame_seen g)
  = xorb (flags_gpsHeartbeat g) (Nat.odd n).
Proof.
  induction n as [|n IH].
  - cbn. by destruct (flags_gpsHeartbeat g).
  - rewrite Nat.odd_succ, <- Nat.negb_odd. cbn [Nat.iter nat_rect frame_seen flags_gpsHeartbeat].
    change (nat_rect _ g (fun _ => frame_seen) n) with (Nat.iter n frame_seen g).
    rewrite IH. by destruct (flags_gpsHeartbeat g), (Nat.odd n).
Qed.

(** X16.  With a port, [gpsReceiveData] is the parser run over the bytes
    that wait, one call per byte in order, followed by one round of
    bookkeeping (heartbeat toggled, velocity flags cleared) for each
    frame-ready signal; it reports new data exactly when there was a
    signal, empties the queue, and touches nothing else.  Every statement
    about feeding a sentence to the parser is thereby a statement about the
    driver. *)
Theorem gpsReceiveData_runs_parser (d : dworld dev_t) :
  gpsPort (gpsState d) = true ->
  ReceiveData d
  = match run (rxq d) (nmea d) with
    | Ret (signals, w') =>
        Ret ((0 <? frames signals)%nat,
             mkD (with_gpsSol (Nat.iter (frames signals) frame_seen (gpsSol w')) w')
                 (gpsState d) [] (dev d) (calls d))
    | Fault => Fault
    | Timeout => Timeout
    end.
Proof.
  intros Hport. unfold gpsReceiveData. rewrite Hport.
  rewrite receive_loop_feed.
  destruct (run (rxq d) (nmea d)) as [[signals w']| |]; obind; [|done|done].
  cbn [fst snd orb]. done.
Qed.

(** X17.  The heartbeat flag changes once per frame-ready signal and not
    otherwise: after [gpsReceiveData] it differs from its value before
    exactly when the number of signals in the batch is odd.  A batch with
    two accepted fix-data sentences reports new data and leaves the
    heartbeat where it was. *)
Theorem heartbeat_toggles_per_signal (d : dworld dev_t) hasNewData d' :
  gpsPort (gpsState d) = true ->
  ReceiveData d = Ret (hasNewData, d') ->
  exists signals w',
    run (rxq d) (nmea d) = Ret (signals, w')
    /\ hasNewData = (0 <? frames signals)%nat
    /\ flags_gpsHeartbeat (gpsSol (nmea d'))
       = xorb (flags_gpsHeartbeat (gpsSol (nmea d))) (Nat.odd (frames signals)).
Proof.
  intros Hport H. unfold gpsReceiveData in H. rewrite Hport in H.
  rewrite receive_loop_feed in H.
  destruct (run (rxq d) (nmea d)) as [[signals w']| |] eqn:E;
    cbn [mbind outcome_bind] in H; try discriminate.
  injection H as <- <-. exists signals, w'. split; [done|]. split; [done|].
  cbn [nmea snd gpsSol with_gpsSol].
  rewrite frame_seen_heartbeat. by rewrite (run_heartbeat _ _ _ _ E).
Qed.

(** X18.  End to end: in the receiving phase, a tick that finds one
    fix-data sentence with the right checksum waiting reports new data,
    makes no call and leaves [gpsState] alone; [gpsSol] holds the commit of
    the sentence with the heartbeat toggled, and the queue is empty. *)
Theorem gpsHandleNMEA_receives_GGA (now : Z) (d : dworld dev_t)
    (ident time lat ns lon ew fixq nsat hdop alt : list ascii)
    (more : list (list ascii)) :
  gpsPort (gpsState d) = true -> state (gpsState d) = GPS_RECEIVING_DATA ->
  length (str (nmea d)) = NMEA_BUFFER_SIZE -> checksum_param (nmea d) = false ->
  is_GGA_ident ident ->
  Forall (fun f => field_ok f = true)
         (time :: lat :: ns :: lon :: ew :: fixq :: nsat :: hdop :: alt :: more) ->
  (length more <= 246)%nat ->
  decimal_fits hdop = true -> decimal_fits alt = true ->
  let args := time :: lat :: ns :: lon :: ew :: fixq :: nsat :: hdop :: alt :: more in
  rxq d = sentence ident args (nmea_checksum ident args) ->
  exists d',
    HandleNMEA now d = Ret (true, d')
    /\ gpsSol (nmea d')
       = frame_seen
           (commit_GGA gpsConstrainHDOP gpsConstrainEPE GPS_HDOP_TO_EPH_MULTIPLIER
              (gga_pending GPS_coord_to_degrees lat ns lon ew fixq nsat hdop alt
                 (gps_Msg (nmea d)))
              (gpsSol (nmea d)))
    /\ gpsStats (nmea d') = count_packet (gpsStats (nmea d))
    /\ rxq d' = [] /\ gpsState d' = gpsState d
    /\ dev d' = dev d /\ calls d' = calls d.
Proof.
  intros Hport Hstate Hlen Hcp Hid Hok Hmore Hh Ha args Hrx.
  destruct (run_GGA GPS_coord_to_degrees gpsConstrainHDOP gpsConstrainEPE
              GPS_HDOP_TO_EPH_MULTIPLIER (nmea d) ident time lat ns lon ew fixq nsat
              hdop alt more Hlen Hcp Hid Hok Hmore Hh Ha)
    as (w' & R & Hsol & Hst & _).
  fold args in R. rewrite <- Hrx in R.
  unfold gpsHandleNMEA, gpsReceiveData. rewrite Hport, receive_loop_feed, R.
  assert (Hn : frames (repeat false (length (sentence_head ident args
                         (nmea_checksum ident args))) ++ [true; false]) = 1%nat).
  { unfold frames. rewrite count_occ_app.
    rewrite (count_occ_repeat_neq bool_dec) by done. done. }
  rewrite Hn. obind. cbn [fst snd gpsState]. rewrite Hstate.
  eexists. split; [reflexivity|].
  cbn [nmea rxq gpsState dev calls gpsSol gpsStats with_gpsSol Nat.iter nat_rect].
  by rewrite Hsol, Hst.
Qed.

(** ** The driver: sending a command byte by byte *)

Lemma Transmit_sends fuel cmd now : forall (d : dworld dev_t),
  (length cmd - autoConfigPosition (gpsState d) < fuel)%nat ->
  let pos := autoConfigPosition (gpsState d) in
  exists k sent (finished : bool) d',
    Transmit fuel cmd (length cmd) now d = Ret (finished, d')
    /\ sent = take k (drop pos cmd) /\ length sent = k
    /\ dev d' = written serialWrite sent (dev d)
    /\ calls d' = calls d ++ (CallSerialWrite <$> sent)
                    ++ (if finished then [CallSetState GPS_CONFIGURE] else [])
    /\ nmea d' = nmea d /\ rxq d' = rxq d
    /\ (if finished
        then (length cmd <= pos + k)%nat
             /\ isSerialTransmitBufferEmpty (dev d') = true
             /\ gpsState d'
                = gpsSetState GPS_CONFIGURE now
                    (set_autoConfigPosition 0 (step_autoConfig (gpsState d)))
        else gpsState d' = set_autoConfigPosition (pos + k) (gpsState d)
             /\ ((pos + k < length cmd)%nat -> serialTxBytesFree (dev d') <= 0)).
Proof.
  induction fuel as [|fuel IH]; intros d Hf pos; [lia|].
  cbn [nmeaTransmit_loop]. fold pos.
  destruct (0 <? serialTxBytesFree (dev d)) eqn:Hfree.
  2:{ exists 0%nat, [], false, d. apply Z.ltb_ge in Hfree.
      rewrite take_0, Nat.add_0_r, app_nil_r. cbn [fmap list_fmap written fold_left].
      repeat split; try done.
      unfold set_autoConfigPosition, pos. by destruct (gpsState d). }
  destruct (pos <? length cmd)%nat eqn:Hpos.
  - apply Nat.ltb_lt in Hpos.
    destruct (lookup_lt_is_Some_2 cmd pos Hpos) as [c Hc].
    unfold rd. rewrite Hc. obind.
    set (d1 := with_gpsState _ _ _).
    assert (Hp1 : autoConfigPosition (gpsState d1) = S pos) by done.
    destruct (IH d1) as (k & sent & fin & d' & E & Hsent & Hlen & Hdev & Hcalls
                         & Hn & Hrx & Hfin); [rewrite Hp1; lia|].
    rewrite Hp1 in *.
    exists (S k), (c :: sent), fin, d'. split; [exact E|].
    split; [rewrite (drop_S _ _ _ Hc); cbn [take]; by rewrite Hsent|].
    split; [cbn [length]; by rewrite Hlen|].
    split; [by rewrite Hdev|].
    split; [rewrite Hcalls; cbn [calls d1 with_gpsState do_serialWrite fmap list_fmap];
            by rewrite <- app_assoc|].
    split; [done|]. split; [done|].
    destruct fin.
    + destruct Hfin as (Hle & Hem & Hst). split; [lia|]. split; [done|]. rewrite Hst.
      cbn [gpsState d1 with_gpsState do_serialWrite].
      unfold set_autoConfigPosition, step_autoConfig. by destruct (gpsState d).
    + destruct Hfin as [Hst Hstop]. split.
      * rewrite Hst. replace (S pos + k)%nat with (pos + S k)%nat by lia.
        cbn [gpsState d1 with_gpsState do_serialWrite].
        unfold set_autoConfigPosition. by destruct (gpsState d).
      * intros Hlt. apply Hstop. lia.
  - apply Nat.ltb_ge in Hpos.
    destruct (isSerialTransmitBufferEmpty (dev d)) eqn:Hempty.
    + eexists 0%nat, [], true, _. split; [reflexivity|].
      rewrite take_0. cbn [fmap list_fmap written fold_left app].
      repeat split; try done. lia.
    + exists 0%nat, [], false, d.
      rewrite take_0, Nat.add_0_r, app_nil_r. cbn [fmap list_fmap written fold_left].
      repeat split; try done.
      * unfold set_autoConfigPosition, pos. by destruct (gpsState d).
      * lia.
Qed.

(** X19.  [nmeaTransmitAutoConfigCommands] always returns.  It hands the
    bytes of the command to [serialWrite] in order, starting at the cursor
    and never reading beyond the array; the cursor moves on by exactly the
    number of bytes sent, so that over several calls no byte is lost or
    sent twice.  It stops early only when the port has no room.  It
    reports completion, advances the step, rewinds the cursor and calls
    [gpsSetState] only once every byte is out and the port reports an empty
    transmit buffer. *)
Theorem nmeaTransmit_sends_in_order (cmd : list ascii) (now : Z) (d : dworld dev_t) :
  let pos := autoConfigPosition (gpsState d) in
  exists k sent (finished : bool) d',
    TransmitCommands cmd now d = Ret (finished, d')
    /\ sent = take k (drop pos cmd) /\ length sent = k
    /\ dev d' = written serialWrite sent (dev d)
    /\ calls d' = calls d ++ (CallSerialWrite <$> sent)
                    ++ (if finished then [CallSetState GPS_CONFIGURE] else [])
    /\ nmea d' = nmea d /\ rxq d' = rxq d
    /\ (if finished
        then (length cmd <= pos + k)%nat
             /\ isSerialTransmitBufferEmpty (dev d') = true
             /\ gpsState d'
                = gpsSetState GPS_CONFIGURE now
                    (set_autoConfigPosition 0 (step_autoConfig (gpsState d)))
        else gpsState d' = set_autoConfigPosition (pos + k) (gpsState d)
             /\ ((pos + k < length cmd)%nat -> serialTxBytesFree (dev d') <= 0)).
Proof.
  intros pos. unfold nmeaTransmitAutoConfigCommands.
  destruct (Transmit_sends (S (length cmd - pos)) cmd now d) as (k & sent & fin & d' & H);
    [fold pos; lia|].
  exists k, sent, fin, d'. exact H.
Qed.

(** ** The driver: one tick *)

Lemma ReceiveData_frame (d : dworld dev_t) h d1 :
  ReceiveData d = Ret (h, d1) ->
  gpsState d1 = gpsState d /\ dev d1 = dev d /\ calls d1 = calls d
  /\ (gpsPort (gpsState d) = true -> rxq d1 = []).
Proof.
  unfold gpsReceiveData. intros H.
  destruct (gpsPort (gpsState d)); [|by injection H as <- <-].
  destruct (receive _ _ _) as [[r1 w1]| |]; cbn [mbind outcome_bind] in H;
    try discriminate.
  by injection H as <- <-.
Qed.

Lemma Transmit_calls cmd now (d : dworld dev_t) r d' :
  TransmitCommands cmd now d = Ret (r, d') ->
  rxq d' = rxq d
  /\ exists new, calls d' = calls d ++ new
       /\ Forall (fun c => allowed GPS_CONFIGURE c = true) new.
Proof.
  unfold nmeaTransmitAutoConfigCommands. intros H.
  destruct (Transmit_sends (S (length cmd - autoConfigPosition (gpsState d))) cmd now d)
    as (k & sent & fin & d2 & E & _ & _ & _ & Hcalls & _ & Hrx & _); [lia|].
  rewrite E in H. injection H as <- <-. split; [done|].
  eexists. split; [exact Hcalls|].
  apply Forall_app. split.
  - apply Forall_fmap. by apply Forall_true.
  - destruct fin; by repeat constructor.
Qed.

Lemma config_check_calls s now (d : dworld dev_t) :
  rxq (config_check dev_t isSerialTransmitBufferEmpty serialPrint gpsSetState s now d)
  = rxq d
  /\ exists new,
       calls (config_check dev_t isSerialTransmitBufferEmpty serialPrint gpsSetState
                           s now d)
       = calls d ++ new
       /\ Forall (fun c => allowed GPS_CONFIGURE c = true) new.
Proof.
  unfold config_check. destruct (isSerialTransmitBufferEmpty (dev d)).
  - split; [done|]. exists [CallSerialPrint s; CallSetState GPS_CONFIGURE].
    cbn [calls do_gpsSetState with_gpsState do_serialPrint]. rewrite <- app_assoc.
    split; [done|]. by repeat constructor.
  - split; [done|]. exists []. by rewrite app_nil_r.
Qed.

Lemma Configure_calls now (d : dworld dev_t) r d' :
  Configure now d = Ret (r, d') ->
  rxq d' = rxq d
  /\ exists new, calls d' = calls d ++ new
       /\ Forall (fun c => allowed GPS_CONFIGURE c = true) new.
Proof.
  unfold gpsConfigure. intros H.
  destruct (_ <? _).
  { injection H as <- <-. split; [done|]. exists []. by rewrite app_nil_r. }
  destruct (autoConfigStep _) as [|[|[|[|n]]]].
  - destruct (TransmitCommands _ _ _) as [[r1 d1]| |] eqn:E;
      cbn [mbind outcome_bind] in H; try discriminate.
    injection H as <- <-. by apply Transmit_calls in E.
  - injection H as <- <-. apply config_check_calls.
  - destruct (TransmitCommands _ _ _) as [[r1 d1]| |] eqn:E;
      cbn [mbind outcome_bind] in H; try discriminate.
    injection H as <- <-. by apply Transmit_calls in E.
  - injection H as <- <-. apply config_check_calls.
  - injection H as <- <-. split; [done|].
    exists [CallSetState GPS_RECEIVING_DATA]. split; [done|]. by repeat constructor.
Qed.

Lemma Configure_PSRF_calls now (d : dworld dev_t) r d' :
  Configure_PSRF now d = Ret (r, d') ->
  rxq d' = rxq d
  /\ exists new, calls d' = calls d ++ new
       /\ Forall (fun c => allowed GPS_CONFIGURE c = true) new.
Proof.
  unfold gpsConfigure_PSRF. intros H.
  destruct (_ <? _).
  { injection H as <- <-. split; [done|]. exists []. by rewrite app_nil_r. }
  destruct (autoConfigStep _) as [|n].
  - destruct (TransmitCommands _ _ _) as [[r1 d1]| |] eqn:E;
      cbn [mbind outcome_bind] in H; try discriminate.
    injection H as <- <-. by apply Transmit_calls in E.
  - injection H as <- <-. split; [done|].
    exists [CallSetState GPS_RECEIVING_DATA]. split; [done|]. by repeat constructor.
Qed.

Lemma ChangeBaud_calls now (d : dworld dev_t) r d' :
  ChangeBaud now d = Ret (r, d') ->
  rxq d' = rxq d
  /\ exists new, calls d' = calls d ++ new
       /\ Forall (fun c => allowed GPS_CHANGE_BAUD c = true) new.
Proof.
  unfold gpsChangeBaud. intros H.
  destruct (_ && _).
  - destruct (_ && _).
    + destruct (_ !! _) as [s|]; [|discriminate]. injection H as <- <-.
      split; [done|]. eexists.
      cbn [calls do_gpsSetState with_gpsState do_serialPrint do_serialSetBaudRate].
      rewrite <- !app_assoc. split; [reflexivity|]. by repeat constructor.
    + injection H as <- <-. split; [done|]. exists []. by rewrite app_nil_r.
  - injection H as <- <-. split; [done|].
    exists [CallFinalizeChangeBaud]. split; [done|]. by repeat constructor.
Qed.

Lemma allowed_CHECK_VERSION c :
  allowed GPS_CONFIGURE c = true -> allowed GPS_CHECK_VERSION c = true.
Proof. by destruct c as [| | |[]| |]. Qed.

(** X20.  What a tick may do, by the phase it finds.  Outside the three
    active phases (initializing, baud change, configuration) it makes no
    call at all; it changes the baud rate and hands over to
    [gpsFinalizeChangeBaud] only in the baud-change phase; it writes single
    bytes only in the configuration phase; and the only phases it ever
    asks for are the baud change (from initializing or from itself),
    configuration (from itself) and receiving (from configuration). *)
Theorem gpsHandleNMEA_calls_by_phase (now : Z) (d : dworld dev_t) b d' :
  HandleNMEA now d = Ret (b, d') ->
  exists new,
    calls d' = calls d ++ new
    /\ Forall (fun c => allowed (state (gpsState d)) c = true) new.
Proof.
  unfold gpsHandleNMEA. intros H.
  destruct (ReceiveData d) as [[h d1]| |] eqn:E; cbn [mbind outcome_bind] in H;
    try discriminate.
  apply ReceiveData_frame in E as (Hst & _ & Hcalls & _).
  rewrite <- Hst, <- Hcalls.
  destruct (state (gpsState d1)).
  - injection H as <- <-. exists []. by rewrite app_nil_r.
  - injection H as <- <-. exists [CallSetState GPS_CHANGE_BAUD]. by repeat constructor.
  - by apply ChangeBaud_calls in H as [_ H].
  - destruct (bool_decide _).
    { injection H as <- <-. exists [CallSetState GPS_RECEIVING_DATA].
      by repeat constructor. }
    destruct (bool_decide _);
      [apply Configure_PSRF_calls in H as [_ (new & Hc & Hall)]
      |apply Configure_calls in H as [_ (new & Hc & Hall)]];
      exists new; (split; [done|]);
      eapply Forall_impl; [exact Hall|apply allowed_CHECK_VERSION
                          |exact Hall|apply allowed_CHECK_VERSION].
  - destruct (bool_decide _).
    { injection H as <- <-. exists [CallSetState GPS_RECEIVING_DATA].
      by repeat constructor. }
    destruct (bool_decide _);
      [by apply Configure_PSRF_calls in H as [_ H]
      |by apply Configure_calls in H as [_ H]].
  - injection H as <- <-. exists []. by rewrite app_nil_r.
  - injection H as <- <-. exists []. by rewrite app_nil_r.
Qed.

(** X21.  Every tick parses, whatever the phase: the parser state a tick
    leaves is the one [gpsReceiveData] leaves, and with a port the queue is
    empty afterwards.  But the tick reports new data only in the receiving
    phase; in every other phase a sentence that arrived is committed to
    [gpsSol] and the tick still returns false. *)
Theorem gpsHandleNMEA_parses_in_every_phase (now : Z) (d : dworld dev_t) b d' :
  HandleNMEA now d = Ret (b, d') ->
  exists h d1,
    ReceiveData d = Ret (h, d1)
    /\ nmea d' = nmea d1 /\ rxq d' = rxq d1
    /\ (gpsPort (gpsState d) = true -> rxq d' = [])
    /\ (b = true <-> h = true /\ state (gpsState d) = GPS_RECEIVING_DATA)
    /\ (state (gpsState d) = GPS_RECEIVING_DATA -> d' = d1).
Proof.
  unfold gpsHandleNMEA. intros H.
  destruct (ReceiveData d) as [[h d1]| |] eqn:E; cbn [mbind outcome_bind] in H;
    try discriminate.
  exists h, d1. split; [done|].
  apply ReceiveData_frame in E as (Hst & _ & _ & Hrx).
  rewrite <- Hst.
  assert (Hgoal : nmea d' = nmea d1 /\ rxq d' = rxq d1
                  /\ (b = true <-> h = true /\ state (gpsState d1) = GPS_RECEIVING_DATA)
                  /\ (state (gpsState d1) = GPS_RECEIVING_DATA -> d' = d1)).
  { destruct (state (gpsState d1)) eqn:Hs.
    - injection H as <- <-. repeat split; try done. by intros [_ ?].
    - injection H as <- <-. repeat split; try done. by intros [_ ?].
    - apply ChangeBaud_nmea in H as Hn. apply ChangeBaud_calls in H as [Hr _].
      destruct Hn as [-> Hn]. repeat split; try done. by intros [_ ?].
    - destruct (bool_decide (autoConfig _ = _)).
      { injection H as <- <-. repeat split; try done. by intros [_ ?]. }
      destruct (bool_decide (provider _ = _)).
      + apply Configure_PSRF_nmea in H as Hn. apply Configure_PSRF_calls in H as [Hr _].
        destruct Hn as [-> Hn]. repeat split; try done. by intros [_ ?].
      + apply Configure_nmea in H as Hn. apply Configure_calls in H as [Hr _].
        destruct Hn as [-> Hn]. repeat split; try done. by intros [_ ?].
    - destruct (bool_decide (autoConfig _ = _)).
      { injection H as <- <-. repeat split; try done. by intros [_ ?]. }
      destruct (bool_decide (provider _ = _)).
      + apply Configure_PSRF_nmea in H as Hn. apply Configure_PSRF_calls in H as [Hr _].
        destruct Hn as [-> Hn]. repeat split; try done. by intros [_ ?].
      + apply Configure_nmea in H as Hn. apply Configure_calls in H as [Hr _].
        destruct Hn as [-> Hn]. repeat split; try done. by intros [_ ?].
    - injection H as <- <-. repeat split; try done. by intros [? _].
    - injection H as <- <-. repeat split; try done. by intros [_ ?]. }
  destruct Hgoal as (G1 & G2 & G3 & G4).
  split; [done|]. split; [done|]. split; [|by split].
  intros Hp. rewrite G2. apply Hrx. by rewrite <- Hst.
Qed.

(** ** The driver: baud negotiation *)

(** X22.  [gpsChangeBaud] checks the cursor of the negotiation against the
    size of the table, but it indexes the table with the configured baud
    rate, which it does not check: the call reads outside the six-entry
    table exactly when auto-baud is on, the cursor is inside, the delay has
    passed, the transmit buffer is empty and the configured index is six or
    more.  In every other case it returns, and returns false. *)
Theorem gpsChangeBaud_table_bounds (now : Z) (d : dworld dev_t) :
  let g := gpsState d in
  let probing :=
    negb (bool_decide (autoBaud (gpsConfig g) = GPS_AUTOBAUD_OFF))
    && (autoBaudrateIndex g <? GPS_BAUDRATE_COUNT)%nat in
  let ready :=
    (GPS_BAUD_CHANGE_DELAY <=? wrap32 (now - lastStateSwitchMs g))
    && isSerialTransmitBufferEmpty (dev d) in
  match ChangeBaud now d with
  | Ret (r, d') =>
      r = false
      /\ ~ (probing = true /\ ready = true /\ (GPS_BAUDRATE_COUNT <= baudrateIndex g)%nat)
  | Fault =>
      probing = true /\ ready = true /\ (GPS_BAUDRATE_COUNT <= baudrateIndex g)%nat
  | Timeout => False
  end.
Proof.
  intros g probing ready. unfold gpsChangeBaud. fold g. fold probing. fold ready.
  assert (Hmtk : length mtkInit_BaudData = GPS_BAUDRATE_COUNT) by done.
  assert (Hsrf : length srfInit_BaudData = GPS_BAUDRATE_COUNT) by done.
  destruct probing; [|split; [done|by intros [? _]]].
  destruct ready; [|split; [done|by intros (_ & ? & _)]].
  destruct (_ !! _) as [s|] eqn:Hs.
  - split; [done|]. intros (_ & _ & Hge).
    apply lookup_lt_Some in Hs. destruct (bool_decide _); lia.
  - split; [done|]. split; [done|].
    apply lookup_ge_None in Hs. destruct (bool_decide _); lia.
Qed.

Lemma elapsed_mod (last elapsed : Z) :
  0 <= elapsed < 4294967296 ->
  wrap32 (wrap32 (last + elapsed) - last) = elapsed.
Proof.
  intros H. unfold wrap32.
  rewrite Zminus_mod_idemp_l.
  replace (last + elapsed - last) with elapsed by lia.
  by apply Z.mod_small.
Qed.

(** X23.  The waiting times are counted on the 32-bit millisecond clock
    and survive its rollover.  Whatever the clock read at the last state
    switch, [elapsed] milliseconds later (the clock wrapping round to zero
    in between or not) the two configuration routines do nothing at all
    while [elapsed] is below 300, and auto-baud does nothing while it is
    below 200; from 300 on a configuration beyond its last step asks for
    the receiving phase. *)
Theorem delays_survive_clock_rollover (d : dworld dev_t) (elapsed : Z) :
  0 <= elapsed < 4294967296 ->
  let now := wrap32 (lastStateSwitchMs (gpsState d) + elapsed) in
  (elapsed < GPS_NMEA_CONFIG_DELAY ->
   Configure now d = Ret (false, d) /\ Configure_PSRF now d = Ret (false, d))
  /\ (elapsed < GPS_BAUD_CHANGE_DELAY ->
      autoBaud (gpsConfig (gpsState d)) <> GPS_AUTOBAUD_OFF ->
      (autoBaudrateIndex (gpsState d) < GPS_BAUDRATE_COUNT)%nat ->
      ChangeBaud now d = Ret (false, d))
  /\ (GPS_NMEA_CONFIG_DELAY <= elapsed ->
      (4 <= autoConfigStep (gpsState d))%nat ->
      exists d', Configure now d = Ret (false, d')
                 /\ calls d' = calls d ++ [CallSetState GPS_RECEIVING_DATA]
                 /\ gpsState d' = gpsSetState GPS_RECEIVING_DATA now (gpsState d)).
Proof.
  intros He now.
  assert (Hel : wrap32 (now - lastStateSwitchMs (gpsState d)) = elapsed)
    by (by apply elapsed_mod).
  split; [|split].
  - intros Hlt. unfold gpsConfigure, gpsConfigure_PSRF. rewrite Hel.
    apply Z.ltb_lt in Hlt. by rewrite Hlt.
  - intros Hlt Hon Hidx. unfold gpsChangeBaud. rewrite Hel.
    rewrite bool_decide_eq_false_2 by done.
    apply Nat.ltb_lt in Hidx. rewrite Hidx. cbn [negb andb].
    assert ((GPS_BAUD_CHANGE_DELAY <=? elapsed) = false) as ->
      by (apply Z.leb_gt; lia).
    done.
  - intros Hge Hstep. unfold gpsConfigure. rewrite Hel.
    assert ((elapsed <? GPS_NMEA_CONFIG_DELAY) = false) as ->
      by (apply Z.ltb_ge; lia).
    destruct (autoConfigStep (gpsState d)) as [|[|[|[|n]]]]; try lia.
    eexists. split; [reflexivity|]. done.
Qed.

Section KeptByCollaborators.

(** What the two routines of io/gps.c are taken to leave alone: the
    configuration and the two baud-rate cursors. *)
Hypothesis gpsSetState_keeps_baud : forall s now g,
  gpsConfig (gpsSetState s now g) = gpsConfig g
  /\ baudrateIndex (gpsSetState s now g) = baudrateIndex g
  /\ autoBaudrateIndex (gpsSetState s now g) = autoBaudrateIndex g.
Hypothesis gpsFinalizeChangeBaud_keeps_baud : forall now g t,
  gpsConfig (gpsFinalizeChangeBaud now (g, t)).1 = gpsConfig g
  /\ baudrateIndex (gpsFinalizeChangeBaud now (g, t)).1 = baudrateIndex g
  /\ autoBaudrateIndex (gpsFinalizeChangeBaud now (g, t)).1 = autoBaudrateIndex g.

Lemma sent_to_port_app a b : sent_to_port (a ++ b) = sent_to_port a ++ sent_to_port b.
Proof. apply List.filter_app. Qed.

(** X24.  Auto-baud over any number of calls.  With auto-baud on and the
    configured baud rate inside the table, repeated calls of
    [gpsChangeBaud] always return; what reaches the port is, for the
    cursor values [i] from where the cursor stood onward, the baud rate
    number [i] followed by the init string, each rate at most once and in
    table order, never beyond the sixth; the init string is the same every
    time, the one for the configured rate; and the hand-over to
    [gpsFinalizeChangeBaud] comes only with the cursor at six or more. *)
Theorem autobaud_tries_each_rate_once (ts : list (Z * (dev_t -> dev_t))) :
  forall d : dworld dev_t,
  autoBaud (gpsConfig (gpsState d)) <> GPS_AUTOBAUD_OFF ->
  (baudrateIndex (gpsState d) < GPS_BAUDRATE_COUNT)%nat ->
  exists d' new n cmd,
    poll ChangeBaud ts d = Ret d'
    /\ calls d' = calls d ++ new
    /\ baud_command (gpsState d) = Some cmd
    /\ autoBaudrateIndex (gpsState d') = (autoBaudrateIndex (gpsState d) + n)%nat
    /\ (n <= GPS_BAUDRATE_COUNT - autoBaudrateIndex (gpsState d))%nat
    /\ sent_to_port new
       = flat_map (fun i => [CallSerialSetBaudRate (baudRate_of i); CallSerialPrint cmd])
                  (seq (autoBaudrateIndex (gpsState d)) n)
    /\ (In CallFinalizeChangeBaud new ->
        (GPS_BAUDRATE_COUNT <= autoBaudrateIndex (gpsState d'))%nat).
Proof.
  assert (Hcmd : forall g, (baudrateIndex g < GPS_BAUDRATE_COUNT)%nat ->
                 exists cmd, baud_command g = Some cmd).
  { intros g Hg. unfold baud_command. apply lookup_lt_is_Some_2.
    by destruct (bool_decide _). }
  induction ts as [|[now port] ts IH]; intros d Hon Hidx.
  { destruct (Hcmd _ Hidx) as [cmd Hc].
    exists d, [], 0%nat, cmd. cbn [poll seq flat_map sent_to_port List.filter].
    rewrite app_nil_r, Nat.add_0_r. repeat split; try done. lia. }
  destruct (Hcmd _ Hidx) as [cmd Hc].
  cbn [poll fst snd]. set (d0 := mkD _ _ _ _ _).
  unfold gpsChangeBaud. cbn [gpsState d0 dev].
  rewrite bool_decide_eq_false_2 by done. cbn [negb andb].
  destruct (autoBaudrateIndex (gpsState d) <? GPS_BAUDRATE_COUNT)%nat eqn:Hlt.
  - apply Nat.ltb_lt in Hlt.
    destruct (_ && _).
    + unfold baud_command in Hc. rewrite Hc. obind.
      set (d1 := do_gpsSetState _ _ _ _ _).
      destruct (gpsSetState_keeps_baud GPS_CHANGE_BAUD now
                  (step_autoBaudrateIndex (gpsState d))) as (K1 & K2 & K3).
      assert (G1 : gpsState d1
                   = gpsSetState GPS_CHANGE_BAUD now (step_autoBaudrateIndex (gpsState d)))
        by done.
      destruct (IH d1) as (d' & new & n & cmd' & E & Hcalls & Hc' & Hi & Hn & Hsent & Hfin).
      { rewrite G1, K1. by destruct (gpsState d). }
      { rewrite G1, K2. by destruct (gpsState d). }
      assert (cmd' = cmd) as ->.
      { unfold baud_command in Hc'. rewrite G1, K1, K2 in Hc'.
        assert (Some cmd' = Some cmd) as [= ->]; [|done].
        rewrite <- Hc', <- Hc. by destruct (gpsState d). }
      assert (G3 : autoBaudrateIndex (gpsState d1) = S (autoBaudrateIndex (gpsState d))).
      { rewrite G1, K3. by destruct (gpsState d). }
      rewrite G3 in *.
      exists d', ([CallSerialSetBaudRate (baudRate_of (autoBaudrateIndex (gpsState d)));
                   CallSerialPrint cmd;
                   CallDebug 1 (Z.of_nat (baudrateIndex (gpsState d)));
                   CallSetState GPS_CHANGE_BAUD] ++ new), (S n), cmd.
      split; [exact E|].
      split.
      { rewrite Hcalls.
        cbn [calls d1 d0 do_gpsSetState with_gpsState do_serialPrint do_serialSetBaudRate].
        by rewrite <- !app_assoc. }
      split; [done|]. split; [lia|]. split; [lia|].
      split.
      { rewrite sent_to_port_app, Hsent. done. }
      intros Hin. apply Hfin. apply in_app_or in Hin as [Hin|Hin]; [|done].
      cbn in Hin. by destruct Hin as [?|[?|[?|[?|[]]]]].
    + obind.
      destruct (IH d0) as (d' & new & n & cmd' & E & Hcalls & Hc' & Hrest); [done|done|].
      exists d', new, n, cmd'. split; [exact E|]. done.
  - apply Nat.ltb_ge in Hlt. obind.
    set (d1 := do_gpsFinalizeChangeBaud _ _ _ _).
    destruct (gpsFinalizeChangeBaud_keeps_baud now (gpsState d) (port (dev d)))
      as (K1 & K2 & K3).
    assert (G1 : gpsState d1 = (gpsFinalizeChangeBaud now (gpsState d, port (dev d))).1)
      by done.
    destruct (IH d1) as (d' & new & n & cmd' & E & Hcalls & Hc' & Hi & Hn & Hsent & Hfin).
    { by rewrite G1, K1. }
    { by rewrite G1, K2. }
    rewrite G1, K3 in Hi, Hn, Hsent.
    assert (n = 0%nat) as -> by lia.
    exists d', (CallFinalizeChangeBaud :: new), 0%nat, cmd.
    split; [exact E|].
    split.
    { rewrite Hcalls. cbn [calls d1 d0 do_gpsFinalizeChangeBaud].
      by rewrite <- app_assoc. }
    split; [done|]. split; [done|]. split; [lia|].
    split; [exact Hsent|].
    intros _. rewrite Hi. lia.
Qed.

End KeptByCollaborators.

(** ** The driver: configuration *)

Section KeptCursor.

(** [gpsSetState] is taken to leave the cursor of the configuration
    alone. *)
Hypothesis gpsSetState_keeps_cursor : forall s now g,
  autoConfigStep (gpsSetState s now g) = autoConfigStep g
  /\ autoConfigPosition (gpsSetState s now g) = autoConfigPosition g.

Lemma sent_to_port_writes (bs : list ascii) :
  sent_to_port (CallSerialWrite <$> bs) = CallSerialWrite <$> bs.
Proof.
  induction bs as [|c bs IH]; [done|].
  cbn [fmap list_fmap sent_to_port List.filter reaches_port].
  f_equal. exact IH.
Qed.

(** One byte-by-byte step: the bytes sent extend the part of the command
    that is out. *)
Lemma Transmit_progress cmd now (d : dworld dev_t) :
  exists (fin : bool) d' new,
    TransmitCommands cmd now d = Ret (fin, d')
    /\ calls d' = calls d ++ new
    /\ ~ In (CallSetState GPS_RECEIVING_DATA) new
    /\ (if fin
        then autoConfigStep (gpsState d') = S (autoConfigStep (gpsState d))
             /\ autoConfigPosition (gpsState d') = 0%nat
             /\ CallSerialWrite <$> cmd
                = (CallSerialWrite <$> take (autoConfigPosition (gpsState d)) cmd)
                    ++ sent_to_port new
        else autoConfigStep (gpsState d') = autoConfigStep (gpsState d)
             /\ (CallSerialWrite <$> take (autoConfigPosition (gpsState d')) cmd)
                = (CallSerialWrite <$> take (autoConfigPosition (gpsState d)) cmd)
                    ++ sent_to_port new).
Proof.
  unfold nmeaTransmitAutoConfigCommands.
  destruct (Transmit_sends (S (length cmd - autoConfigPosition (gpsState d))) cmd now d)
    as (k & sent & fin & d' & E & Hsent & Hlen & _ & Hcalls & _ & _ & Hfin); [lia|].
  exists fin, d'. eexists. split; [exact E|]. split; [exact Hcalls|].
  split.
  { intros Hin. apply in_app_or in Hin as [Hin|Hin].
    - apply in_map_iff in Hin as (c & Hc & _). done.
    - destruct fin; cbn in Hin; [by destruct Hin|done]. }
  rewrite sent_to_port_app, sent_to_port_writes, Hsent.
  destruct fin.
  - destruct Hfin as (Hle & _ & Hst).
    destruct (gpsSetState_keeps_cursor GPS_CONFIGURE now
                (set_autoConfigPosition 0 (step_autoConfig (gpsState d)))) as [K1 K2].
    rewrite Hst, K1, K2. split; [done|]. split; [done|].
    cbn [sent_to_port List.filter reaches_port]. rewrite app_nil_r.
    rewrite <- fmap_app, take_take_drop. by rewrite take_ge by lia.
  - destruct Hfin as [Hst _]. rewrite Hst. split; [done|].
    cbn [sent_to_port List.filter reaches_port autoConfigPosition set_autoConfigPosition].
    rewrite app_nil_r. by rewrite <- fmap_app, take_take_drop.
Qed.

(** One call of [gpsConfigure]: it returns, and what it hands to the port
    is the next part of the script. *)
Ltac no_such_call :=
  let H := fresh in
  intros H; cbn in H; repeat (destruct H as [H|H]; try discriminate); done.

Lemma Configure_progress now (d : dworld dev_t) :
  cursor_ok (gpsState d) ->
  exists d' new,
    Configure now d = Ret (false, d')
    /\ cursor_ok (gpsState d')
    /\ calls d' = calls d ++ new
    /\ mtk_progress (autoConfigStep (gpsState d')) (autoConfigPosition (gpsState d'))
       = mtk_progress (autoConfigStep (gpsState d)) (autoConfigPosition (gpsState d))
           ++ sent_to_port new
    /\ (In (CallSetState GPS_RECEIVING_DATA) new ->
        (4 <= autoConfigStep (gpsState d'))%nat)
    /\ (autoConfigStep (gpsState d) <= autoConfigStep (gpsState d'))%nat.
Proof.
  intros Hok. unfold gpsConfigure.
  destruct (_ <? _).
  { exists d, []. rewrite !app_nil_r. repeat split; try done. }
  unfold cursor_ok in *.
  destruct (autoConfigStep (gpsState d)) as [|[|[|[|n]]]] eqn:Hstep.
  - destruct (Transmit_progress mtkInit_REPORTRATE_5Hz now d)
      as (fin & d' & new & E & Hcalls & Hnr & Hfin).
    rewrite E. obind. exists d', new. split; [done|].
    rewrite Hstep in Hfin.
    destruct fin.
    + destruct Hfin as (H1 & H2 & H3). rewrite H1, H2. cbn [mtk_progress].
      repeat split; try done; try no_such_call; try lia.
    + destruct Hfin as (H1 & H3). rewrite H1. cbn [mtk_progress].
      repeat split; try done; try no_such_call; try lia.
  - specialize (Hok (or_introl eq_refl)).
    unfold config_check. destruct (isSerialTransmitBufferEmpty (dev d)).
    + eexists. exists [CallSerialPrint mtkInitStr_REPORTRATE_5Hz; CallSetState GPS_CONFIGURE].
      split; [reflexivity|].
      destruct (gpsSetState_keeps_cursor GPS_CONFIGURE now (step_autoConfig (gpsState d)))
        as [K1 K2].
      cbn [gpsState calls do_gpsSetState with_gpsState do_serialPrint].
      rewrite K1, K2. cbn [autoConfigStep autoConfigPosition step_autoConfig].
      rewrite Hstep, Hok. cbn [mtk_progress take fmap list_fmap].
      rewrite <- !app_assoc.
      repeat split; try done; try no_such_call; try lia.
    + exists d, []. rewrite !app_nil_r, Hstep. repeat split; try done; try lia.
  - destruct (Transmit_progress mtkInit_UPDATERATE_5Hz now d)
      as (fin & d' & new & E & Hcalls & Hnr & Hfin).
    rewrite E. obind. exists d', new. split; [done|].
    rewrite Hstep in Hfin.
    destruct fin.
    + destruct Hfin as (H1 & H2 & H3). rewrite H1, H2. cbn [mtk_progress].
      rewrite H3, <- !app_assoc.
      repeat split; try done; try no_such_call; try lia.
    + destruct Hfin as (H1 & H3). rewrite H1. cbn [mtk_progress].
      rewrite H3, <- !app_assoc.
      repeat split; try done; try no_such_call; try lia.
  - specialize (Hok (or_intror eq_refl)).
    unfold config_check. destruct (isSerialTransmitBufferEmpty (dev d)).
    + eexists. exists [CallSerialPrint mtkInitStr_UPDATERATE_5Hz; CallSetState GPS_CONFIGURE].
      split; [reflexivity|].
      destruct (gpsSetState_keeps_cursor GPS_CONFIGURE now (step_autoConfig (gpsState d)))
        as [K1 K2].
      cbn [gpsState calls do_gpsSetState with_gpsState do_serialPrint].
      rewrite K1, K2. cbn [autoConfigStep autoConfigPosition step_autoConfig].
      rewrite Hstep. cbn [mtk_progress]. unfold mtk_script.
      rewrite <- !app_assoc.
      repeat split; try done; try no_such_call; try lia.
    + exists d, []. rewrite !app_nil_r, Hstep. repeat split; try done; try lia.
  - eexists. exists [CallSetState GPS_RECEIVING_DATA]. split; [reflexivity|].
    destruct (gpsSetState_keeps_cursor GPS_RECEIVING_DATA now (gpsState d)) as [K1 K2].
    cbn [gpsState calls do_gpsSetState].
    rewrite K1, K2, Hstep. cbn [mtk_progress sent_to_port List.filter reaches_port].
    rewrite app_nil_r.
    repeat split; try done; try no_such_call; try lia; try (intros _; lia).
Qed.

(** X25.  A whole configuration, over any number of calls and whatever the
    timing.  Started with the cursor at the beginning, repeated calls of
    [gpsConfigure] always return; what has reached the port at any moment
    is an initial part of one fixed script (the report-rate command byte by
    byte, terminating NUL included, then the same command as a string,
    then the update-rate command in the same two ways), nothing out of
    order and nothing twice; and once the receiving phase has been asked
    for, the whole script is out. *)
Theorem gpsConfigure_follows_script (ts : list (Z * (dev_t -> dev_t))) :
  forall d : dworld dev_t,
  autoConfigStep (gpsState d) = 0%nat -> autoConfigPosition (gpsState d) = 0%nat ->
  exists d' new rest,
    poll Configure ts d = Ret d'
    /\ calls d' = calls d ++ new
    /\ mtk_script = sent_to_port new ++ rest
    /\ (In (CallSetState GPS_RECEIVING_DATA) new -> rest = []).
Proof.
  assert (G : forall d : dworld dev_t, cursor_ok (gpsState d) ->
            exists d' new,
              poll Configure ts d = Ret d'
              /\ calls d' = calls d ++ new
              /\ mtk_progress (autoConfigStep (gpsState d')) (autoConfigPosition (gpsState d'))
                 = mtk_progress (autoConfigStep (gpsState d))
                                (autoConfigPosition (gpsState d))
                     ++ sent_to_port new
              /\ (In (CallSetState GPS_RECEIVING_DATA) new ->
                  (4 <= autoConfigStep (gpsState d'))%nat)
              /\ (autoConfigStep (gpsState d) <= autoConfigStep (gpsState d'))%nat).
  { induction ts as [|[now port] ts IH]; intros d Hok.
    { exists d, []. rewrite !app_nil_r. repeat split; try done. }
    cbn [poll fst snd]. set (d0 := mkD _ _ _ _ _).
    destruct (Configure_progress now d0 Hok)
      as (d1 & new1 & E1 & Hok1 & Hc1 & Hp1 & Hr1 & Hm1).
    rewrite E1. obind.
    destruct (IH d1 Hok1) as (d' & new & E & Hc & Hp & Hr & Hmono).
    exists d', (new1 ++ new). split; [exact E|].
    split; [rewrite Hc, Hc1; by rewrite <- app_assoc|].
    split; [rewrite Hp, Hp1, sent_to_port_app; by rewrite <- app_assoc|].
    split; [|cbn [gpsState d0] in Hm1; lia].
    intros Hin. apply in_app_or in Hin as [Hin|Hin]; [|by apply Hr].
    specialize (Hr1 Hin). lia. }
  intros d Hstep Hpos.
  destruct (G d) as (d' & new & E & Hc & Hp & Hr & _).
  { unfold cursor_ok. intros _. exact Hpos. }
  rewrite Hstep, Hpos in Hp. change (mtk_progress 0 0) with (@nil call) in Hp.
  rewrite app_nil_l in Hp.
  exists d', new.
  assert (Hrest : exists rest, mtk_script = sent_to_port new ++ rest
                               /\ ((4 <= autoConfigStep (gpsState d'))%nat -> rest = [])).
  { rewrite <- Hp. unfold mtk_script.
    destruct (autoConfigStep (gpsState d')) as [|[|[|[|n]]]]; cbn [mtk_progress].
    - eexists. split; [|lia].
      rewrite <- (take_drop (autoConfigPosition (gpsState d')) mtkInit_REPORTRATE_5Hz) at 1.
      rewrite fmap_app, <- app_assoc. reflexivity.
    - eexists. split; [reflexivity|lia].
    - eexists. split; [|lia].
      rewrite <- (take_drop (autoConfigPosition (gpsState d')) mtkInit_UPDATERATE_5Hz) at 1.
      rewrite fmap_app, <- !app_assoc. reflexivity.
    - eexists. split; [|lia]. rewrite <- !app_assoc. reflexivity.
    - exists []. split; [|done]. unfold mtk_script. by rewrite app_nil_r. }
  destruct Hrest as (rest & Hs & Hdone).
  exists rest. split; [exact E|]. split; [exact Hc|]. split; [exact Hs|].
  intros Hin. apply Hdone. by apply Hr.
Qed.

(** X26.  The same for the second provider.  Started with the cursor at
    the beginning, repeated calls of [gpsConfigure_PSRF] always return;
    what has reached the port is an initial part of the update-rate command
    of that provider, byte by byte and with its terminating NUL; and once
    the receiving phase has been asked for, all of it is out.  No report
    rate is sent to this provider. *)
Theorem gpsConfigure_PSRF_follows_script (ts : list (Z * (dev_t -> dev_t))) :
  forall d : dworld dev_t,
  autoConfigStep (gpsState d) = 0%nat -> autoConfigPosition (gpsState d) = 0%nat ->
  exists d' new rest,
    poll Configure_PSRF ts d = Ret d'
    /\ calls d' = calls d ++ new
    /\ CallSerialWrite <$> srfInit_UPDATERATE_5Hz = sent_to_port new ++ rest
    /\ (In (CallSetState GPS_RECEIVING_DATA) new -> rest = []).
Proof.
  set (out := fun g : gpsReceiverData_t =>
                match autoConfigStep g with
                | 0%nat => CallSerialWrite <$> take (autoConfigPosition g) srfInit_UPDATERATE_5Hz
                | _ => CallSerialWrite <$> srfInit_UPDATERATE_5Hz
                end).
  assert (G : forall d : dworld dev_t,
            exists d' new,
              poll Configure_PSRF ts d = Ret d'
              /\ calls d' = calls d ++ new
              /\ out (gpsState d') = out (gpsState d) ++ sent_to_port new
              /\ (In (CallSetState GPS_RECEIVING_DATA) new ->
                  (1 <= autoConfigStep (gpsState d'))%nat)
              /\ (autoConfigStep (gpsState d) <= autoConfigStep (gpsState d'))%nat).
  { induction ts as [|[now port] ts IH]; intros d.
    { exists d, []. rewrite !app_nil_r. repeat split; try done. }
    cbn [poll fst snd]. set (d0 := mkD _ _ _ _ _).
    assert (S1 : exists d1 new1,
              Configure_PSRF now d0 = Ret (false, d1)
              /\ calls d1 = calls d0 ++ new1
              /\ out (gpsState d1) = out (gpsState d0) ++ sent_to_port new1
              /\ (In (CallSetState GPS_RECEIVING_DATA) new1 ->
                  (1 <= autoConfigStep (gpsState d1))%nat)
              /\ (autoConfigStep (gpsState d0) <= autoConfigStep (gpsState d1))%nat).
    { unfold gpsConfigure_PSRF.
      destruct (_ <? _).
      { exists d0, []. rewrite !app_nil_r. repeat split; try done. }
      unfold out.
      destruct (autoConfigStep (gpsState d0)) as [|n] eqn:Hstep.
      - destruct (Transmit_progress srfInit_UPDATERATE_5Hz now d0)
          as (fin & d1 & new1 & E & Hcalls & Hnr & Hfin).
        rewrite E. obind. exists d1, new1. split; [done|].
        rewrite Hstep in Hfin.
        destruct fin.
        + destruct Hfin as (H1 & H2 & H3). rewrite H1.
          repeat split; try done; try lia.
        + destruct Hfin as (H1 & H3). rewrite H1.
          repeat split; try done; try lia.
      - eexists. exists [CallSetState GPS_RECEIVING_DATA]. split; [reflexivity|].
        destruct (gpsSetState_keeps_cursor GPS_RECEIVING_DATA now (gpsState d0)) as [K1 K2].
        cbn [gpsState calls do_gpsSetState].
        rewrite K1, Hstep. cbn [sent_to_port List.filter reaches_port].
        rewrite app_nil_r.
        repeat split; try done; try lia. }
    destruct S1 as (d1 & new1 & E1 & Hc1 & Hp1 & Hr1 & Hm1).
    rewrite E1. obind.
    destruct (IH d1) as (d' & new & E & Hc & Hp & Hr & Hmono).
    exists d', (new1 ++ new). split; [exact E|].
    split; [rewrite Hc, Hc1; by rewrite <- app_assoc|].
    split; [rewrite Hp, Hp1, sent_to_port_app; by rewrite <- app_assoc|].
    split; [|cbn [gpsState d0] in Hm1; lia].
    intros Hin. apply in_app_or in Hin as [Hin|Hin]; [|by apply Hr].
    specialize (Hr1 Hin). lia. }
  intros d Hstep Hpos.
  destruct (G d) as (d' & new & E & Hc & Hp & Hr & _).
  unfold out in Hp. rewrite Hstep, Hpos in Hp.
  change (CallSerialWrite <$> take 0 srfInit_UPDATERATE_5Hz) with (@nil call) in Hp.
  rewrite app_nil_l in Hp.
  exists d', new.
  assert (Hrest : exists rest,
            CallSerialWrite <$> srfInit_UPDATERATE_5Hz = sent_to_port new ++ rest
            /\ ((1 <= autoConfigStep (gpsState d'))%nat -> rest = [])).
  { rewrite <- Hp.
    destruct (autoConfigStep (gpsState d')) as [|n].
    - eexists. split; [|lia].
      rewrite <- (take_drop (autoConfigPosition (gpsState d')) srfInit_UPDATERATE_5Hz) at 1.
      rewrite fmap_app. reflexivity.
    - exists []. split; [|done]. by rewrite app_nil_r. }
  destruct Hrest as (rest & Hs & Hdone).
  exists rest. split; [exact E|]. split; [exact Hc|]. split; [exact Hs|].
  intros Hin. apply Hdone. by apply Hr.
Qed.

End KeptCursor.

(** ** The driver: where a tick can leave its arrays *)

Lemma step_no_timeout c w : step c w <> Timeout.
Proof.
  unfold gpsNewFrameNMEA.
  destruct (Ascii.eqb c "$"%char); [done|].
  destruct (Ascii.eqb c ","%char || Ascii.eqb c "*"%char).
  { unfold on_separator.
    destruct (wr _ _ _) as [s1| |] eqn:Ew; obind; [|done|].
    2:{ unfold wr in Ew. by destruct decide. }
    assert (Hp : forall fr p m, parse_field GPS_coord_to_degrees fr p s1 m <> Timeout).
    { intros fr p m. unfold parse_field, rd.
      pose proof (grab_fields_budget s1 0) as B0.
      pose proof (grab_fields_budget s1 1) as B1.
      destruct fr; [done| |];
        (destruct p as [|p|p]; [done| |done];
         do 4 (try destruct p as [p|p|]); try done;
         first [ by destruct (s1 !! 0%nat)
               | by destruct (grab_fields s1 0) as [[v b]| |]
               | by destruct (grab_fields s1 1) as [[v b]| |] ]). }
    specialize (Hp (if param w =? 0 then identify (cstr s1) else gps_frame w)
                   (param w) (gps_Msg w)).
    by destruct (parse_field _ _ _ _ _). }
  destruct (Ascii.eqb c CR || Ascii.eqb c LF).
  { unfold on_line_end, rd. destruct (checksum_param w); [|done].
    destruct (_ !! 0%nat); obind; [|done].
    destruct (_ !! 1%nat); obind; [|done].
    destruct (_ =? _); [|done]. by destruct (gps_frame w). }
  unfold on_other. destruct (_ <? _)%nat; [|done].
  unfold wr. by destruct decide.
Qed.

Lemma run_no_timeout bytes : forall w, run bytes w <> Timeout.
Proof.
  induction bytes as [|c bytes IH]; intros w; [done|].
  cbn [feed]. pose proof (step_no_timeout c w) as Hs.
  destruct (step c w) as [[ok w1]| |]; obind; [|done|done]. cbn [snd].
  specialize (IH w1). by destruct (run bytes w1) as [[l w2]| |].
Qed.

(** A run that leaves the array does so at one byte, after a prefix that
    went through. *)
Lemma run_fault_at bytes : forall w,
  length (str w) = NMEA_BUFFER_SIZE -> (offset w <= 15)%nat ->
  run bytes w = Fault ->
  exists pre c post signals wk,
    bytes = pre ++ c :: post
    /\ run pre w = Ret (signals, wk)
    /\ length (str wk) = NMEA_BUFFER_SIZE /\ (offset wk <= 15)%nat
    /\ step c wk = Fault.
Proof.
  induction bytes as [|c bytes IH]; intros w Hlen Ho H; [done|].
  cbn [feed] in H.
  destruct (step c w) as [[ok w1]| |] eqn:E; cbn [mbind outcome_bind snd] in H.
  - destruct (step_invariant GPS_coord_to_degrees gpsConstrainHDOP gpsConstrainEPE
                GPS_HDOP_TO_EPH_MULTIPLIER c w ok w1 E Hlen Ho) as [Hlen1 Ho1].
    destruct (run bytes w1) as [[l w2]| |] eqn:E2; cbn [mbind outcome_bind] in H;
      try discriminate.
    destruct (IH w1 Hlen1 Ho1 E2) as (pre & c' & post & signals & wk & -> & R & Hl & Hk & F).
    exists (c :: pre), c', post, (ok :: signals), wk.
    split; [done|]. split; [|done].
    cbn [feed]. rewrite E. obind. cbn [fst snd]. by rewrite R.
  - exists [], c, bytes, [], w. done.
  - by apply step_no_timeout in E.
Qed.

Lemma Transmit_returns cmd now (d : dworld dev_t) :
  exists r d', TransmitCommands cmd now d = Ret (r, d').
Proof.
  unfold nmeaTransmitAutoConfigCommands.
  destruct (Transmit_sends (S (length cmd - autoConfigPosition (gpsState d))) cmd now d)
    as (k & sent & fin & d' & E & _); [lia|]. eauto.
Qed.

Lemma Configure_returns now (d : dworld dev_t) :
  exists d', Configure now d = Ret (false, d').
Proof.
  unfold gpsConfigure. destruct (_ <? _); [eauto|].
  destruct (autoConfigStep _) as [|[|[|[|n]]]]; eauto.
  - destruct (Transmit_returns mtkInit_REPORTRATE_5Hz now d) as (r & d' & ->). obind. eauto.
  - destruct (Transmit_returns mtkInit_UPDATERATE_5Hz now d) as (r & d' & ->). obind. eauto.
Qed.

Lemma Configure_PSRF_returns now (d : dworld dev_t) :
  exists d', Configure_PSRF now d = Ret (false, d').
Proof.
  unfold gpsConfigure_PSRF. destruct (_ <? _); [eauto|].
  destruct (autoConfigStep _) as [|n]; eauto.
  destruct (Transmit_returns srfInit_UPDATERATE_5Hz now d) as (r & d' & ->). obind. eauto.
Qed.

(** X27.  One tick of the driver, entered with the parser's array at its
    length and the cursor inside it, terminates (no loop runs on: the
    decoder gives up at the sixteenth byte, the transmit loop ends with the
    command) and keeps that state of the array.  It leaves an array in two
    cases only: a byte of the receive queue is a separator that closes a
    full field decoded with a fractional digit, whose fifteenth byte is a
    decimal point; or, in the baud-change phase with auto-baud on, the
    configured baud-rate index lies outside the six-entry table. *)
Theorem gpsHandleNMEA_overruns (now : Z) (d : dworld dev_t) :
  length (str (nmea d)) = NMEA_BUFFER_SIZE -> (offset (nmea d) <= 15)%nat ->
  HandleNMEA now d <> Timeout
  /\ (forall b d', HandleNMEA now d = Ret (b, d') ->
        length (str (nmea d')) = NMEA_BUFFER_SIZE /\ (offset (nmea d') <= 15)%nat)
  /\ (HandleNMEA now d = Fault ->
        (exists pre c post signals wk,
            rxq d = pre ++ c :: post
            /\ run pre (nmea d) = Ret (signals, wk)
            /\ is_separator c
            /\ decodes_fraction (gps_frame wk) (param wk) = true
            /\ offset wk = 15%nat /\ str wk !! 14%nat = Some "."%char)
        \/ (state (gpsState d) = GPS_CHANGE_BAUD
            /\ autoBaud (gpsConfig (gpsState d)) <> GPS_AUTOBAUD_OFF
            /\ (GPS_BAUDRATE_COUNT <= baudrateIndex (gpsState d))%nat)).
Proof.
  intros Hlen Ho.
  (* receiving *)
  assert (HR : match ReceiveData d with
               | Ret (h, d1) =>
                   length (str (nmea d1)) = NMEA_BUFFER_SIZE
                   /\ (offset (nmea d1) <= 15)%nat /\ gpsState d1 = gpsState d
               | Fault => run (rxq d) (nmea d) = Fault
               | Timeout => False
               end).
  { unfold gpsReceiveData. destruct (gpsPort (gpsState d)); [|done].
    rewrite receive_loop_feed.
    pose proof (run_no_timeout (rxq d) (nmea d)) as Hn.
    destruct (run (rxq d) (nmea d)) as [[signals w']| |] eqn:E; obind; [|done|done].
    cbn [nmea snd gpsState].
    destruct (run_invariant GPS_coord_to_degrees gpsConstrainHDOP gpsConstrainEPE
                GPS_HDOP_TO_EPH_MULTIPLIER _ _ _ _ E Hlen Ho) as [H1 H2].
    done. }
  (* the phases *)
  assert (HC : forall d1 : dworld dev_t,
             match ChangeBaud now d1 with
             | Ret (r, d2) => nmea d2 = nmea d1
             | Fault => autoBaud (gpsConfig (gpsState d1)) <> GPS_AUTOBAUD_OFF
                        /\ (GPS_BAUDRATE_COUNT <= baudrateIndex (gpsState d1))%nat
             | Timeout => False
             end).
  { intros d1. unfold gpsChangeBaud.
    destruct (bool_decide (autoBaud _ = _)) eqn:Hoff; cbn [negb andb]; [done|].
    apply bool_decide_eq_false in Hoff.
    destruct (_ <? _)%nat; [|done].
    destruct (_ && _); [|done].
    destruct (_ !! _) as [s|] eqn:Hs; [done|].
    split; [done|]. apply lookup_ge_None in Hs.
    assert (length mtkInit_BaudData = GPS_BAUDRATE_COUNT) by done.
    assert (length srfInit_BaudData = GPS_BAUDRATE_COUNT) by done.
    destruct (bool_decide _); lia. }
  unfold gpsHandleNMEA.
  destruct (ReceiveData d) as [[h d1]| |] eqn:E; obind.
  - destruct HR as (Hl1 & Ho1 & Hst). rewrite <- Hst.
    assert (Hphase : forall d1' : dworld dev_t, nmea d1' = nmea d1 ->
              length (str (nmea d1')) = NMEA_BUFFER_SIZE /\ (offset (nmea d1') <= 15)%nat)
      by (by intros d1' ->).
    destruct (state (gpsState d1)) eqn:Hs.
    + split; [done|]. split; [|done]. intros b d' [= <- <-]. done.
    + split; [done|]. split; [|done]. intros b d' [= <- <-]. done.
    + specialize (HC d1).
      destruct (ChangeBaud now d1) as [[r d2]| |]; [| |done].
      * split; [done|]. split; [|done]. intros b d' [= <- <-]. by apply Hphase.
      * split; [done|]. split; [done|]. intros _. right. done.
    + destruct (bool_decide (autoConfig _ = _)).
      { split; [done|]. split; [|done]. intros b d' [= <- <-]. done. }
      destruct (bool_decide (provider _ = _)).
      * destruct (Configure_PSRF_returns now d1) as [d2 E2]. rewrite E2.
        split; [done|]. split; [|done]. intros b d' [= <- <-].
        apply Hphase. by apply Configure_PSRF_nmea in E2 as [_ ?].
      * destruct (Configure_returns now d1) as [d2 E2]. rewrite E2.
        split; [done|]. split; [|done]. intros b d' [= <- <-].
        apply Hphase. by apply Configure_nmea in E2 as [_ ?].
    + destruct (bool_decide (autoConfig _ = _)).
      { split; [done|]. split; [|done]. intros b d' [= <- <-]. done. }
      destruct (bool_decide (provider _ = _)).
      * destruct (Configure_PSRF_returns now d1) as [d2 E2]. rewrite E2.
        split; [done|]. split; [|done]. intros b d' [= <- <-].
        apply Hphase. by apply Configure_PSRF_nmea in E2 as [_ ?].
      * destruct (Configure_returns now d1) as [d2 E2]. rewrite E2.
        split; [done|]. split; [|done]. intros b d' [= <- <-].
        apply Hphase. by apply Configure_nmea in E2 as [_ ?].
    + split; [done|]. split; [|done]. intros b d' [= <- <-]. done.
    + split; [done|]. split; [|done]. intros b d' [= <- <-]. done.
  - split; [done|]. split; [done|]. intros _. left.
    destruct (run_fault_at _ _ Hlen Ho HR)
      as (pre & c & post & signals & wk & Hsplit & R & Hlk & Hok & F).
    pose proof (step_outcome GPS_coord_to_degrees gpsConstrainHDOP gpsConstrainEPE
                  GPS_HDOP_TO_EPH_MULTIPLIER c wk Hlk Hok) as C.
    cbv zeta in C. rewrite F in C. destruct C as ((Hsep & Hdec & _) & Hfull & Hdot).
    exists pre, c, post, signals, wk. done.
  - done.
Qed.
End DriverRuns.

(** ** The command tables *)

(** X28.  Every command the driver can send is a well-formed sentence
    whose two checksum characters are the upper-case hex digits of the
    exclusive-or of the bytes between ['$'] and ['*']: the twelve baud-rate
    commands of the two tables, the two rate commands printed as strings,
    and the three rate commands sent byte by byte, which are such a
    sentence followed by the terminating NUL of the array. *)
Theorem init_commands_carry_their_checksum :
  let well_formed (s : list ascii) :=
    exists ident args,
      Forall (fun f => field_ok f = true) (ident :: args)
      /\ s = sentence ident args (nmea_checksum ident args) in
  Forall well_formed
         (mtkInit_BaudData ++ srfInit_BaudData
          ++ [mtkInitStr_REPORTRATE_5Hz; mtkInitStr_UPDATERATE_5Hz])
  /\ Forall (fun a => exists s, well_formed s /\ a = s ++ [NUL])
            [mtkInit_REPORTRATE_5Hz; mtkInit_UPDATERATE_5Hz; srfInit_UPDATERATE_5Hz].
Proof.
  intros well_formed.
  assert (W : forall (ident : string) (args : list string),
            forallb field_ok (chars ident :: map chars args) = true ->
            well_formed (sentence (chars ident) (map chars args)
                           (nmea_checksum (chars ident) (map chars args)))).
  { intros ident args H. exists (chars ident), (map chars args). split; [|done].
    apply Forall_forall. intros f Hf. rewrite forallb_forall in H.
    apply H. by apply list_elem_of_In. }
  split.
  - repeat apply Forall_cons_2; [..|apply Forall_nil_2].
    + by apply (W "PMTK251" ["115200"])%string.
    + by apply (W "PMTK251" ["57600"])%string.
    + by apply (W "PMTK251" ["38400"])%string.
    + by apply (W "PMTK251" ["19200"])%string.
    + by apply (W "PMTK251" ["9600"])%string.
    + by apply (W "PMTK251" ["4800"])%string.
    + by apply (W "PSRF100" ["1"; "115200"; "8"; "1"; "0"])%string.
    + by apply (W "PSRF100" ["1"; "57600"; "8"; "1"; "0"])%string.
    + by apply (W "PSRF100" ["1"; "38400"; "8"; "1"; "0"])%string.
    + by apply (W "PSRF100" ["1"; "19200"; "8"; "1"; "0"])%string.
    + by apply (W "PSRF100" ["1"; "9600"; "8"; "1"; "0"])%string.
    + by apply (W "PSRF100" ["1"; "4800"; "8"; "1"; "0"])%string.
    + by apply (W "PMTK220" ["200"])%string.
    + by apply (W "PMTK300" ["200"; "0"; "0"; "0"; "0"])%string.
  - repeat apply Forall_cons_2; [..|apply Forall_nil_2].
    + eexists. split; [by apply (W "PMTK220" ["200"])%string|done].
    + eexists. split; [by apply (W "PMTK300" ["200"; "0"; "0"; "0"; "0"])%string|done].
    + eexists. split; [by apply (W "PSRF103" ["00"; "6"; "00"; "0"])%string|done].
Qed.

(** ** The further properties on concrete input *)

Lemma grab_fields_digits_witness :
  grab_fields (chars "545" ++ NUL :: repeat NUL 12) 1
  = Ret (wrap32 (decimal (chars "545") 0), chars "545" ++ NUL :: repeat NUL 12)
  /\ ((length (chars "545") <= 9)%nat
      -> wrap32 (decimal (chars "545") 0) = decimal (chars "545") 0).
Proof.
  apply (grab_fields_digits (chars "545") (repeat NUL 12) 1).
  - reflexivity.
  - simpl. lia.
Defined.

Lemma grab_fields_fraction_witness :
  grab_fields (chars "545" ++ "."%char :: chars "46" ++ NUL :: repeat NUL 9) 1
  = Ret (wrap32 (decimal (chars "545" ++ take 1 (chars "46")) 0),
         <[(length (chars "545") + 1 + 1)%nat := NUL]>
           (chars "545" ++ "."%char :: chars "46" ++ NUL :: repeat NUL 9)).
Proof.
  apply (grab_fields_fraction (chars "545") (chars "46") (repeat NUL 9) 1).
  - reflexivity.
  - reflexivity.
  - discriminate.
  - lia.
  - simpl. lia.
  - simpl. lia.
Defined.

Lemma grab_fields_fault_iff_witness :
  (grab_fields (chars "12345678901234." ++ [NUL]) 1 = Fault
   <-> 1%nat = 1%nat /\ decimal_fits (chars "12345678901234." ++ [NUL]) = false)
  /\ (1%nat = 0%nat ->
      exists v, grab_fields (chars "12345678901234." ++ [NUL]) 1
                = Ret (v, chars "12345678901234." ++ [NUL])).
Proof.
  apply (grab_fields_fault_iff (chars "12345678901234." ++ [NUL]) 1).
  - reflexivity.
  - lia.
Defined.

Lemma gpsNewFrameNMEA_stays_in_array_witness :
  sample_step ","%char ex_world_full = Fault
  /\ sample_step "5"%char ex_world_full <> Fault.
Proof.
  unfold sample_step. split.
  - apply (proj1 (gpsNewFrameNMEA_stays_in_array sample_coord sample_constrain
                    sample_constrain sample_multiplier ","%char ex_world_full
                    eq_refl ltac:(simpl; lia))).
    split; [by left|]. split; reflexivity.
  - intros F.
    apply (proj1 (gpsNewFrameNMEA_stays_in_array sample_coord sample_constrain
                    sample_constrain sample_multiplier "5"%char ex_world_full
                    eq_refl ltac:(simpl; lia))) in F.
    destruct F as [[F|F] _]; discriminate.
Defined.

Lemma parser_accounting_witness :
  exists signals w',
    sample_feed (ex_gga ++ ex_gga) world_flying = Ret (signals, w')
    /\ (packetCount (gpsStats world_flying) + N.of_nat (frames signals)
        <= packetCount (gpsStats w'))%N
    /\ (errors (gpsStats world_flying) <= errors (gpsStats w'))%N
    /\ (counted w' + open_checksum w'
        <= counted world_flying + open_checksum world_flying
           + N.of_nat (occurrences "*"%char (ex_gga ++ ex_gga)))%N
    /\ (counted w' <= counted world_flying + N.of_nat (line_ends (ex_gga ++ ex_gga)))%N
    /\ (packetCount (gpsStats w') = packetCount (gpsStats world_flying)
        -> gpsSol w' = gpsSol world_flying).
Proof.
  unfold sample_feed. eexists _, _. split; [vm_compute; reflexivity|].
  apply (parser_accounting sample_coord sample_constrain sample_constrain
           sample_multiplier (ex_gga ++ ex_gga) world_flying).
  vm_compute. reflexivity.
Defined.

Lemma no_checksum_no_effect_witness :
  let bytes := chars "$GPGGA,123519,4807.038,N,01131.000,E,1,08,0.9,545.4,M"
               ++ [CR; LF] in
  exists signals w',
    sample_feed bytes world_flying = Ret (signals, w')
    /\ signals = repeat false (length bytes)
    /\ gpsSol w' = gpsSol world_flying /\ gpsStats w' = gpsStats world_flying
    /\ checksum_param w' = false.
Proof.
  intros bytes. unfold sample_feed. eexists _, _. split; [vm_compute; reflexivity|].
  apply (no_checksum_no_effect sample_coord sample_constrain sample_constrain
           sample_multiplier bytes world_flying).
  - reflexivity.
  - reflexivity.
  - vm_compute. reflexivity.
Defined.

Lemma other_sentence_only_counted_witness :
  let ident := chars "GPGSV" in
  let args := map chars ["3"; "1"; "11"; "03"; "03"; "111"; "00"]%string in
  let s := sentence ident args (nmea_checksum ident args) in
  exists w',
    sample_feed s world_flying = Ret (repeat false (length s), w')
    /\ gpsStats w' = count_packet (gpsStats world_flying)
    /\ gpsSol w' = gpsSol world_flying
    /\ gps_Msg w' = gps_Msg world_flying
    /\ gps_frame w' = NO_FRAME.
Proof.
  intros ident args. unfold sample_feed.
  apply (other_sentence_only_counted sample_coord sample_constrain sample_constrain
           sample_multiplier world_flying ident args).
  - reflexivity.
  - reflexivity.
  - repeat constructor.
  - reflexivity.
  - simpl. lia.
Defined.

Lemma short_GGA_commits_old_pending_witness :
  let ident := chars "GPGGA" in
  let cks := nmea_checksum ident [] in
  exists w',
    sample_feed (sentence ident [] cks) world_flying
    = Ret (repeat false (length (sentence_head ident [] cks)) ++ [true; false], w')
    /\ gpsSol w' = commit_GGA sample_constrain sample_constrain sample_multiplier
                              (gps_Msg world_flying) (gpsSol world_flying)
    /\ gps_Msg w' = gps_Msg world_flying
    /\ gpsStats w' = count_packet (gpsStats world_flying).
Proof.
  intros ident. unfold sample_feed.
  apply (short_GGA_commits_old_pending sample_coord sample_constrain sample_constrain
           sample_multiplier world_flying ident []).
  - reflexivity.
  - reflexivity.
  - left. reflexivity.
  - constructor.
  - simpl. lia.
Defined.

Lemma lower_case_checksum_digits_witness :
  let ident := chars "GPRMC" in
  let args := ex_rmc_args "022.4" in
  exists w',
    sample_feed (sentence_with ident args "6"%char "a"%char) world_flying
    = Ret (repeat false (length (sentence ident args 106)), w')
    /\ gpsStats w' = count_error (gpsStats world_flying)
    /\ gpsSol w' = gpsSol world_flying.
Proof.
  intros ident args. unfold sample_feed.
  apply (proj2 (lower_case_checksum_digits sample_coord sample_constrain sample_constrain
                  sample_multiplier world_flying ident args
                  eq_refl eq_refl ltac:(repeat constructor) eq_refl)).
  vm_compute. discriminate.
Defined.

Lemma sentence_ignores_what_dollar_resets_witness :
  exists signals w1' w2',
    sample_feed ex_gga world_flying = Ret (signals, w1')
    /\ sample_feed ex_gga ex_world_cut = Ret (signals, w2')
    /\ gpsSol w1' = gpsSol w2' /\ gpsStats w1' = gpsStats w2'
    /\ gps_Msg w1' = gps_Msg w2' /\ gps_frame w1' = gps_frame w2'
    /\ param w1' = param w2' /\ parity w1' = parity w2'
    /\ offset w1' = offset w2' /\ checksum_param w1' = checksum_param w2'.
Proof.
  unfold sample_feed, ex_gga.
  apply (sentence_ignores_what_dollar_resets sample_coord sample_constrain
           sample_constrain sample_multiplier world_flying ex_world_cut
           (chars "GPGGA") (ex_gga_args "1" "")).
  - reflexivity.
  - reflexivity.
  - reflexivity.
  - reflexivity.
  - reflexivity.
  - reflexivity.
  - repeat constructor.
  - reflexivity.
  - vm_compute. split; [discriminate|reflexivity].
Defined.

Lemma long_field_bytes_dropped_witness :
  let f := chars "12345678901234567890" in
  exists w',
    sample_feed f world0 = Ret (repeat false (length f), w')
    /\ offset w' = Nat.min 15 (offset world0 + length f)
    /\ parity w'
       = (if checksum_param world0 then parity world0
          else xor_bytes (take (15 - offset world0) f) (parity world0))
    /\ str w'
       = take (offset world0) (str world0) ++ take (15 - offset world0) f
           ++ drop (Nat.min 15 (offset world0 + length f)) (str world0)
    /\ str w' !! 15%nat = str world0 !! 15%nat
    /\ gps_Msg w' = gps_Msg world0 /\ param w' = param world0
    /\ checksum_param w' = checksum_param world0 /\ gps_frame w' = gps_frame world0
    /\ gpsSol w' = gpsSol world0 /\ gpsStats w' = gpsStats world0.
Proof.
  intros f. unfold sample_feed.
  apply (long_field_bytes_dropped sample_coord sample_constrain sample_constrain
           sample_multiplier f world0).
  - repeat constructor.
  - reflexivity.
  - simpl. lia.
Defined.

Lemma gpsReceiveData_runs_parser_witness :
  sample_receive (ex_phase GPS_CONFIGURE ex_gga)
  = match sample_feed ex_gga world_flying with
    | Ret (signals, w') =>
        Ret ((0 <? frames signals)%nat,
             mkD (with_gpsSol (Nat.iter (frames signals) frame_seen (gpsSol w')) w')
                 (gpsState (ex_phase GPS_CONFIGURE ex_gga)) [] [] [])
    | Fault => Fault
    | Timeout => Timeout
    end.
Proof.
  unfold sample_receive, sample_feed.
  apply (gpsReceiveData_runs_parser sample_coord sample_constrain sample_constrain
           sample_multiplier (list ascii) (ex_phase GPS_CONFIGURE ex_gga)).
  reflexivity.
Defined.

Lemma heartbeat_toggles_per_signal_witness :
  let d := ex_phase GPS_RECEIVING_DATA (ex_gga ++ ex_gga) in
  exists d' signals w',
    sample_receive d = Ret (true, d')
    /\ sample_feed (ex_gga ++ ex_gga) world_flying = Ret (signals, w')
    /\ true = (0 <? frames signals)%nat
    /\ flags_gpsHeartbeat (gpsSol (nmea d'))
       = xorb (flags_gpsHeartbeat (gpsSol (nmea d))) (Nat.odd (frames signals))
    /\ flags_gpsHeartbeat (gpsSol (nmea d')) = flags_gpsHeartbeat (gpsSol (nmea d)).
Proof.
  intros d. unfold sample_receive, sample_feed.
  assert (E : { d' | gpsReceiveData sample_coord sample_constrain sample_constrain
                       sample_multiplier (list ascii) d = Ret (true, d') })
    by (eexists; vm_compute; reflexivity).
  destruct E as [d' E]. exists d'.
  destruct (heartbeat_toggles_per_signal sample_coord sample_constrain sample_constrain
              sample_multiplier (list ascii) d true d' eq_refl E)
    as (signals & w' & R & Hnew & Hbeat).
  exists signals, w'. split; [exact E|]. split; [exact R|]. split; [exact Hnew|].
  split; [exact Hbeat|].
  rewrite Hbeat.
  assert (Hf : frames signals = 2%nat).
  { assert (Ret (signals, w') = feed sample_coord sample_constrain sample_constrain
                                     sample_multiplier (ex_gga ++ ex_gga) world_flying)
      as R' by (symmetry; exact R).
    vm_compute in R'. injection R' as -> _. reflexivity. }
  rewrite Hf. reflexivity.
Defined.

Lemma gpsHandleNMEA_receives_GGA_witness :
  let d := ex_phase GPS_RECEIVING_DATA ex_gga in
  exists d',
    sample_handle 100 d = Ret (true, d')
    /\ gpsSol (nmea d')
       = frame_seen
           (commit_GGA sample_constrain sample_constrain sample_multiplier
              (gga_pending sample_coord (chars "4807.038") (chars "N")
                 (chars "01131.000") (chars "E") (chars "1") (chars "08")
                 (chars "0.9") (chars "545.4") (gps_Msg (nmea d)))
              (gpsSol (nmea d)))
    /\ gpsStats (nmea d') = count_packet (gpsStats (nmea d))
    /\ rxq d' = [] /\ gpsState d' = gpsState d
    /\ dev d' = dev d /\ calls d' = calls d.
Proof.
  intros d. unfold sample_handle.
  apply (gpsHandleNMEA_receives_GGA sample_coord sample_constrain sample_constrain
           sample_multiplier (list ascii) sample_free sample_empty sample_write
           sample_print sample_setBaud sample_baudRate sample_setState sample_finalize
           100 d (chars "GPGGA") (chars "123519")
           (chars "4807.038") (chars "N") (chars "01131.000") (chars "E")
           (chars "1") (chars "08") (chars "0.9") (chars "545.4")
           (map chars ["M"; "46.9"; "M"; ""; ""]%string)).
  - reflexivity.
  - reflexivity.
  - reflexivity.
  - reflexivity.
  - left. reflexivity.
  - repeat constructor.
  - simpl. lia.
  - reflexivity.
  - reflexivity.
  - reflexivity.
Defined.

Lemma gpsHandleNMEA_calls_by_phase_witness :
  let d := ex_phase GPS_CHANGE_BAUD [] in
  exists d' new,
    sample_handle 1000 d = Ret (false, d')
    /\ calls d' = calls d ++ new
    /\ Forall (fun c => allowed (state (gpsState d)) c = true) new.
Proof.
  intros d. unfold sample_handle.
  assert (E : { d' | gpsHandleNMEA sample_coord sample_constrain sample_constrain
                       sample_multiplier (list ascii) sample_free sample_empty
                       sample_write sample_print sample_setBaud sample_baudRate
                       sample_setState sample_finalize 1000 d = Ret (false, d') })
    by (eexists; vm_compute; reflexivity).
  destruct E as [d' E]. exists d'.
  destruct (gpsHandleNMEA_calls_by_phase sample_coord sample_constrain sample_constrain
              sample_multiplier (list ascii) sample_free sample_empty sample_write
              sample_print sample_setBaud sample_baudRate sample_setState
              sample_finalize 1000 d false d' E) as (new & Hc & Hall).
  exists new. split; [exact E|]. split; [exact Hc|exact Hall].
Defined.

Lemma gpsHandleNMEA_parses_in_every_phase_witness :
  let d := ex_phase GPS_CONFIGURE ex_gga in
  exists d' h d1,
    sample_handle 100 d = Ret (false, d')
    /\ sample_receive d = Ret (h, d1)
    /\ h = true
    /\ nmea d' = nmea d1 /\ rxq d' = rxq d1
    /\ (gpsPort (gpsState d) = true -> rxq d' = [])
    /\ (false = true <-> h = true /\ state (gpsState d) = GPS_RECEIVING_DATA)
    /\ (state (gpsState d) = GPS_RECEIVING_DATA -> d' = d1).
Proof.
  intros d. unfold sample_handle, sample_receive.
  assert (E : { d' | gpsHandleNMEA sample_coord sample_constrain sample_constrain
                       sample_multiplier (list ascii) sample_free sample_empty
                       sample_write sample_print sample_setBaud sample_baudRate
                       sample_setState sample_finalize 100 d = Ret (false, d') })
    by (eexists; vm_compute; reflexivity).
  destruct E as [d' E]. exists d'.
  destruct (gpsHandleNMEA_parses_in_every_phase sample_coord sample_constrain
              sample_constrain sample_multiplier (list ascii) sample_free sample_empty
              sample_write sample_print sample_setBaud sample_baudRate sample_setState
              sample_finalize 100 d false d' E) as (h & d1 & R & H).
  exists h, d1. split; [exact E|]. split; [exact R|]. split; [|exact H].
  assert (Ret (h, d1) = gpsReceiveData sample_coord sample_constrain sample_constrain
                          sample_multiplier (list ascii) d) as R' by (symmetry; exact R).
  vm_compute in R'. injection R' as -> _. reflexivity.
Defined.

Lemma autobaud_tries_each_rate_once_witness :
  let d := ex_phase GPS_CHANGE_BAUD [] in
  exists d' new n cmd,
    poll sample_probe (ex_polls 8) d = Ret d'
    /\ calls d' = calls d ++ new
    /\ baud_command (gpsState d) = Some cmd
    /\ autoBaudrateIndex (gpsState d') = (autoBaudrateIndex (gpsState d) + n)%nat
    /\ (n <= GPS_BAUDRATE_COUNT - autoBaudrateIndex (gpsState d))%nat
    /\ sent_to_port new
       = flat_map (fun i => [CallSerialSetBaudRate (sample_baudRate i);
                             CallSerialPrint cmd])
                  (seq (autoBaudrateIndex (gpsState d)) n)
    /\ (In CallFinalizeChangeBaud new ->
        (GPS_BAUDRATE_COUNT <= autoBaudrateIndex (gpsState d'))%nat).
Proof.
  intros d. unfold sample_probe.
  apply (autobaud_tries_each_rate_once (list ascii) sample_empty sample_print
           sample_setBaud sample_baudRate sample_setState sample_finalize).
  - intros s now g. repeat split.
  - intros now g t. repeat split.
  - discriminate.
  - simpl. unfold GPS_BAUDRATE_COUNT. lia.
Defined.

Lemma gpsConfigure_follows_script_witness :
  let d := ex_phase GPS_CONFIGURE [] in
  exists d' new rest,
    poll sample_configure (ex_polls 6) d = Ret d'
    /\ calls d' = calls d ++ new
    /\ mtk_script = sent_to_port new ++ rest
    /\ (In (CallSetState GPS_RECEIVING_DATA) new -> rest = []).
Proof.
  intros d. unfold sample_configure.
  apply (gpsConfigure_follows_script (list ascii) sample_free sample_empty sample_write
           sample_print sample_setState).
  - intros s now g. split; reflexivity.
  - reflexivity.
  - reflexivity.
Defined.

Lemma gpsConfigure_PSRF_follows_script_witness :
  let d := ex_phase_PSRF GPS_CONFIGURE in
  exists d' new rest,
    poll sample_configure_PSRF (ex_polls 3) d = Ret d'
    /\ calls d' = calls d ++ new
    /\ CallSerialWrite <$> srfInit_UPDATERATE_5Hz = sent_to_port new ++ rest
    /\ (In (CallSetState GPS_RECEIVING_DATA) new -> rest = []).
Proof.
  intros d. unfold sample_configure_PSRF.
  apply (gpsConfigure_PSRF_follows_script (list ascii) sample_free sample_empty
           sample_write sample_setState).
  - intros s now g. split; reflexivity.
  - reflexivity.
  - reflexivity.
Defined.

Lemma gpsHandleNMEA_overruns_witness :
  let d := mkD ex_world_full (gpsState (ex_phase GPS_RECEIVING_DATA []))
               (chars ",") [] [] in
  sample_handle 100 d = Fault
  /\ exists pre c post signals wk,
       rxq d = pre ++ c :: post
       /\ sample_feed pre (nmea d) = Ret (signals, wk)
       /\ is_separator c
       /\ decodes_fraction (gps_frame wk) (param wk) = true
       /\ offset wk = 15%nat /\ str wk !! 14%nat = Some "."%char.
Proof.
  intros d.
  assert (F : sample_handle 100 d = Fault) by (vm_compute; reflexivity).
  split; [exact F|]. unfold sample_handle, sample_feed in *.
  destruct (gpsHandleNMEA_overruns sample_coord sample_constrain sample_constrain
              sample_multiplier (list ascii) sample_free sample_empty sample_write
              sample_print sample_setBaud sample_baudRate sample_setState
              sample_finalize 100 d eq_refl ltac:(simpl; lia)) as (_ & _ & H).
  destruct (H F) as [Hp|(Hs & _)]; [exact Hp|discriminate].
Defined.

Lemma frame_ready_means_GGA_committed_witness :
  exists w',
    sample_step CR ex_world_closing = Ret (true, w')
    /\ (CR = CR \/ CR = LF)
    /\ checksum_param ex_world_closing = true /\ gps_frame ex_world_closing = FRAME_GGA
    /\ (exists c0 c1, str ex_world_closing !! 0%nat = Some c0
                      /\ str ex_world_closing !! 1%nat = Some c1
                      /\ wrap8 (16 * hexval c0 + hexval c1) = parity ex_world_closing)
    /\ w' = mkWorld (gps_Msg ex_world_closing) (param ex_world_closing)
                    (offset ex_world_closing) (parity ex_world_closing)
                    (str ex_world_closing) false FRAME_GGA
                    (commit_GGA sample_constrain sample_constrain sample_multiplier
                                (gps_Msg ex_world_closing) (gpsSol ex_world_closing))
                    (count_packet (gpsStats ex_world_closing)).
Proof.
  unfold sample_step. eexists. split; [vm_compute; reflexivity|].
  apply (frame_ready_means_GGA_committed sample_coord sample_constrain sample_constrain
           sample_multiplier CR ex_world_closing).
  vm_compute. reflexivity.
Defined.

Lemma delays_survive_clock_rollover_witness :
  let d := ex_before_rollover in
  let now := wrap32 (lastStateSwitchMs (gpsState d) + 299) in
  now = 203
  /\ sample_configure now d = Ret (false, d)
  /\ sample_configure_PSRF now d = Ret (false, d).
Proof.
  intros d now. split; [reflexivity|].
  unfold sample_configure, sample_configure_PSRF.
  apply (proj1 (delays_survive_clock_rollover (list ascii) sample_free sample_empty
                  sample_write sample_print sample_setBaud sample_baudRate
                  sample_setState sample_finalize d 299 ltac:(lia))).
  reflexivity.
Defined.

Lemma gga_altitude_wraps_witness :
  let ident := chars "GPGGA" in
  let args := map chars [ "123519"; "4807.038"; "N"; "01131.000"; "E"; "1"; "08";
                          "0.9"; "1000.0"; "M"; "46.9"; "M"; ""; "" ]%string in
  let tenths := decimal (chars "1000" ++ take 1 (chars "0")) 0 in
  tenths = 10000
  /\ exists w',
       sample_feed (sentence ident args (nmea_checksum ident args)) world_flying
       = Ret (repeat false (length (sentence_head ident args (nmea_checksum ident args)))
                ++ [true; false], w')
       /\ llh_alt (gpsSol w') = (10 * tenths) mod 65536
       /\ (llh_alt (gpsSol w') = 10 * tenths <-> tenths <= 6553).
Proof.
  intros ident args tenths. split; [reflexivity|]. unfold sample_feed.
  apply (gga_altitude_wraps sample_coord sample_constrain sample_constrain
           sample_multiplier world_flying ident (chars "123519")
           (chars "4807.038") (chars "N") (chars "01131.000") (chars "E")
           (chars "1") (chars "08") (chars "0.9") (chars "1000") (chars "0")
           (map chars ["M"; "46.9"; "M"; ""; ""]%string)).
  - reflexivity.
  - reflexivity.
  - left. reflexivity.
  - repeat constructor.
  - simpl. lia.
  - reflexivity.
  - reflexivity.
  - reflexivity.
  - reflexivity.
  - discriminate.
  - reflexivity.
Defined.

Lemma gga_then_rmc_witness :
  let identG := chars "GPGGA" in
  let argsG := ex_gga_args "1" "" in
  let identR := chars "GPRMC" in
  let argsR := ex_rmc_args "022.4" in
  let sG := sentence identG argsG (nmea_checksum identG argsG) in
  let sR := sentence identR argsR (nmea_checksum identR argsR) in
  let mG := gga_pending sample_coord (chars "4807.038") (chars "N") (chars "01131.000")
                        (chars "E") (chars "1") (chars "08") (chars "0.9")
                        (chars "545.4") (gps_Msg world0) in
  exists w',
    sample_feed (sG ++ sR) world0
    = Ret ((repeat false (length (sentence_head identG argsG (nmea_checksum identG argsG)))
              ++ [true; false]) ++ repeat false (length sR), w')
    /\ gpsSol w'
       = commit_RMC (rmc_pending (chars "022.4") (chars "084.4") mG)
           (commit_GGA sample_constrain sample_constrain sample_multiplier
                       mG (gpsSol world0))
    /\ groundSpeed (gpsSol w') = rmc_speed (chars "022.4")
    /\ groundCourse (gpsSol w') = rmc_course (chars "084.4")
    /\ sol_numSat (gpsSol w') = gga_numSat (chars "08")
    /\ (gga_fix (chars "1") = true ->
        fixType (gpsSol w') = GPS_FIX_3D
        /\ llh_lat (gpsSol w')
           = gga_coordinate sample_coord "S"%char (chars "4807.038") (chars "N")
        /\ llh_lon (gpsSol w')
           = gga_coordinate sample_coord "W"%char (chars "01131.000") (chars "E")
        /\ llh_alt (gpsSol w') = gga_altitude (chars "545.4"))
    /\ packetCount (gpsStats w') = (packetCount (gpsStats world0) + 2)%N
    /\ errors (gpsStats w') = errors (gpsStats world0).
Proof.
  intros identG argsG identR argsR sG sR mG. unfold sample_feed.
  apply (gga_then_rmc sample_coord sample_constrain sample_constrain sample_multiplier
           world0 identG (chars "123519")
           (chars "4807.038") (chars "N") (chars "01131.000") (chars "E")
           (chars "1") (chars "08") (chars "0.9") (chars "545.4")
           (map chars ["M"; "46.9"; "M"; ""; ""]%string)
           identR (chars "123519") (chars "A") (chars "4807.038") (chars "N")
           (chars "01131.000") (chars "E") (chars "022.4") (chars "084.4")
           (map chars ["230394"; "003.1"; "W"]%string)).
  - reflexivity.
  - reflexivity.
  - left. reflexivity.
  - repeat constructor.
  - simpl. lia.
  - reflexivity.
  - reflexivity.
  - left. reflexivity.
  - repeat constructor.
  - simpl. lia.
  - reflexivity.
  - reflexivity.
Defined.

Lemma bytes_after_checksum_ignored_witness :
  let ident := chars "GPGGA" in
  let args := ex_gga_args "1" "" in
  let cks := nmea_checksum ident args in
  let junk := chars "xyz" in
  exists ok w1 w2,
    sample_feed (sentence ident args cks) world_flying
    = Ret (repeat false (length (sentence_head ident args cks)) ++ [ok; false], w1)
    /\ sample_feed (sentence_head ident args cks ++ junk ++ [CR; LF]) world_flying
       = Ret (repeat false (length (sentence_head ident args cks) + length junk)
                ++ [ok; false], w2)
    /\ gpsSol w2 = gpsSol w1 /\ gpsStats w2 = gpsStats w1
    /\ gps_Msg w2 = gps_Msg w1 /\ checksum_param w2 = checksum_param w1.
Proof.
  intros ident args cks junk. unfold sample_feed.
  apply (bytes_after_checksum_ignored sample_coord sample_constrain sample_constrain
           sample_multiplier world_flying ident args cks junk).
  - reflexivity.
  - repeat constructor.
  - reflexivity.
  - vm_compute. split; [discriminate|reflexivity].
  - repeat constructor.
Defined.

Lemma gga_sentence_without_fix_witness :
  let ident := chars "GNGGA" in
  let args := ex_gga_args "0" "" in
  let cks := nmea_checksum ident args in
  exists w',
    sample_feed (sentence ident args cks) world_flying
    = Ret (repeat false (length (sentence_head ident args cks)) ++ [true; false], w')
    /\ fixType (gpsSol w') = GPS_NO_FIX
    /\ sol_numSat (gpsSol w') = gga_numSat (chars "08")
    /\ (all_digits (chars "08") = true
        -> sol_numSat (gpsSol w') = decimal (chars "08") 0 mod 256)
    /\ llh_lat (gpsSol w') = llh_lat (gpsSol world_flying)
    /\ llh_lon (gpsSol w') = llh_lon (gpsSol world_flying)
    /\ llh_alt (gpsSol w') = llh_alt (gpsSol world_flying)
    /\ sol_hdop (gpsSol w') = sol_hdop (gpsSol world_flying)
    /\ eph (gpsSol w') = eph (gpsSol world_flying)
    /\ epv (gpsSol w') = epv (gpsSol world_flying)
    /\ packetCount (gpsStats w') = (packetCount (gpsStats world_flying) + 1)%N
    /\ errors (gpsStats w') = errors (gpsStats world_flying).
Proof.
  apply (gga_sentence_without_fix sample_coord sample_constrain sample_constrain
           sample_multiplier world_flying (chars "GNGGA") (chars "123519")
           (chars "4807.038") (chars "N") (chars "01131.000") (chars "E")
           (chars "0") (chars "08") (chars "0.9") (chars "545.4")
           (map chars ["M"; "46.9"; "M"; ""; ""]%string)).
  - reflexivity.
  - reflexivity.
  - right. reflexivity.
  - repeat constructor.
  - simpl. lia.
  - reflexivity.
  - reflexivity.
  - vm_compute. discriminate.
Defined.
